(** * Easter Island raycaster: a shallow embedding of [game.js]

    JavaScript numbers are modelled as real numbers ([R]) wherever the source
    computes with fractional coordinates, angles and distances, and as
    integers ([Z]) where the source only ever stores integers (magazine
    counts, enemy health, the kill counter, map cell codes, grid indices).
    [Math.floor] is [Zfloor], [Math.cos]/[Math.sin]/[Math.sqrt] are the
    functions of the real-number library. *)

From Stdlib Require Import Reals Lra Lia ZArith List Bool Zfloor.
Import ListNotations.

Open Scope R_scope.

(** ** Numeric helpers *)

Definition Rltb (a b : R) : bool := if Rlt_dec a b then true else false.
Definition Rleb (a b : R) : bool := if Rle_dec a b then true else false.

(** JavaScript indexing of an array with an integer-valued number:
    [None] stands for [undefined]. *)
Definition lookupZ {A : Type} (l : list A) (i : Z) : option A :=
  if (i <? 0)%Z then None else nth_error l (Z.to_nat i).

(** ** Gameplay constants *)

Definition TARGET_KILLS : Z := 100.
Definition ACTIVE_ENEMY_COUNT : nat := 5.

(** ** The grid map *)

Definition map : list (list Z) :=
  [ [1;1;1;1;1;1;1;1;1;1;1;1;1;1;1;1];
    [1;0;0;0;0;0;0;0;0;0;0;0;0;0;0;1];
    [1;0;0;0;0;1;1;1;0;0;1;1;1;0;0;1];
    [1;0;0;0;0;1;0;1;0;0;1;0;1;0;0;1];
    [1;0;0;0;0;1;0;1;0;0;1;0;1;0;0;1];
    [1;0;0;0;0;1;1;1;0;0;1;1;1;0;0;1];
    [1;0;0;0;0;0;0;0;0;0;0;0;0;0;0;1];
    [1;0;0;1;1;1;0;0;0;0;0;1;1;1;0;1];
    [1;0;0;1;0;1;0;0;0;0;0;1;0;1;0;1];
    [1;0;0;1;1;1;0;0;0;0;0;1;1;1;0;1];
    [1;0;0;0;0;0;0;0;0;0;0;0;0;0;0;1];
    [1;0;0;0;0;1;1;1;0;0;1;1;1;0;0;1];
    [1;0;0;0;0;1;0;1;0;0;1;0;1;0;0;1];
    [1;0;0;0;0;1;0;1;0;0;1;0;1;0;0;1];
    [1;0;0;0;0;1;1;1;0;0;1;1;1;0;0;1];
    [1;1;1;1;1;1;1;1;1;1;1;1;1;1;1;1] ]%Z.

Definition mapWidth : Z := Z.of_nat (length (hd [] map)).
Definition mapHeight : Z := Z.of_nat (length map).

(** The three outcomes of the JavaScript expression [map[r][c]]: the row
    does not exist and indexing [undefined] throws a [TypeError]; the row
    exists but the column does not and the value is [undefined]; or a cell
    code is read. *)
Inductive Lookup : Type :=
| Throws
| Undefined
| Value (v : Z).

Definition mapAt (r c : Z) : Lookup :=
  match lookupZ map r with
  | None => Throws
  | Some row =>
      match lookupZ row c with
      | None => Undefined
      | Some v => Value v
      end
  end.

(** [map[r][c] === 0] when no exception is thrown. *)
Definition isZero (l : Lookup) : bool :=
  match l with
  | Value v => (v =? 0)%Z
  | _ => false
  end.

(** [map[r][c] > 0] when no exception is thrown. *)
Definition isWall (l : Lookup) : bool :=
  match l with
  | Value v => (0 <? v)%Z
  | _ => false
  end.

(** A cell the player may occupy: inside the grid with code 0. *)
Definition emptyCell (cx cy : Z) : Prop := mapAt cy cx = Value 0%Z.

(** ** Camera parameters *)

Definition FOV : R := PI * 100 / 180.
Definition numRays : nat := 480.
Definition maxRenderDist : R := 20.
Definition hudHeight : Z := 80.

(** The canvas size comes from the hosting page, which is not part of the
    script; it is a parameter of every function that reads it. *)
Record Canvas : Type := mkCanvas { width : Z; height : Z }.

Definition screenHeight (cv : Canvas) : Z := (height cv - hudHeight)%Z.
Definition stripWidth (cv : Canvas) : R := IZR (width cv) / INR numRays.
Definition projectionPlane (cv : Canvas) : R :=
  (IZR (screenHeight cv) / 2) / tan (FOV / 2).

(** ** Angles *)

(** [while (a < -Math.PI) a += 2 * Math.PI], unrolled [n] times. *)
Fixpoint wrapUp (n : nat) (a : R) : R :=
  match n with
  | O => a
  | S k => if Rlt_dec a (- PI) then wrapUp k (a + 2 * PI) else a
  end.

(** [while (a > Math.PI) a -= 2 * Math.PI], unrolled [n] times. *)
Fixpoint wrapDown (n : nat) (a : R) : R :=
  match n with
  | O => a
  | S k => if Rlt_dec PI a then wrapDown k (a - 2 * PI) else a
  end.

(** Number of iterations after which the first loop has certainly left. *)
Definition wrapUpFuel (a : R) : nat := Z.to_nat (up ((- PI - a) / (2 * PI))).
Definition wrapDownFuel (a : R) : nat := Z.to_nat (up ((a - PI) / (2 * PI))).

(** The two normalisation loops in sequence, as they appear in
    [updatePlayer], [shootWeapon] and the sprite routines. *)
Definition wrapAngle (a : R) : R :=
  let a1 := wrapUp (wrapUpFuel a) a in
  wrapDown (wrapDownFuel a1) a1.

(** [Math.atan2(y, x)] (signed zeros do not exist in [R]). *)
Definition atan2 (y x : R) : R :=
  if Rlt_dec 0 x then atan (y / x)
  else if Rlt_dec x 0 then
         (if Rle_dec 0 y then atan (y / x) + PI else atan (y / x) - PI)
       else if Rlt_dec 0 y then PI / 2
            else if Rlt_dec y 0 then - PI / 2
                 else 0.

(** ** Data model *)

Record Player : Type := mkPlayer {
  px : R;
  py : R;
  pangle : R;
  moveForward : bool;
  moveBackward : bool;
  turnLeft : bool;
  turnRight : bool;
  strafeLeft : bool;
  strafeRight : bool
}.

Definition initialPlayer : Player :=
  mkPlayer 2.5 2.5 0 false false false false false false.

Inductive WeaponKey : Type := shotgun | laser.

(** [totalAmmo] is a number or [Infinity]. *)
Inductive Ammo : Type :=
| Finite (n : Z)
| Infinity.

(** The mutable part of a weapon object. *)
Record Weapon : Type := mkWeapon {
  magazine : Z;
  totalAmmo : Ammo
}.

(** The fields of the weapon table that no code path ever assigns. *)
Definition ammoCapacity (k : WeaponKey) : Z :=
  match k with shotgun => 8 | laser => 20 end.
Definition reloadTime (k : WeaponKey) : Z :=
  match k with shotgun => 2000 | laser => 1500 end.
Definition damage (k : WeaponKey) : Z :=
  match k with shotgun => 60 | laser => 40 end.

Definition initialWeapon (k : WeaponKey) : Weapon :=
  mkWeapon (ammoCapacity k) Infinity.

(** [a > 0] *)
Definition ammoPositive (a : Ammo) : bool :=
  match a with
  | Finite n => (0 <? n)%Z
  | Infinity => true
  end.

(** [Math.min(needed, a)] for a finite [needed] *)
Definition ammoMin (needed : Z) (a : Ammo) : Z :=
  match a with
  | Finite n => Z.min needed n
  | Infinity => needed
  end.

(** [a - load] *)
Definition ammoSub (a : Ammo) (load : Z) : Ammo :=
  match a with
  | Finite n => Finite (n - load)
  | Infinity => Infinity
  end.

Record Enemy : Type := mkEnemy {
  ex : R;
  ey : R;
  ehealth : Z;
  alive : bool;
  dying : bool;
  deathTimer : R;
  scale : R
}.

(** [new Enemy({x, y})] *)
Definition newEnemy (x y : R) : Enemy := mkEnemy x y 60 true false 0 1.

Inductive Sprite : Type := decorTreeImg | decorRockImg | decorBushImg.

Record Decoration : Type := mkDecoration {
  decx : R;
  decy : R;
  sprite : Sprite
}.

Inductive GameState : Type := menu | playing.

(** What the overlay element shows. *)
Inductive Overlay : Type := OverlayHidden | OverlayGameOver | OverlayWin.

(** The module-level variables of the script.  [reloadTimer] is the pending
    timeout, if any, together with the weapon object its callback closed
    over. *)
Record Game : Type := mkGame {
  player : Player;
  enemies : list Enemy;
  decorations : list Decoration;
  weaponShotgun : Weapon;
  weaponLaser : Weapon;
  selectedWeapon : WeaponKey;
  reloading : bool;
  reloadTimer : option WeaponKey;
  gameOver : bool;
  kills : Z;
  health : R;
  armor : R;
  muzzleTimer : R;
  bulletTimer : R;
  damageFlash : R;
  gameState : GameState;
  overlay : Overlay
}.

Definition weapon (g : Game) (k : WeaponKey) : Weapon :=
  match k with
  | shotgun => weaponShotgun g
  | laser => weaponLaser g
  end.

Definition otherWeapon (k : WeaponKey) : WeaponKey :=
  match k with shotgun => laser | laser => shotgun end.

(** *** Field updates *)

Definition setPlayer (p : Player) (g : Game) : Game :=
  mkGame p (enemies g) (decorations g) (weaponShotgun g) (weaponLaser g)
    (selectedWeapon g) (reloading g) (reloadTimer g) (gameOver g) (kills g)
    (health g) (armor g) (muzzleTimer g) (bulletTimer g) (damageFlash g)
    (gameState g) (overlay g).

Definition setEnemies (es : list Enemy) (g : Game) : Game :=
  mkGame (player g) es (decorations g) (weaponShotgun g) (weaponLaser g)
    (selectedWeapon g) (reloading g) (reloadTimer g) (gameOver g) (kills g)
    (health g) (armor g) (muzzleTimer g) (bulletTimer g) (damageFlash g)
    (gameState g) (overlay g).

Definition setWeapon (k : WeaponKey) (w : Weapon) (g : Game) : Game :=
  mkGame (player g) (enemies g) (decorations g)
    (match k with shotgun => w | laser => weaponShotgun g end)
    (match k with shotgun => weaponLaser g | laser => w end)
    (selectedWeapon g) (reloading g) (reloadTimer g) (gameOver g) (kills g)
    (health g) (armor g) (muzzleTimer g) (bulletTimer g) (damageFlash g)
    (gameState g) (overlay g).

Definition setSelectedWeapon (k : WeaponKey) (g : Game) : Game :=
  mkGame (player g) (enemies g) (decorations g) (weaponShotgun g)
    (weaponLaser g) k (reloading g) (reloadTimer g) (gameOver g) (kills g)
    (health g) (armor g) (muzzleTimer g) (bulletTimer g) (damageFlash g)
    (gameState g) (overlay g).

Definition setReload (r : bool) (t : option WeaponKey) (g : Game) : Game :=
  mkGame (player g) (enemies g) (decorations g) (weaponShotgun g)
    (weaponLaser g) (selectedWeapon g) r t (gameOver g) (kills g)
    (health g) (armor g) (muzzleTimer g) (bulletTimer g) (damageFlash g)
    (gameState g) (overlay g).

Definition setGameOver (b : bool) (o : Overlay) (g : Game) : Game :=
  mkGame (player g) (enemies g) (decorations g) (weaponShotgun g)
    (weaponLaser g) (selectedWeapon g) (reloading g) (reloadTimer g) b
    (kills g) (health g) (armor g) (muzzleTimer g) (bulletTimer g)
    (damageFlash g) (gameState g) o.

Definition setKills (k : Z) (g : Game) : Game :=
  mkGame (player g) (enemies g) (decorations g) (weaponShotgun g)
    (weaponLaser g) (selectedWeapon g) (reloading g) (reloadTimer g)
    (gameOver g) k (health g) (armor g) (muzzleTimer g) (bulletTimer g)
    (damageFlash g) (gameState g) (overlay g).

Definition setVitals (h a flash : R) (g : Game) : Game :=
  mkGame (player g) (enemies g) (decorations g) (weaponShotgun g)
    (weaponLaser g) (selectedWeapon g) (reloading g) (reloadTimer g)
    (gameOver g) (kills g) h a (muzzleTimer g) (bulletTimer g) flash
    (gameState g) (overlay g).

Definition setFlashTimers (m b flash : R) (g : Game) : Game :=
  mkGame (player g) (enemies g) (decorations g) (weaponShotgun g)
    (weaponLaser g) (selectedWeapon g) (reloading g) (reloadTimer g)
    (gameOver g) (kills g) (health g) (armor g) m b flash
    (gameState g) (overlay g).

(** ** Combat *)

(** [Enemy.prototype.hit]: the enemy object and the global [kills] are both
    written, so both are threaded. *)
Definition hit (dmg : Z) (e : Enemy) (k : Z) : Enemy * Z :=
  if negb (alive e) then (e, k)
  else
    let h := (ehealth e - dmg)%Z in
    if (h <=? 0)%Z
    then (mkEnemy (ex e) (ey e) h (alive e) true 0.6 1, (k + 1)%Z)
    else (mkEnemy (ex e) (ey e) h (alive e) (dying e) (deathTimer e) (scale e),
          k).

(** [target.hit(weapon.damage)] for the enemy object at position [i] of the
    [enemies] array. *)
Fixpoint hitAt (i : nat) (dmg : Z) (es : list Enemy) (k : Z)
  : list Enemy * Z :=
  match es, i with
  | [], _ => ([], k)
  | e :: rest, O => let (e', k') := hit dmg e k in (e' :: rest, k')
  | e :: rest, S j => let (rest', k') := hitAt j dmg rest k in (e :: rest', k')
  end.

(** 5% of the field of view *)
Definition threshold : R := FOV * 0.05.

Definition enemyDist (p : Player) (e : Enemy) : R :=
  let dx := ex e - px p in
  let dy := ey e - py p in
  sqrt (dx * dx + dy * dy).

Definition enemyAngle (p : Player) (e : Enemy) : R :=
  let dx := ex e - px p in
  let dy := ey e - py p in
  wrapAngle (atan2 dy dx - pangle p).

(** [dist < minDist] where [minDist] starts out as [Infinity] ([None]). *)
Definition belowMin (d : R) (minDist : option R) : bool :=
  match minDist with
  | None => true
  | Some m => Rltb d m
  end.

(** The target-selection loop of [shootWeapon]; [idx] is the position of the
    head of [es] in the [enemies] array, [target] and [minDist] are the
    loop variables. *)
Fixpoint findTarget (p : Player) (es : list Enemy) (idx : nat)
  (target : option nat) (minDist : option R) : option nat :=
  match es with
  | [] => target
  | e :: rest =>
      if negb (alive e) then findTarget p rest (S idx) target minDist
      else
        if Rltb (Rabs (enemyAngle p e)) threshold
           && belowMin (enemyDist p e) minDist
        then findTarget p rest (S idx) (Some idx) (Some (enemyDist p e))
        else findTarget p rest (S idx) target minDist
  end.

(** [weapon.totalAmmo <= 0] *)
Definition ammoExhausted (a : Ammo) : bool :=
  match a with
  | Finite n => (n <=? 0)%Z
  | Infinity => false
  end.

(** [reloadWeapon]: arms the timeout; the refill itself happens in the
    callback ([reloadTimerFires]).  The HUD class changes are not state of
    the simulation. *)
Definition reloadWeapon (g : Game) : Game :=
  if reloading g then g
  else
    let k := selectedWeapon g in
    let w := weapon g k in
    if (ammoCapacity k <=? magazine w)%Z || ammoExhausted (totalAmmo w)
    then g
    else setReload true (Some k) g.

(** The callback passed to [setTimeout] in [reloadWeapon], run when the
    pending timeout expires.  It reads the weapon object captured when the
    reload was requested. *)
Definition reloadTimerFires (g : Game) : Game :=
  match reloadTimer g with
  | None => g
  | Some k =>
      let w := weapon g k in
      let needed := (ammoCapacity k - magazine w)%Z in
      let load := ammoMin needed (totalAmmo w) in
      setReload false None
        (setWeapon k
           (mkWeapon (magazine w + load)%Z (ammoSub (totalAmmo w) load)) g)
  end.

Definition setMuzzleBullet (m b : R) (g : Game) : Game :=
  setFlashTimers m b (damageFlash g) g.

(** [shootWeapon] *)
Definition shootWeapon (g : Game) : Game :=
  if gameOver g || reloading g then g
  else
    let k := selectedWeapon g in
    let w := weapon g k in
    if (magazine w <=? 0)%Z then
      (if ammoPositive (totalAmmo w) then reloadWeapon g else g)
    else
      let w1 := mkWeapon (magazine w - 1)%Z (totalAmmo w) in
      let g1 := setWeapon k w1 g in
      let g2 :=
        match findTarget (player g1) (enemies g1) 0 None None with
        | Some t =>
            let (es, n) := hitAt t (damage k) (enemies g1) (kills g1) in
            setKills n (setEnemies es g1)
        | None => g1
        end in
      let g3 := setMuzzleBullet 0.15 0.1 g2 in
      if (magazine w1 <=? 0)%Z && ammoPositive (totalAmmo w1)
      then reloadWeapon g3
      else g3.

(** The keys the [keydown] listener dispatches on while playing. *)
Inductive Key : Type :=
| KeyW | KeyS | KeyA | KeyD | KeyQ | KeyE
| Digit1 | Digit2 | KeyR | Space.

Definition setIntent (f : Player -> Player) (g : Game) : Game :=
  setPlayer (f (player g)) g.

Definition withForward (b : bool) (p : Player) : Player :=
  mkPlayer (px p) (py p) (pangle p) b (moveBackward p) (turnLeft p)
    (turnRight p) (strafeLeft p) (strafeRight p).
Definition withBackward (b : bool) (p : Player) : Player :=
  mkPlayer (px p) (py p) (pangle p) (moveForward p) b (turnLeft p)
    (turnRight p) (strafeLeft p) (strafeRight p).
Definition withTurnLeft (b : bool) (p : Player) : Player :=
  mkPlayer (px p) (py p) (pangle p) (moveForward p) (moveBackward p) b
    (turnRight p) (strafeLeft p) (strafeRight p).
Definition withTurnRight (b : bool) (p : Player) : Player :=
  mkPlayer (px p) (py p) (pangle p) (moveForward p) (moveBackward p)
    (turnLeft p) b (strafeLeft p) (strafeRight p).
Definition withStrafeLeft (b : bool) (p : Player) : Player :=
  mkPlayer (px p) (py p) (pangle p) (moveForward p) (moveBackward p)
    (turnLeft p) (turnRight p) b (strafeRight p).
Definition withStrafeRight (b : bool) (p : Player) : Player :=
  mkPlayer (px p) (py p) (pangle p) (moveForward p) (moveBackward p)
    (turnLeft p) (turnRight p) (strafeLeft p) b.

(** The [keydown] listener for the keys above.  On the start menu only
    Enter is listened to, so these keys do nothing there; after the end of
    the game they do nothing either. *)
Definition keydown (key : Key) (g : Game) : Game :=
  match gameState g with
  | menu => g
  | playing =>
      if gameOver g then g
      else
        match key with
        | KeyW => setIntent (withForward true) g
        | KeyS => setIntent (withBackward true) g
        | KeyA => setIntent (withTurnLeft true) g
        | KeyD => setIntent (withTurnRight true) g
        | KeyQ => setIntent (withStrafeLeft true) g
        | KeyE => setIntent (withStrafeRight true) g
        | Digit1 => setSelectedWeapon shotgun g
        | Digit2 => setSelectedWeapon laser g
        | KeyR => reloadWeapon g
        | Space => shootWeapon g
        end
  end.

(** ** Player movement *)

(** A function body that may be left by an exception: the state reached is
    kept in both cases. *)
Inductive Completion (A : Type) : Type :=
| Normal (a : A)
| Abrupt (a : A).
Arguments Normal {A} a.
Arguments Abrupt {A} a.

Definition stateOf {A : Type} (c : Completion A) : A :=
  match c with Normal a | Abrupt a => a end.

Definition moveSpeed : R := 3.
Definition rotSpeed : R := 2.

(** The facing angle after the turn keys and the normalisation loops. *)
Definition turnedAngle (dt : R) (p : Player) : R :=
  let a1 := if turnLeft p then pangle p - rotSpeed * dt else pangle p in
  let a2 := if turnRight p then a1 + rotSpeed * dt else a1 in
  wrapAngle a2.

(** [moveX] and [moveY] as accumulated by the four movement tests. *)
Definition moveVector (dt : R) (p : Player) : R * R :=
  let a := turnedAngle dt p in
  let m0 := (0, 0) in
  let m1 := if moveForward p
            then (fst m0 + cos a * moveSpeed * dt,
                  snd m0 + sin a * moveSpeed * dt)
            else m0 in
  let m2 := if moveBackward p
            then (fst m1 - cos a * moveSpeed * dt,
                  snd m1 - sin a * moveSpeed * dt)
            else m1 in
  let m3 := if strafeLeft p
            then (fst m2 + - sin a * moveSpeed * dt,
                  snd m2 + cos a * moveSpeed * dt)
            else m2 in
  if strafeRight p
  then (fst m3 + sin a * moveSpeed * dt,
        snd m3 + - cos a * moveSpeed * dt)
  else m3.

Definition withPose (x y a : R) (p : Player) : Player :=
  mkPlayer x y a (moveForward p) (moveBackward p) (turnLeft p)
    (turnRight p) (strafeLeft p) (strafeRight p).

(** [updatePlayer(dt)].  Reading [map[Math.floor(newY)]] outside the grid
    yields [undefined], and indexing it throws: the function is then left
    with the x-move already applied. *)
Definition updatePlayer (dt : R) (p : Player) : Completion Player :=
  let a := turnedAngle dt p in
  let (moveX, moveY) := moveVector dt p in
  let newX := px p + moveX in
  let newY := py p + moveY in
  match mapAt (Zfloor (py p)) (Zfloor newX) with
  | Throws => Abrupt (withPose (px p) (py p) a p)
  | cx =>
      let x1 := if isZero cx then newX else px p in
      match mapAt (Zfloor newY) (Zfloor x1) with
      | Throws => Abrupt (withPose x1 (py p) a p)
      | cy =>
          let y1 := if isZero cy then newY else py p in
          Normal (withPose x1 y1 a p)
      end
  end.

(** ** Wall caster *)

(** The variables of the grid-marching loop of [castRays]. *)
Record Dda : Type := mkDda {
  sideDistX : R;
  sideDistY : R;
  mapX : Z;
  mapY : Z;
  side : Z;
  hitFlag : bool
}.

Definition outOfBounds (mx my : Z) : bool :=
  (my <? 0)%Z || (mapHeight <=? my)%Z || (mx <? 0)%Z || (mapWidth <=? mx)%Z.

Definition ddaAdvance (deltaDistX deltaDistY : R) (stepX stepY : Z) (s : Dda)
  : Dda :=
  if Rlt_dec (sideDistX s) (sideDistY s)
  then mkDda (sideDistX s + deltaDistX) (sideDistY s)
             (mapX s + stepX)%Z (mapY s) 0 (hitFlag s)
  else mkDda (sideDistX s) (sideDistY s + deltaDistY)
             (mapX s) (mapY s + stepY)%Z 1 (hitFlag s).

Definition withHit (s : Dda) : Dda :=
  mkDda (sideDistX s) (sideDistY s) (mapX s) (mapY s) (side s) true.

(** [while (!hit) { ... }]: [None] when [fuel] iterations did not leave the
    loop. *)
Fixpoint ddaLoop (fuel : nat) (deltaDistX deltaDistY : R) (stepX stepY : Z)
  (s : Dda) : option Dda :=
  match fuel with
  | O => None
  | S k =>
      let s1 := ddaAdvance deltaDistX deltaDistY stepX stepY s in
      if outOfBounds (mapX s1) (mapY s1) then Some (withHit s1)
      else if isWall (mapAt (mapY s1) (mapX s1)) then Some (withHit s1)
           else ddaLoop k deltaDistX deltaDistY stepX stepY s1
  end.

Definition rayAngle (p : Player) (i : nat) : R :=
  pangle p - FOV / 2 + (FOV * INR i) / INR numRays.

Definition deltaDist (rayDir : R) : R :=
  if Req_dec_T rayDir 0 then 1e30 else Rabs (1 / rayDir).

Definition stepOf (rayDir : R) : Z :=
  if Rlt_dec rayDir 0 then (-1)%Z else 1%Z.

Definition initialSideDist (rayDir pos : R) (cell : Z) : R :=
  if Rlt_dec rayDir 0
  then (pos - IZR cell) * deltaDist rayDir
  else (IZR cell + 1.0 - pos) * deltaDist rayDir.

(** The loop variables on entry to the marching loop of ray [i]. *)
Definition ddaStart (p : Player) (i : nat) : Dda :=
  let rayDirX := cos (rayAngle p i) in
  let rayDirY := sin (rayAngle p i) in
  let mx := Zfloor (px p) in
  let my := Zfloor (py p) in
  mkDda (initialSideDist rayDirX (px p) mx)
        (initialSideDist rayDirY (py p) my) mx my 0 false.

(** The marching loop of ray [i], from its initialisation to its exit. *)
Definition marchRay (fuel : nat) (p : Player) (i : nat) : option Dda :=
  let rayDirX := cos (rayAngle p i) in
  let rayDirY := sin (rayAngle p i) in
  ddaLoop fuel (deltaDist rayDirX) (deltaDist rayDirY)
    (stepOf rayDirX) (stepOf rayDirY) (ddaStart p i).

(** [perpWallDist] as assigned after the loop. *)
Definition perpWallDistOf (p : Player) (i : nat) (s : Dda) : R :=
  if hitFlag s then
    if (side s =? 0)%Z
    then sideDistX s - deltaDist (cos (rayAngle p i))
    else sideDistY s - deltaDist (sin (rayAngle p i))
  else maxRenderDist.

(** A rectangle handed to [drawImage]/[fillRect]: left, top, width, height. *)
Record Rect : Type := mkRect {
  rectX : R;
  rectY : R;
  rectW : R;
  rectH : R
}.

Definition rectBottom (r : Rect) : R := rectY r + rectH r.

(** [d || 0.0001] *)
Definition orEpsilon (d : R) : R := if Req_dec_T d 0 then 0.0001 else d.

Definition horizon (cv : Canvas) : Z := Zfloor (IZR (screenHeight cv) / 2).

(** The slice geometry.  The source declares [wallHeight], [startY] and
    [endY] twice in the loop body, under the headings BEFORE and AFTER of
    the floating-wall patch; the AFTER declarations are the ones modelled,
    being those the patch installs. *)
Definition wallHeight (cv : Canvas) (perpWallDist : R) : R :=
  projectionPlane cv / orEpsilon perpWallDist.
Definition startY (cv : Canvas) (perpWallDist : R) : R :=
  Rmax 0 (IZR (horizon cv) - wallHeight cv perpWallDist).
Definition endY (cv : Canvas) : R := IZR (horizon cv).

(** What one iteration of the ray loop produces when its two drawing
    statements run: the z-buffer entry and the rectangles of the two
    statements.  The pattern and the flat-colour alternative of a statement
    fill the same rectangle, which is what is recorded.  The texture
    alternative of the first statement does not draw: see [castColumns]. *)
Record Column : Type := mkColumn {
  depth : R;
  hitSide : Z;
  patchSlice : Rect;
  textureSlice : Rect
}.

Definition columnOf (cv : Canvas) (p : Player) (i : nat) (s : Dda) : Column :=
  let d := perpWallDistOf p i s in
  mkColumn d (side s)
    (mkRect (INR i * stripWidth cv) (startY cv d) (stripWidth cv)
            (endY cv - startY cv d))
    (mkRect (INR i * stripWidth cv) (startY cv d) (stripWidth cv)
            (wallHeight cv d)).

(** The march of ray [i] and the column it yields. *)
Definition castRay (fuel : nat) (cv : Canvas) (p : Player) (i : nat)
  : option Column :=
  match marchRay fuel p i with
  | None => None
  | Some s => Some (columnOf cv p i s)
  end.

(** How [castRays] is left.  [Returned cols]: by [return zBuffer], every
    column drawn.  [TexXError cols d]: by the [ReferenceError] of reading
    [texX] in the texture alternative of the first drawing statement, where
    that name is not in scope (it is declared inside the block of the
    second statement only); [cols] are the columns drawn before, [d] the
    z-buffer entry assigned in the iteration that threw. *)
Inductive CastResult : Type :=
| Returned (cols : list Column)
| TexXError (cols : list Column) (d : R).

(** The [for] loop over ray indices.  [bambooComplete] is
    [bambooImg.complete]: once the image has finished loading, the first
    drawing statement takes its texture alternative, which throws before
    anything is drawn. *)
Fixpoint castColumns (fuel : nat) (cv : Canvas) (bambooComplete : bool)
  (p : Player) (idxs : list nat) : option CastResult :=
  match idxs with
  | [] => Some (Returned [])
  | i :: rest =>
      match castRay fuel cv p i with
      | None => None
      | Some c =>
          if bambooComplete then Some (TexXError [] (depth c))
          else
            match castColumns fuel cv bambooComplete p rest with
            | None => None
            | Some (Returned cs) => Some (Returned (c :: cs))
            | Some (TexXError cs d) => Some (TexXError (c :: cs) d)
            end
      end
  end.

(** [castRays()]: [None] when a marching loop was not left within [fuel]
    iterations; the returned [zBuffer] is [zBufferOf] of the columns. *)
Definition castRays (fuel : nat) (cv : Canvas) (bambooComplete : bool)
  (p : Player) : option CastResult :=
  castColumns fuel cv bambooComplete p (seq 0 numRays).

Definition zBufferOf (cols : list Column) : list R := List.map depth cols.

(** ** Floor caster *)

(** Pixel data of the sand texture once its image has loaded. *)
Record Texture : Type := mkTexture {
  texWidth : Z;
  texHeight : Z;
  texData : Z -> Z
}.

(** A pixel of the floor image: [None] is a pixel the loop skipped. *)
Definition Pixel : Type := option (Z * Z * Z).

(** [x % 1] of JavaScript: the remainder has the sign of [x]. *)
Definition jsMod1 (x : R) : R :=
  if Rle_dec 0 x then x - IZR (Zfloor x) else x + IZR (Zfloor (- x)).

Definition shadeChannel (c : Z) (shade : R) : Z :=
  Z.max 0 (Z.min 255 (Zfloor (IZR c * shade))).

(** The occlusion test of one floor pixel. *)
Definition floorVisible (cv : Canvas) (p : Player) (zBufSq : list R)
  (x : Z) (wx wy : R) : bool :=
  let col := Zfloor (IZR x / stripWidth cv) in
  if (0 <=? col)%Z && (col <? Z.of_nat (length zBufSq))%Z then
    let dx := wx - px p in
    let dy := wy - py p in
    let distSq := dx * dx + dy * dy in
    match lookupZ zBufSq col with
    | Some z => negb (Rltb z distSq)
    | None => true
    end
  else true.

Definition floorColour (sandData : option Texture) (wx wy shade : R) : Pixel :=
  let '(r, g, b) :=
    match sandData with
    | Some t =>
        let tx := jsMod1 (jsMod1 wx + 1) in
        let ty := jsMod1 (jsMod1 wy + 1) in
        let tpx := Zfloor (tx * IZR (texWidth t)) in
        let tpy := Zfloor (ty * IZR (texHeight t)) in
        let idx := ((tpy * texWidth t + tpx) * 4)%Z in
        (texData t idx, texData t (idx + 1)%Z, texData t (idx + 2)%Z)
    | None => (230, 220, 180)%Z
    end in
  Some (shadeChannel r shade, shadeChannel g shade, shadeChannel b shade).

(** The inner loop over the [n] remaining pixels of a scanline, starting at
    column [x] with the accumulated world coordinates. *)
Fixpoint floorRow (n : nat) (cv : Canvas) (p : Player) (zBufSq : list R)
  (sandData : option Texture) (shade stepX stepY : R)
  (x : Z) (floorX floorY : R) : list Pixel :=
  match n with
  | O => []
  | S k =>
      (if floorVisible cv p zBufSq x floorX floorY
       then floorColour sandData floorX floorY shade
       else None)
      :: floorRow k cv p zBufSq sandData shade stepX stepY
           (x + 1)%Z (floorX + stepX) (floorY + stepY)
  end.

(** [p]: the offset of scanline [yRow] from the middle of the view.  It
    is [yRow + 0.5] for an even view height, and [yRow] for an odd one:
    zero on row 0 of an odd view height. *)
Definition rowOffset (cv : Canvas) (yRow : Z) : R :=
  let screenY := IZR (horizon cv) + IZR yRow + 0.5 in
  screenY - IZR (screenHeight cv) / 2.

(** [rowDistance] of a scanline whose offset is not zero.  With offset zero
    the division yields an infinity, which [R] does not have: that scanline
    is [horizonRow] below. *)
Definition rowDistance (cv : Canvas) (yRow : Z) : R :=
  let screenY := IZR (horizon cv) + IZR yRow + 0.5 in
  let pr := screenY - IZR (screenHeight cv) / 2 in
  (IZR (screenHeight cv) / 2) / pr.

(** World coordinates of the leftmost pixel of scanline [yRow]
    ([floorX], [floorY] before the inner loop). *)
Definition scanStart (cv : Canvas) (p : Player) (yRow : Z) : R * R :=
  let leftDirX := cos (pangle p - FOV / 2) in
  let leftDirY := sin (pangle p - FOV / 2) in
  let rd := rowDistance cv yRow in
  (px p + rd * leftDirX, py p + rd * leftDirY).

(** The world-space step per screen pixel ([stepX], [stepY]). *)
Definition scanStep (cv : Canvas) (p : Player) (yRow : Z) : R * R :=
  let leftDirX := cos (pangle p - FOV / 2) in
  let leftDirY := sin (pangle p - FOV / 2) in
  let rightDirX := cos (pangle p + FOV / 2) in
  let rightDirY := sin (pangle p + FOV / 2) in
  let rd := rowDistance cv yRow in
  (rd * (rightDirX - leftDirX) / IZR (width cv),
   rd * (rightDirY - leftDirY) / IZR (width cv)).

(** *** The scanline at infinite row distance *)

(** The values the world coordinates take on the scanline whose offset is
    zero, where [rowDistance] is an infinity. *)
Inductive NonFinite : Type := PlusInfinity | MinusInfinity | NotANumber.

(** [rowDistance * d] for an infinite [rowDistance] of the given sign; a
    finite number added to it and a division by the positive canvas width
    leave it as it is. *)
Definition infinityTimes (positive : bool) (d : R) : NonFinite :=
  if Req_dec_T d 0 then NotANumber
  else if Rlt_dec 0 d
       then (if positive then PlusInfinity else MinusInfinity)
       else (if positive then MinusInfinity else PlusInfinity).

(** [a + b] *)
Definition addNonFinite (a b : NonFinite) : NonFinite :=
  match a, b with
  | PlusInfinity, PlusInfinity => PlusInfinity
  | MinusInfinity, MinusInfinity => MinusInfinity
  | _, _ => NotANumber
  end.

Definition isNaN (a : NonFinite) : bool :=
  match a with NotANumber => true | _ => false end.

(** The occlusion test there: [distSq] is [Infinity], which exceeds every
    entry, unless a coordinate is [NaN], which exceeds none. *)
Definition floorVisibleAtInfinity (cv : Canvas) (zBufSq : list R)
  (x : Z) (wx wy : NonFinite) : bool :=
  let col := Zfloor (IZR x / stripWidth cv) in
  if (0 <=? col)%Z && (col <? Z.of_nat (length zBufSq))%Z then
    match lookupZ zBufSq col with
    | Some _ => isNaN wx || isNaN wy
    | None => true
    end
  else true.

(** The inner loop there.  The shade is 0 and the texture index is [NaN]:
    with either colour source the three channels written are 0. *)
Fixpoint horizonRow (n : nat) (cv : Canvas) (zBufSq : list R)
  (stepX stepY : NonFinite) (x : Z) (floorX floorY : NonFinite)
  : list Pixel :=
  match n with
  | O => []
  | S k =>
      (if floorVisibleAtInfinity cv zBufSq x floorX floorY
       then Some (0, 0, 0)%Z
       else None)
      :: horizonRow k cv zBufSq stepX stepY (x + 1)%Z
           (addNonFinite floorX stepX) (addNonFinite floorY stepY)
  end.

(** One iteration of the loop over [yRow]. *)
Definition floorScanline (cv : Canvas) (p : Player) (zBufSq : list R)
  (sandData : option Texture) (yRow : Z) : list Pixel :=
  if Req_dec_T (rowOffset cv yRow) 0 then
    let positive := (0 <? screenHeight cv)%Z in
    let leftDirX := cos (pangle p - FOV / 2) in
    let leftDirY := sin (pangle p - FOV / 2) in
    let rightDirX := cos (pangle p + FOV / 2) in
    let rightDirY := sin (pangle p + FOV / 2) in
    horizonRow (Z.to_nat (width cv)) cv zBufSq
      (infinityTimes positive (rightDirX - leftDirX))
      (infinityTimes positive (rightDirY - leftDirY))
      0%Z (infinityTimes positive leftDirX) (infinityTimes positive leftDirY)
  else
    let rd := rowDistance cv yRow in
    let shade := Rmin 1 (1 / (rd * 0.04)) in
    floorRow (Z.to_nat (width cv)) cv p zBufSq sandData shade
      (fst (scanStep cv p yRow)) (snd (scanStep cv p yRow))
      0%Z (fst (scanStart cv p yRow)) (snd (scanStart cv p yRow)).

(** [drawFloorPerspective(zBuffer)]: the rows of the image put on the canvas
    at the horizon. *)
Definition drawFloorPerspective (cv : Canvas) (p : Player)
  (sandData : option Texture) (zBuffer : list R) : list (list Pixel) :=
  let floorHeight := (screenHeight cv - horizon cv)%Z in
  let zBufSq := List.map (fun d => d * d) zBuffer in
  List.map (fun yRow => floorScanline cv p zBufSq sandData (Z.of_nat yRow))
    (seq 0 (Z.to_nat floorHeight)).

(** ** The frame loop *)

(** The globals an enemy's contact damage writes. *)
Record Vitals : Type := mkVitals {
  vHealth : R;
  vArmor : R;
  vFlash : R;
  vGameOver : bool;
  vOverlay : Overlay
}.

Definition vitalsOf (g : Game) : Vitals :=
  mkVitals (health g) (armor g) (damageFlash g) (gameOver g) (overlay g).

Definition withVitals (v : Vitals) (g : Game) : Game :=
  setGameOver (vGameOver v) (vOverlay v)
    (setVitals (vHealth v) (vArmor v) (vFlash v) g).

(** Contact damage of one enemy standing within reach of the player. *)
Definition contactDamage (dt : R) (v : Vitals) : Vitals :=
  let dmg := 10 * dt in
  let armorHit := Rmin (vArmor v) (dmg * 0.6) in
  let armor1 := vArmor v - armorHit in
  let dmg1 := dmg - armorHit in
  let health1 := if Rltb 0 dmg1 then vHealth v - dmg1 else vHealth v in
  let flash1 := if Rltb 0 dmg1 then 1 else vFlash v in
  if Rleb health1 0
  then mkVitals health1 armor1 flash1 true OverlayGameOver
  else mkVitals health1 armor1 flash1 (vGameOver v) (vOverlay v).

Definition withPosition (x y : R) (e : Enemy) : Enemy :=
  mkEnemy x y (ehealth e) (alive e) (dying e) (deathTimer e) (scale e).

(** The body of the loop over [enemies] in [gameLoop], for one enemy. *)
Definition updateEnemy (dt : R) (p : Player) (e : Enemy) (v : Vitals)
  : Completion (Enemy * Vitals) :=
  if dying e then
    let t := deathTimer e - dt in
    let sc := Rmax 0 (t / 0.6) in
    if Rleb t 0
    then Normal (mkEnemy (ex e) (ey e) (ehealth e) false false t sc, v)
    else Normal (mkEnemy (ex e) (ey e) (ehealth e) (alive e) (dying e) t sc, v)
  else if negb (alive e) then Normal (e, v)
  else
    let vx0 := px p - ex e in
    let vy0 := py p - ey e in
    let dist := sqrt (vx0 * vx0 + vy0 * vy0) in
    let vx := if Rltb 0.001 dist then vx0 / dist else vx0 in
    let vy := if Rltb 0.001 dist then vy0 / dist else vy0 in
    let speed := 1.0 in
    let stepX := vx * speed * dt in
    let stepY := vy * speed * dt in
    match mapAt (Zfloor (ey e)) (Zfloor (ex e + stepX)) with
    | Throws => Abrupt (e, v)
    | cx =>
        let x1 := if isZero cx then ex e + stepX else ex e in
        match mapAt (Zfloor (ey e + stepY)) (Zfloor (ex e)) with
        | Throws => Abrupt (withPosition x1 (ey e) e, v)
        | cy =>
            let y1 := if isZero cy then ey e + stepY else ey e in
            let dx := x1 - px p in
            let dy := y1 - py p in
            let pdist := sqrt (dx * dx + dy * dy) in
            Normal (withPosition x1 y1 e,
                    if Rltb pdist 0.5 then contactDamage dt v else v)
        end
    end.

(** [for (const enemy of enemies) { ... }] *)
Fixpoint updateEnemies (dt : R) (p : Player) (es : list Enemy) (v : Vitals)
  : Completion (list Enemy * Vitals) :=
  match es with
  | [] => Normal ([], v)
  | e :: rest =>
      match updateEnemy dt p e v with
      | Abrupt (e', v') => Abrupt (e' :: rest, v')
      | Normal (e', v') =>
          match updateEnemies dt p rest v' with
          | Abrupt (rest', v'') => Abrupt (e' :: rest', v'')
          | Normal (rest', v'') => Normal (e' :: rest', v'')
          end
      end
  end.

(** A timer counted down to zero: [if (t > 0) { t -= d; if (t < 0) t = 0; }] *)
Definition countDown (t d : R) : R :=
  if Rltb 0 t then (if Rltb (t - d) 0 then 0 else t - d) else t.

(** [spawnEnemy], with [Math.random()] read from the sequence [rnd] at
    position [cur]; the result carries the position reached. *)
Definition minEnemyDist : R := 1.5.

Definition tooCloseTo (x y : R) (e : Enemy) : bool :=
  let ddx := x - ex e in
  let ddy := y - ey e in
  Rltb (sqrt (ddx * ddx + ddy * ddy)) minEnemyDist.

Fixpoint spawnLoop (attempts : nat) (rnd : nat -> R) (cur : nat)
  (p : Player) (es : list Enemy) : Completion (list Enemy * nat) :=
  match attempts with
  | O => Normal (es, cur)
  | S k =>
      let x := 1 + rnd cur * (IZR mapWidth - 2) in
      let y := 1 + rnd (S cur) * (IZR mapHeight - 2) in
      match mapAt (Zfloor y) (Zfloor x) with
      | Throws => Abrupt (es, S (S cur))
      | c =>
          if isZero c then
            let dx := x - px p in
            let dy := y - py p in
            if Rltb 4 (sqrt (dx * dx + dy * dy)) then
              if existsb (tooCloseTo x y) es
              then spawnLoop k rnd (S (S cur)) p es
              else Normal (es ++ [newEnemy x y], S (S cur))
            else spawnLoop k rnd (S (S cur)) p es
          else spawnLoop k rnd (S (S cur)) p es
      end
  end.

Definition spawnEnemy (rnd : nat -> R) (cur : nat) (p : Player)
  (es : list Enemy) : Completion (list Enemy * nat) :=
  spawnLoop 300 rnd cur p es.

(** What a frame puts on the canvas, as far as the renderer is modelled:
    the floor image and the wall columns. *)
Record Frame : Type := mkFrame {
  frameFloor : list (list Pixel);
  frameWalls : list Column
}.

(** The drawing calls shared by the menu branch and the playing branch:
    [drawFloorPerspective([])] and then [castRays()].  When [castRays]
    throws, the canvas holds the floor and the columns drawn so far. *)
Definition renderScene (fuel : nat) (cv : Canvas) (bambooComplete : bool)
  (sandData : option Texture) (p : Player) : option (Completion Frame) :=
  let floorImage := drawFloorPerspective cv p sandData [] in
  match castRays fuel cv bambooComplete p with
  | None => None
  | Some (Returned cols) => Some (Normal (mkFrame floorImage cols))
  | Some (TexXError cols _) => Some (Abrupt (mkFrame floorImage cols))
  end.

Definition aliveCount (es : list Enemy) : nat :=
  length (filter alive es).

(** The tail of the playing branch of [gameLoop], after the drawing calls:
    maintenance spawning and the win test. *)
Definition spawnAndWin (rnd : nat -> R) (g : Game) : Completion Game :=
  let spawned :=
    if (aliveCount (enemies g) <? ACTIVE_ENEMY_COUNT)%nat
       && (kills g <? TARGET_KILLS)%Z
    then spawnEnemy rnd 0 (player g) (enemies g)
    else Normal (enemies g, O) in
  match spawned with
  | Abrupt (es, _) => Abrupt (setEnemies es g)
  | Normal (es, _) =>
      let g1 := setEnemies es g in
      if (TARGET_KILLS <=? kills g1)%Z
      then Normal (setGameOver true OverlayWin g1)
      else Normal g1
  end.

(** The simulation steps of the playing branch that precede the drawing
    calls. *)
Definition simulate (dt : R) (g : Game) : Completion Game :=
  match updatePlayer dt (player g) with
  | Abrupt p => Abrupt (setPlayer p g)
  | Normal p =>
      let g1 := setPlayer p g in
      match updateEnemies dt p (enemies g1) (vitalsOf g1) with
      | Abrupt (es, v) => Abrupt (withVitals v (setEnemies es g1))
      | Normal (es, v) =>
          let g2 := withVitals v (setEnemies es g1) in
          Normal (setFlashTimers (countDown (muzzleTimer g2) dt)
                    (countDown (bulletTimer g2) dt)
                    (countDown (damageFlash g2) (dt * 4)) g2)
      end
  end.

(** [gameLoop(now)] with [dt] the elapsed time in seconds.  The result is
    [None] when the wall caster did not leave one of its loops within
    [fuel] iterations; otherwise the state after the call (left normally or
    by an exception) and the frame drawn, when both drawing calls have
    returned: an exception thrown by [castRays] leaves the call with the
    canvas half drawn, before the spawning and the win test.  Sky, sprites,
    particles, HUD and audio are outside the model. *)
Definition gameLoop (fuel : nat) (cv : Canvas) (bambooComplete : bool)
  (sandData : option Texture) (rnd : nat -> R) (dt : R) (g : Game)
  : option (Completion Game * option Frame) :=
  match gameState g with
  | menu =>
      match renderScene fuel cv bambooComplete sandData (player g) with
      | None => None
      | Some (Normal f) => Some (Normal g, Some f)
      | Some (Abrupt _) => Some (Abrupt g, None)
      end
  | playing =>
      if gameOver g then Some (Normal g, None)
      else
        match simulate dt g with
        | Abrupt g1 => Some (Abrupt g1, None)
        | Normal g1 =>
            match renderScene fuel cv bambooComplete sandData (player g1) with
            | None => None
            | Some (Normal f) => Some (spawnAndWin rnd g1, Some f)
            | Some (Abrupt _) => Some (Abrupt g1, None)
            end
        end
  end.

(** ** Key release, session start and the remaining spawner *)

(** The [keyup] listener: it clears movement intents whatever the state of
    the game. *)
Definition keyup (key : Key) (g : Game) : Game :=
  match key with
  | KeyW => setIntent (withForward false) g
  | KeyS => setIntent (withBackward false) g
  | KeyA => setIntent (withTurnLeft false) g
  | KeyD => setIntent (withTurnRight false) g
  | KeyQ => setIntent (withStrafeLeft false) g
  | KeyE => setIntent (withStrafeRight false) g
  | _ => g
  end.

(** [Math.random()] as a sequence of numbers of the interval [0, 1). *)
Record Random : Type := mkRandom {
  draw :> nat -> R;
  draw_range : forall n, 0 <= draw n < 1
}.

Definition totalDecor : nat := 80.
Definition minDecorSeparation : R := 1.0.
Definition decorSprites : list Sprite :=
  [decorTreeImg; decorRockImg; decorBushImg].

(** [decorSprites[Math.floor(r * decorSprites.length)]]: for [r] in [0, 1)
    the index is 0, 1 or 2 and the default of [nth] is not used. *)
Definition pickSprite (r : R) : Sprite :=
  nth (Z.to_nat (Zfloor (r * INR (length decorSprites)))) decorSprites
      decorTreeImg.

Definition decorTooClose (x y : R) (d : Decoration) : bool :=
  let ddx := x - decx d in
  let ddy := y - decy d in
  Rltb (sqrt (ddx * ddx + ddy * ddy)) minDecorSeparation.

(** The loop of [spawnDecorations]: [attemptsLeft] is 1000 minus
    [attempts], [placed] the number of decorations pushed so far. *)
Fixpoint decorLoop (attemptsLeft placed : nat) (rnd : Random) (cur : nat)
  (p : Player) (decs : list Decoration)
  : Completion (list Decoration * nat) :=
  match attemptsLeft with
  | O => Normal (decs, cur)
  | S k =>
      if (placed <? totalDecor)%nat then
        let x := 1 + rnd cur * (IZR mapWidth - 2) in
        let y := 1 + rnd (S cur) * (IZR mapHeight - 2) in
        match mapAt (Zfloor y) (Zfloor x) with
        | Throws => Abrupt (decs, S (S cur))
        | c =>
            if isZero c then
              let dx := x - px p in
              let dy := y - py p in
              if Rltb 5 (sqrt (dx * dx + dy * dy)) then
                if existsb (decorTooClose x y) decs
                then decorLoop k placed rnd (S (S cur)) p decs
                else decorLoop k (S placed) rnd (S (S (S cur))) p
                       (decs ++ [mkDecoration x y
                                   (pickSprite (rnd (S (S cur))))])
              else decorLoop k placed rnd (S (S cur)) p decs
            else decorLoop k placed rnd (S (S cur)) p decs
        end
      else Normal (decs, cur)
  end.

(** [spawnDecorations()], on the emptied [decorations] array. *)
Definition spawnDecorations (rnd : Random) (cur : nat) (p : Player)
  : Completion (list Decoration * nat) :=
  decorLoop 1000 0 rnd cur p [].

(** [for (let i = 0; i < n; i++) spawnEnemy();] *)
Fixpoint spawnEnemies (n : nat) (rnd : nat -> R) (cur : nat) (p : Player)
  (es : list Enemy) : Completion (list Enemy * nat) :=
  match n with
  | O => Normal (es, cur)
  | S k =>
      match spawnEnemy rnd cur p es with
      | Abrupt r => Abrupt r
      | Normal (es', cur') => spawnEnemies k rnd cur' p es'
      end
  end.

(** [startGame()].  The weapons and the three flash timers are not among
    the variables it resets. *)
Definition startGame (rnd : Random) (g : Game) : Completion Game :=
  let fresh (es : list Enemy) (decs : list Decoration) (st : GameState)
            (ov : Overlay) :=
    mkGame initialPlayer es decs (weaponShotgun g) (weaponLaser g) shotgun
      false None false 0 100 100 (muzzleTimer g) (bulletTimer g)
      (damageFlash g) st ov in
  match spawnDecorations rnd 0 initialPlayer with
  | Abrupt (decs, _) => Abrupt (fresh [] decs (gameState g) (overlay g))
  | Normal (decs, cur) =>
      match spawnEnemies ACTIVE_ENEMY_COUNT rnd cur initialPlayer [] with
      | Abrupt (es, _) => Abrupt (fresh es decs (gameState g) (overlay g))
      | Normal (es, _) => Normal (fresh es decs playing OverlayHidden)
      end
  end.

(** The [keydown] listener for Enter: it starts a session from the menu
    and has no case in the dispatch of the running game. *)
Definition pressEnter (rnd : Random) (g : Game) : Completion Game :=
  match gameState g with
  | menu => startGame rnd g
  | playing => Normal g
  end.

(** The values the module-level variables are initialised with. *)
Definition initialGame : Game :=
  mkGame initialPlayer [] [] (initialWeapon shotgun) (initialWeapon laser)
    shotgun false None false 0 100 50 0 0 0 menu OverlayHidden.

(** ** Billboards *)

(** A sprite handed to [drawImage]: its rectangle and the [globalAlpha] in
    force. *)
Record SpriteDraw : Type := mkSpriteDraw {
  spriteRect : Rect;
  spriteAlpha : R
}.

(** [enemies.filter(e => e.alive || e.dying)] *)
Definition visibleEnemies (es : list Enemy) : list Enemy :=
  filter (fun e => alive e || dying e) es.

(** What the body of the loop of [drawEnemies] does for one enemy.
    [NoCall]: the enemy is skipped or hidden behind a wall.  [Draw sd]:
    [drawImage] is called with a finite rectangle.  [DrawNonFinite]: it is
    called with the rectangle of an enemy at distance 0, whose [sizeBase]
    is [projectionPlane / 0], not a finite number. *)
Inductive SpriteCall : Type :=
| NoCall
| Draw (sd : SpriteDraw)
| DrawNonFinite.

(** The body of the loop of [drawEnemies] for one enemy.  [sizeBase] is
    [None] where the source divides by zero. *)
Definition enemySprite (cv : Canvas) (zBuffer : list R) (p : Player)
  (e : Enemy) : SpriteCall :=
  let dist := enemyDist p e in
  let angle := enemyAngle p e in
  if Rltb (FOV / 2) (Rabs angle) then NoCall
  else
    let screenX := (angle + FOV / 2) / FOV * IZR (width cv) in
    let sizeBase :=
      if Req_dec_T (dist * cos angle) 0 then None
      else Some (projectionPlane cv / (dist * cos angle)) in
    let sc := if dying e && Rltb 0 (deathTimer e) then scale e else 1 in
    let rayIndex := Zfloor (screenX / stripWidth cv) in
    if (0 <=? rayIndex)%Z && (rayIndex <? Z.of_nat (length zBuffer))%Z then
      match lookupZ zBuffer rayIndex with
      | Some z =>
          if Rltb dist z
          then
            match sizeBase with
            | Some size =>
                let spriteHeight := size * 2 * sc in
                let spriteWidth := size * sc in
                let top := IZR (screenHeight cv) / 2 - spriteHeight / 2 in
                let left := screenX - spriteWidth / 2 in
                Draw (mkSpriteDraw
                        (mkRect left top spriteWidth spriteHeight)
                        (if dying e then deathTimer e / 0.6 else 1))
            | None => DrawNonFinite
            end
          else NoCall
      | None => NoCall
      end
    else NoCall.

Definition decorDist (p : Player) (d : Decoration) : R :=
  let dx := decx d - px p in
  let dy := decy d - py p in
  sqrt (dx * dx + dy * dy).

Definition decorAngle (p : Player) (d : Decoration) : R :=
  let dx := decx d - px p in
  let dy := decy d - py p in
  wrapAngle (atan2 dy dx - pangle p).

(** [decor.sprite === decorTreeImg || decor.sprite === decorMoaiImg]; the
    moai image is not among [decorSprites]. *)
Definition isTallDecor (d : Decoration) : bool :=
  match sprite d with
  | decorTreeImg => true
  | _ => false
  end.

(** The body of the loop of [drawDecorations] for one decoration, at a
    distance that is not zero: [baseSize] divides by [dist * cos angle],
    and for a decoration at distance 0 the source's quotient is not a
    finite number. *)
Definition decorSprite (cv : Canvas) (zBuffer : list R) (p : Player)
  (d : Decoration) : option Rect :=
  let dist := decorDist p d in
  let angle := decorAngle p d in
  if Rltb (FOV / 2) (Rabs angle) then None
  else
    let screenX := (angle + FOV / 2) / FOV * IZR (width cv) in
    let baseSize := projectionPlane cv / (dist * cos angle) in
    let spriteWidth := baseSize in
    let spriteHeight := if isTallDecor d then baseSize * 2 else baseSize in
    let bottomFactor := if isTallDecor d then 0.5 else 0.95 in
    let groundY := IZR (screenHeight cv) / 2 in
    let top := groundY - spriteHeight * (1 - bottomFactor) in
    let left := screenX - spriteWidth / 2 in
    let rayIndex := Zfloor (screenX / stripWidth cv) in
    if (0 <=? rayIndex)%Z && (rayIndex <? Z.of_nat (length zBuffer))%Z then
      match lookupZ zBuffer rayIndex with
      | Some z =>
          if Rltb dist z
          then Some (mkRect left top spriteWidth spriteHeight)
          else None
      | None => None
      end
    else None.

(** ** Screen effects *)

(** The opacity of the tracer drawn by [drawBullet], of the red overlay of
    [drawDamageFlash], and of the sprite of a dying enemy. *)
Definition bulletAlpha (g : Game) : R := bulletTimer g / 0.1.
Definition damageOverlayAlpha (g : Game) : R := 0.4 * damageFlash g.

(** ** Concrete states used to exercise the model *)

(** A session in progress: the player at the spawn pose and one enemy two
    cells straight ahead. *)
Definition duelGame : Game :=
  mkGame initialPlayer [newEnemy 4.5 2.5] []
    (initialWeapon shotgun) (initialWeapon laser) shotgun
    false None false 0 100 100 0 0 0 playing OverlayHidden.

(** The same session with nobody in the line of fire. *)
Definition emptyRangeGame : Game :=
  mkGame initialPlayer [newEnemy 2.5 9.5] []
    (initialWeapon shotgun) (initialWeapon laser) shotgun
    false None false 0 100 100 0 0 0 playing OverlayHidden.

(** A rifle with three rounds left in the magazine and five in reserve. *)
Definition lowAmmoGame : Game :=
  mkGame initialPlayer [] []
    (mkWeapon 3 (Finite 5)) (initialWeapon laser) shotgun
    false None false 0 100 100 0 0 0 playing OverlayHidden.

(** An empty rifle magazine with unlimited reserve. *)
Definition dryGame : Game :=
  mkGame initialPlayer [newEnemy 4.5 2.5] []
    (mkWeapon 0 Infinity) (initialWeapon laser) shotgun
    false None false 0 100 100 0 0 0 playing OverlayHidden.

(** ** Vocabulary of the statements *)

(** An enemy the hit-scan may pick: flagged alive and within the angular
    threshold of the facing direction. *)
Definition inSight (p : Player) (e : Enemy) : Prop :=
  alive e = true /\ Rabs (enemyAngle p e) < threshold.

(** [target] is the position in [all] of a nearest enemy in sight, or
    nothing when no enemy is in sight. *)
Definition chosen (p : Player) (all : list Enemy) (target : option nat)
  : Prop :=
  match target with
  | None => forall e, In e all -> ~ inSight p e
  | Some t =>
      exists e, nth_error all t = Some e /\ inSight p e /\
        forall e', In e' all -> inSight p e' ->
                   enemyDist p e <= enemyDist p e'
  end.

(** The loop invariant of the target selection over the enemies already
    visited. *)
Definition bestSoFar (p : Player) (pre : list Enemy) (target : option nat)
  (minDist : option R) : Prop :=
  match target, minDist with
  | None, None => forall e, In e pre -> ~ inSight p e
  | Some t, Some d =>
      exists e, nth_error pre t = Some e /\ inSight p e /\
        d = enemyDist p e /\
        forall e', In e' pre -> inSight p e' -> d <= enemyDist p e'
  | _, _ => False
  end.

(** The magazine a completed reload leaves, in the words of the
    specification: [min(capacity, magazine + reserve)]. *)
Definition refilledMagazine (k : WeaponKey) (w : Weapon) : Z :=
  match totalAmmo w with
  | Finite n => Z.min (ammoCapacity k) (magazine w + n)
  | Infinity => ammoCapacity k
  end.

(** A run of key presses, oldest first. *)
Definition pressKeys (keys : list Key) (g : Game) : Game :=
  fold_left (fun s key => keydown key s) keys g.

(** The player pressed against the west face of the wall block at column 5,
    moving forward and strafing right while facing along the x axis. *)
Definition cornerPlayer : Player :=
  mkPlayer 4.9 4.5 0 true false false false false true.

(** The angular offset of ray [i] from the facing direction. *)
Definition rayOffset (p : Player) (i : nat) : R := rayAngle p i - pangle p.

(** Cells the marching loop may still visit along an axis before it leaves
    a grid of [size] cells, when it moves by [step] from cell [m]. *)
Definition room (size step m : Z) : Z :=
  if (step =? 1)%Z then (size - m)%Z else (m + 1)%Z.

(** How the marching loop of a ray ended. *)
Definition endsOnWall (s : Dda) : Prop :=
  outOfBounds (mapX s) (mapY s) = false /\
  isWall (mapAt (mapY s) (mapX s)) = true.

Definition endsOutside (s : Dda) : Prop :=
  outOfBounds (mapX s) (mapY s) = true.

(** A canvas of 640 by 480 pixels, of which the 3D view takes the upper
    400 rows. *)
Definition sampleCanvas : Canvas := mkCanvas 640 480.

(** The spawn position with the facing turned by half the field of view,
    so that the leftmost ray runs along the x axis. *)
Definition skewedPlayer : Player :=
  mkPlayer 2.5 2.5 (FOV / 2) false false false false false false.

(** Half a cell in front of the wall block at column 5, facing it. *)
Definition closePlayer : Player :=
  mkPlayer 4.5 2.5 0 false false false false false false.

(** Every cell of the outer ring of the grid is a wall: a cell inside the
    grid that is not a wall lies in rows and columns 1 to 14. *)
Definition borderCheck : bool :=
  forallb (fun r =>
    forallb (fun c =>
      isWall (mapAt (Z.of_nat r) (Z.of_nat c))
      || ((1 <=? r) && (r <=? 14) && (1 <=? c) && (c <=? 14))%nat)
      (seq 0 16))
    (seq 0 16).

(** The value a coordinate accumulator holds after [n] additions of
    [step]. *)
Fixpoint accumulate (n : nat) (start step : R) : R :=
  match n with
  | O => start
  | S k => accumulate k (start + step) step
  end.

(** World coordinates the floor caster computes for the pixel in column [n]
    of scanline [yRow]. *)
Definition floorPoint (cv : Canvas) (p : Player) (yRow : Z) (n : nat)
  : R * R :=
  (accumulate n (fst (scanStart cv p yRow)) (fst (scanStep cv p yRow)),
   accumulate n (snd (scanStart cv p yRow)) (snd (scanStep cv p yRow))).

(** Squared distance from the player to that point ([distSq]). *)
Definition floorDistSq (cv : Canvas) (p : Player) (yRow : Z) (n : nat) : R :=
  let dx := fst (floorPoint cv p yRow n) - px p in
  let dy := snd (floorPoint cv p yRow n) - py p in
  dx * dx + dy * dy.

(** A random source that always answers 0. *)
Definition zeroRandom : nat -> R := fun _ => 0.

(** The pose [updatePlayer] leaves when no key is held at the spawn pose:
    both coordinates have had a zero displacement added. *)
Definition idlePose : Player :=
  mkPlayer (2.5 + 0) (2.5 + 0) 0 false false false false false false.

(** ** Vocabulary of the further properties *)

(** The grid line a ray of direction component [rayDir] crosses next when
    it is in cell [cell] of that axis. *)
Definition faceOf (rayDir : R) (cell : Z) : R :=
  if Rlt_dec rayDir 0 then IZR cell else IZR cell + 1.

(** The grid line through which such a ray has entered cell [cell]. *)
Definition entryFace (rayDir : R) (cell : Z) : R :=
  if Rlt_dec rayDir 0 then IZR cell + 1 else IZR cell.

(** What the marching loop maintains for a ray from [(pX, pY)] with
    direction [(dX, dY)]: each side distance is the ray length up to the next
    grid line of its axis, and neither axis is more than one crossing
    behind the other. *)
Record RayInv (pX pY dX dY : R) (s : Dda) : Prop := mkRayInv {
  inv_x : sideDistX s
          = (faceOf dX (mapX s) - pX) * IZR (stepOf dX) * deltaDist dX;
  inv_y : sideDistY s
          = (faceOf dY (mapY s) - pY) * IZR (stepOf dY) * deltaDist dY;
  inv_x_pos : 0 <= sideDistX s;
  inv_y_pos : 0 <= sideDistY s;
  inv_x_back : sideDistX s - deltaDist dX <= sideDistY s;
  inv_y_back : sideDistY s - deltaDist dY <= sideDistX s
}.

(** The point at ray length [d] on ray [i]. *)
Definition rayPointX (p : Player) (i : nat) (d : R) : R :=
  px p + d * cos (rayAngle p i).
Definition rayPointY (p : Player) (i : nat) (d : R) : R :=
  py p + d * sin (rayAngle p i).

(** What a shot may do to an enemy object: lower its health, nothing else
    that matters to the simulation of its position and of its [alive]
    flag; an enemy whose flag is cleared is left as it is. *)
Definition hitRel (e e' : Enemy) : Prop :=
  ex e' = ex e /\ ey e' = ey e /\ alive e' = alive e /\
  (ehealth e' <= ehealth e)%Z /\
  (alive e = false -> e' = e).

(** Magazines within their capacity and reserves that are not negative. *)
Definition weaponOk (k : WeaponKey) (w : Weapon) : Prop :=
  (0 <= magazine w <= ammoCapacity k)%Z /\
  match totalAmmo w with
  | Finite n => (0 <= n)%Z
  | Infinity => True
  end.

Definition ammoOk (g : Game) : Prop :=
  weaponOk shotgun (weaponShotgun g) /\ weaponOk laser (weaponLaser g).

(** The reloading flag is raised exactly while a timeout is pending. *)
Definition reloadConsistent (g : Game) : Prop :=
  (reloading g = true /\ exists k, reloadTimer g = Some k) \/
  (reloading g = false /\ reloadTimer g = None).

(** The flash timers within the values they are set to. *)
Definition flashTimersOk (g : Game) : Prop :=
  0 <= muzzleTimer g <= 0.15 /\
  0 <= bulletTimer g <= 0.1 /\
  0 <= damageFlash g <= 1.

(** The events that reach the script: key presses and releases, Enter, a
    click on the canvas, the expiry of the reload timeout, and an animation
    frame after a time [dt] that is not negative, with the texture image
    complete or not. *)
Inductive step : Game -> Game -> Prop :=
| step_keydown (key : Key) (g : Game) : step g (keydown key g)
| step_keyup (key : Key) (g : Game) : step g (keyup key g)
| step_enter (rnd : Random) (g : Game) : step g (stateOf (pressEnter rnd g))
| step_click (g : Game) : step g (shootWeapon g)
| step_timer (g : Game) : step g (reloadTimerFires g)
| step_frame (fuel : nat) (cv : Canvas) (bambooComplete : bool)
    (sandData : option Texture) (rnd : nat -> R) (dt : R) (g : Game)
    (c : Completion Game) (f : option Frame) :
    0 <= dt ->
    gameLoop fuel cv bambooComplete sandData rnd dt g = Some (c, f) ->
    step g (stateOf c).

(** Any number of events in a row. *)
Inductive steps : Game -> Game -> Prop :=
| steps_refl (g : Game) : steps g g
| steps_next (g g1 g2 : Game) : steps g g1 -> step g1 g2 -> steps g g2.

(** What a frame may do to an enemy object: it never raises its [alive]
    flag and never changes its health. *)
Definition agedRel (e e' : Enemy) : Prop :=
  (alive e' = true -> alive e = true) /\ ehealth e' = ehealth e.

(** The player's vitals as the simulation keeps them: armour that is not
    negative, a flash value between 0 and 1, and the game flagged over as
    soon as the health is used up. *)
Definition vitalsOk (v : Vitals) : Prop :=
  0 <= vArmor v /\ 0 <= vFlash v <= 1 /\
  (vHealth v <= 0 -> vGameOver v = true).

(** Damage only ever lowers health and armour, and never revokes the end
    of the game. *)
Definition vitalsWorse (v v' : Vitals) : Prop :=
  vHealth v' <= vHealth v /\ vArmor v' <= vArmor v /\
  (vGameOver v = true -> vGameOver v' = true).

(** A spot the enemy spawner accepts: an empty cell, more than 4 away from
    the player and no closer than [minEnemyDist] to any enemy of the
    array. *)
Definition spawnSpot (p : Player) (es : list Enemy) (x y : R) : Prop :=
  emptyCell (Zfloor x) (Zfloor y) /\
  4 < sqrt ((x - px p) * (x - px p) + (y - py p) * (y - py p)) /\
  forall e, In e es ->
    minEnemyDist <= sqrt ((x - ex e) * (x - ex e) + (y - ey e) * (y - ey e)).

(** A spot the decoration spawner accepts. *)
Definition decorSpot (p : Player) (decs : list Decoration) (x y : R) : Prop :=
  emptyCell (Zfloor x) (Zfloor y) /\
  5 < sqrt ((x - px p) * (x - px p) + (y - py p) * (y - py p)) /\
  forall d, In d decs ->
    minDecorSeparation
    <= sqrt ((x - decx d) * (x - decx d) + (y - decy d) * (y - decy d)).

(** Decorations placed one after the other, each on a spot accepted with
    respect to those placed before it. *)
Inductive wellPlaced (p : Player) : list Decoration -> Prop :=
| wellPlaced_nil : wellPlaced p []
| wellPlaced_snoc (decs : list Decoration) (d : Decoration) :
    wellPlaced p decs ->
    decorSpot p decs (decx d) (decy d) ->
    In (sprite d) decorSprites ->
    wellPlaced p (decs ++ [d]).

(** Enemies spawned one after the other, each fresh and on a spot accepted
    with respect to those spawned before it. *)
Inductive freshlySpawned (p : Player) : list Enemy -> Prop :=
| freshlySpawned_nil : freshlySpawned p []
| freshlySpawned_snoc (es : list Enemy) (x y : R) :
    freshlySpawned p es ->
    spawnSpot p es x y ->
    freshlySpawned p (es ++ [newEnemy x y]).



(** A pose the player may have: in an empty cell of the grid, with the
    facing angle normalised. *)
Definition poseOk (p : Player) : Prop :=
  emptyCell (Zfloor (px p)) (Zfloor (py p)) /\ - PI <= pangle p <= PI.

(** The input along one movement axis: +1, 0 or -1 from the two keys of
    the axis. *)
Definition axisInput (plus minus : bool) : R :=
  (if plus then 1 else 0) - (if minus then 1 else 0).

(** The game is flagged over only for a reason: the health is used up or
    the kill target is reached. *)
Definition endedForReason (g : Game) : Prop :=
  gameOver g = true -> health g <= 0 \/ (TARGET_KILLS <= kills g)%Z.

(** A session that has been lost. *)
Definition lostGame : Game :=
  mkGame initialPlayer [newEnemy 2.6 2.5] []
    (initialWeapon shotgun) (initialWeapon laser) shotgun
    false None true 3 0 0 0 0 0 playing OverlayGameOver.

(** An enemy object displaced by at most [d]. *)
Definition movedWithin (d : R) (e e' : Enemy) : Prop :=
  (ex e' - ex e) * (ex e' - ex e) + (ey e' - ey e) * (ey e' - ey e) <= d * d.

(** A depth buffer of a view with a wall at depth 5 in every column. *)
Definition openView : list R := repeat 5 numRays.

(** A tree straight ahead of the spawn pose. *)
Definition treeAhead : Decoration := mkDecoration 4.5 2.5 decorTreeImg.

(** A weapon that holds no more rounds than before: an unlimited reserve
    stays unlimited, and with a finite reserve the rounds in the magazine
    and in the reserve together have not increased. *)
Definition neverMore (w w' : Weapon) : Prop :=
  match totalAmmo w with
  | Infinity => totalAmmo w' = Infinity
  | Finite n =>
      exists n', totalAmmo w' = Finite n' /\
                 (magazine w' + n' <= magazine w + n)%Z
  end.

(** The duel with the kill target just reached. *)
Definition targetReachedGame : Game := setKills TARGET_KILLS duelGame.

(** Two textures of 2 x 2 pixels that agree on their pixel data and differ
    outside it. *)
Definition sandTile : Texture := mkTexture 2 2 (fun _ => 200%Z).
Definition sandTilePadded : Texture :=
  mkTexture 2 2 (fun i => if ((0 <=? i) && (i <? 16))%Z then 200%Z else 0%Z).

(** * Properties *)

(** ** Angle normalisation *)

Lemma PI_pos : 0 < PI.
Proof. exact PI_RGT_0. Qed.

Lemma wrapUp_fixed (n : nat) (a : R) : - PI <= a -> wrapUp n a = a.
Proof.
  intros Ha. destruct n as [|k]; simpl; [reflexivity|].
  destruct (Rlt_dec a (- PI)); [lra | reflexivity].
Qed.

Lemma wrapDown_fixed (n : nat) (a : R) : a <= PI -> wrapDown n a = a.
Proof.
  intros Ha. destruct n as [|k]; simpl; [reflexivity|].
  destruct (Rlt_dec PI a); [lra | reflexivity].
Qed.

Lemma wrapAngle_fixed (a : R) : - PI <= a <= PI -> wrapAngle a = a.
Proof.
  intros [Hlo Hhi]. unfold wrapAngle.
  rewrite (wrapUp_fixed _ _ Hlo). apply wrapDown_fixed. exact Hhi.
Qed.

(** The iteration counts given to the two loops are enough for them to
    leave through their test. *)
Lemma fuel_covers (x : R) : x < INR (Z.to_nat (up x)).
Proof.
  destruct (archimed x) as [Hup _].
  destruct (Z_lt_le_dec (up x) 0) as [Hneg | Hpos].
  - assert (Hz : Z.to_nat (up x) = O) by lia.
    rewrite Hz. simpl. apply IZR_lt in Hneg. lra.
  - rewrite INR_IZR_INZ, Z2Nat.id by exact Hpos. lra.
Qed.

Lemma wrapUp_leaves (n : nat) :
  forall a, (- PI - a) / (2 * PI) < INR n -> - PI <= wrapUp n a.
Proof.
  pose proof PI_pos as Hpi.
  induction n as [|k IH]; intros a Hn.
  - simpl in *.
    assert (Hq : - PI - a < 0).
    { apply Rmult_lt_reg_r with (r := / (2 * PI)).
      - apply Rinv_0_lt_compat. lra.
      - rewrite Rmult_0_l. exact Hn. }
    lra.
  - simpl wrapUp. destruct (Rlt_dec a (- PI)) as [Hlt | Hge]; [|lra].
    apply IH. rewrite S_INR in Hn.
    replace ((- PI - (a + 2 * PI)) / (2 * PI))
      with ((- PI - a) / (2 * PI) - 1) by (field; lra).
    lra.
Qed.

Lemma wrapDown_leaves (n : nat) :
  forall a, (a - PI) / (2 * PI) < INR n -> wrapDown n a <= PI.
Proof.
  pose proof PI_pos as Hpi.
  induction n as [|k IH]; intros a Hn.
  - simpl in *.
    assert (Hq : a - PI < 0).
    { apply Rmult_lt_reg_r with (r := / (2 * PI)).
      - apply Rinv_0_lt_compat. lra.
      - rewrite Rmult_0_l. exact Hn. }
    lra.
  - simpl wrapDown. destruct (Rlt_dec PI a) as [Hlt | Hge]; [|lra].
    apply IH. rewrite S_INR in Hn.
    replace ((a - 2 * PI - PI) / (2 * PI))
      with ((a - PI) / (2 * PI) - 1) by (field; lra).
    lra.
Qed.

Lemma wrapDown_lower (n : nat) : forall a, - PI <= a -> - PI <= wrapDown n a.
Proof.
  pose proof PI_pos as Hpi.
  induction n as [|k IH]; intros a Ha; simpl; [exact Ha|].
  destruct (Rlt_dec PI a); [apply IH; lra | exact Ha].
Qed.

Lemma wrapAngle_range (a : R) : - PI <= wrapAngle a <= PI.
Proof.
  unfold wrapAngle. split.
  - apply wrapDown_lower. apply wrapUp_leaves. apply fuel_covers.
  - apply wrapDown_leaves. apply fuel_covers.
Qed.

Lemma Rltb_true (a b : R) : a < b -> Rltb a b = true.
Proof. intros H. unfold Rltb. destruct (Rlt_dec a b); [reflexivity | lra]. Qed.

Lemma Rltb_false (a b : R) : b <= a -> Rltb a b = false.
Proof. intros H. unfold Rltb. destruct (Rlt_dec a b); [lra | reflexivity]. Qed.

Lemma Rltb_spec (a b : R) : Rltb a b = true <-> a < b.
Proof.
  unfold Rltb. destruct (Rlt_dec a b); split; intros; try assumption;
    try reflexivity; try discriminate; contradiction.
Qed.

(** ** Weapons and combat *)

Lemma ammoCapacity_pos (k : WeaponKey) : (0 < ammoCapacity k)%Z.
Proof. destruct k; simpl; lia. Qed.

Lemma ammoExhausted_positive (a : Ammo) :
  ammoExhausted a = negb (ammoPositive a).
Proof.
  destruct a as [n|]; simpl; [|reflexivity].
  destruct (Z.leb_spec n 0), (Z.ltb_spec 0 n); simpl; try reflexivity; lia.
Qed.

(** A reload request either changes nothing or only arms the timer. *)
Lemma reloadWeapon_cases (g : Game) :
  reloadWeapon g = g \/
  (reloading g = false /\
   reloadWeapon g = setReload true (Some (selectedWeapon g)) g).
Proof.
  unfold reloadWeapon. destruct (reloading g); [left; reflexivity|].
  match goal with |- context [if ?c then _ else _] => destruct c end;
    [left; reflexivity | right; split; reflexivity].
Qed.

Lemma reloadWeapon_frame (g : Game) :
  player (reloadWeapon g) = player g /\
  enemies (reloadWeapon g) = enemies g /\
  decorations (reloadWeapon g) = decorations g /\
  weaponShotgun (reloadWeapon g) = weaponShotgun g /\
  weaponLaser (reloadWeapon g) = weaponLaser g /\
  selectedWeapon (reloadWeapon g) = selectedWeapon g /\
  kills (reloadWeapon g) = kills g /\
  gameOver (reloadWeapon g) = gameOver g.
Proof.
  destruct (reloadWeapon_cases g) as [-> | [_ ->]]; repeat split; reflexivity.
Qed.

Lemma hitAt_length (dmg : Z) :
  forall es i k, length (fst (hitAt i dmg es k)) = length es.
Proof.
  induction es as [|e rest IH]; intros i k; [destruct i; reflexivity|].
  destruct i as [|j]; simpl.
  - destruct (hit dmg e k); reflexivity.
  - specialize (IH j k). destruct (hitAt j dmg rest k); simpl in *.
    now rewrite IH.
Qed.

Lemma hitAt_elsewhere (dmg : Z) :
  forall es i k j, j <> i ->
    nth_error (fst (hitAt i dmg es k)) j = nth_error es j.
Proof.
  induction es as [|e rest IH]; intros i k j Hj; [destruct i; reflexivity|].
  destruct i as [|i']; simpl.
  - destruct (hit dmg e k). destruct j as [|j']; [congruence | reflexivity].
  - specialize (IH i' k). destruct (hitAt i' dmg rest k) as [rest' k'].
    simpl in *. destruct j as [|j']; [reflexivity|].
    apply IH. congruence.
Qed.

Lemma hitAt_there (dmg : Z) :
  forall es i k e, nth_error es i = Some e ->
    nth_error (fst (hitAt i dmg es k)) i = Some (fst (hit dmg e k)) /\
    snd (hitAt i dmg es k) = snd (hit dmg e k).
Proof.
  induction es as [|e0 rest IH]; intros i k e He; [destruct i; discriminate|].
  destruct i as [|i']; simpl in *.
  - inversion He; subst. destruct (hit dmg e k); split; reflexivity.
  - specialize (IH i' k e He). destruct (hitAt i' dmg rest k). exact IH.
Qed.

(** The selection loop of [shootWeapon] returns a nearest enemy in sight. *)
Lemma findTarget_chooses (p : Player) :
  forall es pre target minDist,
    bestSoFar p pre target minDist ->
    chosen p (pre ++ es) (findTarget p es (length pre) target minDist).
Proof.
  induction es as [|e rest IH]; intros pre target minDist Hinv.
  - simpl. rewrite app_nil_r.
    destruct target as [t|], minDist as [d|]; simpl in *; try contradiction.
    + destruct Hinv as (e & Ht & Hs & Hd & Hmin). subst d.
      exists e. repeat split; try assumption; apply Hs.
    + exact Hinv.
  - simpl findTarget.
    replace (pre ++ e :: rest) with ((pre ++ [e]) ++ rest)
      by (rewrite <- app_assoc; reflexivity).
    replace (S (length pre)) with (length (pre ++ [e]))
      by (rewrite length_app; simpl; lia).
    destruct (alive e) eqn:Halive; simpl negb; cbv iota.
    + destruct (Rltb (Rabs (enemyAngle p e)) threshold) eqn:Hang; simpl andb.
      * destruct (belowMin (enemyDist p e) minDist) eqn:Hbelow.
        -- apply IH. simpl. exists e.
           assert (Hsight : inSight p e)
             by (split; [exact Halive | apply Rltb_spec; exact Hang]).
           repeat split; try apply Hsight.
           ++ rewrite nth_error_app2 by lia.
              rewrite Nat.sub_diag. reflexivity.
           ++ intros e' Hin Hs'. apply in_app_or in Hin.
              destruct Hin as [Hin | [-> | []]]; [|lra].
              destruct target as [t|], minDist as [d|]; simpl in *;
                try contradiction.
              ** destruct Hinv as (e0 & _ & _ & _ & Hmin).
                 apply Rltb_spec in Hbelow. specialize (Hmin e' Hin Hs'). lra.
              ** exfalso. exact (Hinv e' Hin Hs').
        -- apply IH.
           destruct target as [t|], minDist as [d|]; simpl in *;
             try contradiction; try discriminate.
           destruct Hinv as (e0 & Ht & Hs & Hd & Hmin).
           exists e0. repeat split; try assumption; try apply Hs.
           ++ rewrite nth_error_app1; [exact Ht|].
              apply nth_error_Some. congruence.
           ++ intros e' Hin Hs'. apply in_app_or in Hin.
              destruct Hin as [Hin | [<- | []]]; [apply Hmin; assumption|].
              unfold Rltb in Hbelow.
              destruct (Rlt_dec (enemyDist p e) d); [discriminate | lra].
      * apply IH.
        assert (Hnot : ~ inSight p e).
        { intros [_ Hlt]. apply Rltb_spec in Hlt. congruence. }
        destruct target as [t|], minDist as [d|]; simpl in *;
          try contradiction.
        -- destruct Hinv as (e0 & Ht & Hs & Hd & Hmin).
           exists e0. repeat split; try assumption; try apply Hs.
           ++ rewrite nth_error_app1; [exact Ht|].
              apply nth_error_Some. congruence.
           ++ intros e' Hin Hs'. apply in_app_or in Hin.
              destruct Hin as [Hin | [<- | []]]; [apply Hmin; assumption|].
              contradiction.
        -- intros e' Hin. apply in_app_or in Hin.
           destruct Hin as [Hin | [<- | []]]; [apply Hinv; exact Hin|].
           exact Hnot.
    + apply IH.
      assert (Hnot : ~ inSight p e) by (intros [Ha _]; congruence).
      destruct target as [t|], minDist as [d|]; simpl in *; try contradiction.
      * destruct Hinv as (e0 & Ht & Hs & Hd & Hmin).
        exists e0. repeat split; try assumption; try apply Hs.
        -- rewrite nth_error_app1; [exact Ht|].
           apply nth_error_Some. congruence.
        -- intros e' Hin Hs'. apply in_app_or in Hin.
           destruct Hin as [Hin | [<- | []]]; [apply Hmin; assumption|].
           contradiction.
      * intros e' Hin. apply in_app_or in Hin.
        destruct Hin as [Hin | [<- | []]]; [apply Hinv; exact Hin|].
        exact Hnot.
Qed.

Lemma findTarget_chosen (p : Player) (es : list Enemy) :
  chosen p es (findTarget p es 0 None None).
Proof.
  apply (findTarget_chooses p es [] None None). simpl. intros e [].
Qed.

(** The shape of a shot that is actually fired. *)
Lemma shootWeapon_fired (g : Game) :
  gameOver g = false -> reloading g = false ->
  (0 < magazine (weapon g (selectedWeapon g)))%Z ->
  let k := selectedWeapon g in
  let w1 := mkWeapon (magazine (weapon g k) - 1)%Z (totalAmmo (weapon g k)) in
  let g1 := setWeapon k w1 g in
  let g2 :=
    match findTarget (player g) (enemies g) 0 None None with
    | Some t =>
        setKills (snd (hitAt t (damage k) (enemies g) (kills g)))
          (setEnemies (fst (hitAt t (damage k) (enemies g) (kills g))) g1)
    | None => g1
    end in
  let g3 := setMuzzleBullet 0.15 0.1 g2 in
  shootWeapon g = g3 \/ shootWeapon g = reloadWeapon g3.
Proof.
  intros Hover Hrel Hmag. unfold shootWeapon.
  rewrite Hover, Hrel. simpl orb. cbv iota.
  apply Z.leb_gt in Hmag. rewrite Hmag. cbv zeta.
  replace (player (setWeapon (selectedWeapon g)
             {| magazine := magazine (weapon g (selectedWeapon g)) - 1;
                totalAmmo := totalAmmo (weapon g (selectedWeapon g)) |} g))
    with (player g) by reflexivity.
  replace (enemies (setWeapon (selectedWeapon g)
             {| magazine := magazine (weapon g (selectedWeapon g)) - 1;
                totalAmmo := totalAmmo (weapon g (selectedWeapon g)) |} g))
    with (enemies g) by reflexivity.
  replace (kills (setWeapon (selectedWeapon g)
             {| magazine := magazine (weapon g (selectedWeapon g)) - 1;
                totalAmmo := totalAmmo (weapon g (selectedWeapon g)) |} g))
    with (kills g) by reflexivity.
  destruct (findTarget (player g) (enemies g) 0 None None) as [t|].
  - destruct (hitAt t (damage (selectedWeapon g)) (enemies g) (kills g))
      as [es n]. simpl fst; simpl snd.
    match goal with |- context [if ?c then _ else _] => destruct c end;
      [right | left]; reflexivity.
  - match goal with |- context [if ?c then _ else _] => destruct c end;
      [right | left]; reflexivity.
Qed.

(** C7 (empty-magazine fire).  When the game is running, no reload is in
    progress, the selected weapon's magazine is at 0 and its reserve is
    positive, [shootWeapon] does nothing but start a reload: the reloading
    flag is raised and the timer armed for the selected weapon, while the
    enemies, the kill counter and both weapons (hence the magazine, still
    0) are left as they were.  The function has no exceptional exit. *)
Theorem shoot_empty_magazine_starts_reload (g : Game) :
  gameOver g = false ->
  reloading g = false ->
  magazine (weapon g (selectedWeapon g)) = 0%Z ->
  ammoPositive (totalAmmo (weapon g (selectedWeapon g))) = true ->
  shootWeapon g = setReload true (Some (selectedWeapon g)) g /\
  reloading (shootWeapon g) = true /\
  reloadTimer (shootWeapon g) = Some (selectedWeapon g) /\
  enemies (shootWeapon g) = enemies g /\
  kills (shootWeapon g) = kills g /\
  weaponShotgun (shootWeapon g) = weaponShotgun g /\
  weaponLaser (shootWeapon g) = weaponLaser g /\
  magazine (weapon (shootWeapon g) (selectedWeapon (shootWeapon g))) = 0%Z.
Proof.
  intros Hover Hrel Hmag Hres.
  assert (Hshoot : shootWeapon g = setReload true (Some (selectedWeapon g)) g).
  { unfold shootWeapon. rewrite Hover, Hrel. simpl orb. cbv iota.
    rewrite Hmag. simpl Z.leb. cbv iota. rewrite Hres.
    unfold reloadWeapon. rewrite Hrel, Hmag.
    rewrite ammoExhausted_positive, Hres.
    pose proof (ammoCapacity_pos (selectedWeapon g)) as Hcap.
    apply Z.leb_gt in Hcap. rewrite Hcap. reflexivity. }
  rewrite Hshoot. repeat split; try reflexivity.
  simpl. exact Hmag.
Qed.

Lemma shoot_empty_magazine_witness :
  reloading (shootWeapon dryGame) = true /\
  enemies (shootWeapon dryGame) = enemies dryGame /\
  magazine (weapon (shootWeapon dryGame) shotgun) = 0%Z.
Proof.
  destruct (shoot_empty_magazine_starts_reload dryGame
              eq_refl eq_refl eq_refl eq_refl)
    as (_ & Hr & _ & He & _ & Hs & _).
  split; [exact Hr | split; [exact He |]].
  change (magazine (weaponShotgun (shootWeapon dryGame)) = 0%Z).
  rewrite Hs. reflexivity.
Defined.

(** C10 (a shot's ammunition and frame).  When the game is running, no
    reload is in progress and the selected magazine is positive,
    [shootWeapon] lowers that magazine by exactly one whether or not an
    enemy is in sight, and there is at most one position [target] of the
    enemy array whose object is touched: every other enemy is unchanged,
    and the target is a nearest enemy among those flagged alive within the
    angular threshold (nothing, when there is none).  The player, the
    decorations, the weapon that is not selected, the selection itself and
    the reserve are unchanged; the map is a constant of the model. *)
Theorem shoot_consumes_one_round_and_hits_at_most_one (g : Game) :
  gameOver g = false ->
  reloading g = false ->
  (0 < magazine (weapon g (selectedWeapon g)))%Z ->
  let k := selectedWeapon g in
  let g' := shootWeapon g in
  magazine (weapon g' k) = (magazine (weapon g k) - 1)%Z /\
  totalAmmo (weapon g' k) = totalAmmo (weapon g k) /\
  weapon g' (otherWeapon k) = weapon g (otherWeapon k) /\
  selectedWeapon g' = k /\
  player g' = player g /\
  decorations g' = decorations g /\
  length (enemies g') = length (enemies g) /\
  exists target : option nat,
    chosen (player g) (enemies g) target /\
    (forall j, Some j <> target ->
               nth_error (enemies g') j = nth_error (enemies g) j).
Proof.
  intros Hover Hrel Hmag k g'.
  pose proof (shootWeapon_fired g Hover Hrel Hmag) as Hshape.
  cbv zeta in Hshape. fold k in Hshape.
  set (g3 := setMuzzleBullet 0.15 0.1 _) in Hshape.
  assert (Hfields :
    weaponShotgun g' = weaponShotgun g3 /\ weaponLaser g' = weaponLaser g3 /\
    selectedWeapon g' = selectedWeapon g3 /\ player g' = player g3 /\
    decorations g' = decorations g3 /\ enemies g' = enemies g3).
  { subst g'. destruct Hshape as [-> | ->].
    - repeat split; reflexivity.
    - destruct (reloadWeapon_frame g3) as (Hp & He & Hd & Hs & Hl & Hk & _).
      repeat split; assumption. }
  destruct Hfields as (Hs & Hl & Hsel & Hp & Hd & He).
  assert (Hw : forall key, weapon g' key = weapon g3 key).
  { intros key. destruct key; simpl; assumption. }
  pose proof (findTarget_chosen (player g) (enemies g)) as Hchosen.
  rewrite !Hw, Hsel, Hp, Hd, He. subst g3.
  destruct (findTarget (player g) (enemies g) 0 None None) as [t|] eqn:Hft.
  - repeat split.
    + destruct k; reflexivity.
    + destruct k; reflexivity.
    + destruct k; reflexivity.
    + simpl. apply hitAt_length.
    + exists (Some t). split; [exact Hchosen|].
      intros j Hj. simpl. apply hitAt_elsewhere. congruence.
  - repeat split.
    + destruct k; reflexivity.
    + destruct k; reflexivity.
    + destruct k; reflexivity.
    + exists None. split; [exact Hchosen|]. intros j _. reflexivity.
Qed.

Lemma shoot_miss_witness :
  magazine (weapon (shootWeapon emptyRangeGame) shotgun) = 7%Z /\
  player (shootWeapon emptyRangeGame) = player emptyRangeGame.
Proof.
  destruct (shoot_consumes_one_round_and_hits_at_most_one emptyRangeGame
              eq_refl eq_refl eq_refl)
    as (Hm & _ & _ & _ & Hp & _).
  split; [exact Hm | exact Hp].
Defined.

(** While a reload is in progress no key press touches a weapon, the
    reloading flag or the pending timer. *)
Lemma keydown_while_reloading (key : Key) (g : Game) :
  reloading g = true ->
  weaponShotgun (keydown key g) = weaponShotgun g /\
  weaponLaser (keydown key g) = weaponLaser g /\
  reloading (keydown key g) = true /\
  reloadTimer (keydown key g) = reloadTimer g.
Proof.
  intros Hrel. unfold keydown.
  destruct (gameState g); [repeat split; assumption|].
  destruct (gameOver g) eqn:Hover; [repeat split; assumption|].
  destruct key; simpl; try (repeat split; assumption).
  - unfold reloadWeapon. rewrite Hrel. repeat split; assumption.
  - unfold shootWeapon. rewrite Hover, Hrel. simpl.
    repeat split; assumption.
Qed.

Lemma pressKeys_while_reloading (keys : list Key) :
  forall g, reloading g = true ->
    weaponShotgun (pressKeys keys g) = weaponShotgun g /\
    weaponLaser (pressKeys keys g) = weaponLaser g /\
    reloading (pressKeys keys g) = true /\
    reloadTimer (pressKeys keys g) = reloadTimer g.
Proof.
  induction keys as [|key rest IH]; intros g Hrel; simpl.
  - repeat split; try reflexivity. exact Hrel.
  - destruct (keydown_while_reloading key g Hrel) as (Hs & Hl & Hr & Ht).
    destruct (IH (keydown key g) Hr) as (Hs' & Hl' & Hr' & Ht').
    unfold pressKeys in *.
    rewrite Hs', Hl', Hr', Ht', Hs, Hl, Ht. repeat split; reflexivity.
Qed.

Lemma refill_amount (k : WeaponKey) (w : Weapon) :
  (magazine w + ammoMin (ammoCapacity k - magazine w) (totalAmmo w))%Z
  = refilledMagazine k w.
Proof.
  unfold refilledMagazine. destruct (totalAmmo w) as [n|]; simpl; lia.
Qed.

(** C6 (reload no-op and idempotence).  A reload request made while a
    reload is in progress, while the selected magazine is full or while the
    reserve is empty returns the state it was given, and a second request is
    always absorbed by the first.  When a request does start a reload, any
    run of key presses before the timer expires (further reload requests,
    weapon switches, fire attempts among them) leaves both weapons, the
    reloading flag and the pending timer alone; when the timer then expires
    the magazine becomes min(capacity, magazine + reserve), the reserve
    loses exactly the rounds loaded, the other weapon is untouched, and no
    timer is left that could refill a second time. *)
Theorem reload_is_noop_or_applied_once (g : Game) (keys : list Key) :
  let k := selectedWeapon g in
  let w := weapon g k in
  (reloading g = true \/ (ammoCapacity k <= magazine w)%Z \/
   ammoExhausted (totalAmmo w) = true -> reloadWeapon g = g) /\
  reloadWeapon (reloadWeapon g) = reloadWeapon g /\
  (reloading g = false ->
   (magazine w < ammoCapacity k)%Z ->
   ammoExhausted (totalAmmo w) = false ->
   let requested := pressKeys keys (reloadWeapon g) in
   let done := reloadTimerFires requested in
   weapon requested k = w /\
   weapon requested (otherWeapon k) = weapon g (otherWeapon k) /\
   reloading requested = true /\
   reloadTimer requested = Some k /\
   magazine (weapon done k) = refilledMagazine k w /\
   totalAmmo (weapon done k)
     = ammoSub (totalAmmo w) (refilledMagazine k w - magazine w) /\
   weapon done (otherWeapon k) = weapon g (otherWeapon k) /\
   reloading done = false /\
   reloadTimer done = None /\
   reloadTimerFires done = done).
Proof.
  intros k w. split; [|split].
  - intros Hcase. unfold reloadWeapon. fold k. fold w.
    destruct (reloading g); [reflexivity|].
    destruct Hcase as [Hr | [Hfull | Hdry]]; [discriminate | |].
    + apply Z.leb_le in Hfull. rewrite Hfull. reflexivity.
    + rewrite Hdry, orb_true_r. reflexivity.
  - destruct (reloadWeapon_cases g) as [Hsame | [_ Harmed]].
    + rewrite Hsame. exact Hsame.
    + rewrite Harmed. reflexivity.
  - intros Hrel Hroom Hres requested done.
    assert (Harmed : reloadWeapon g = setReload true (Some k) g).
    { unfold reloadWeapon. fold k. fold w. rewrite Hrel, Hres.
      apply Z.leb_gt in Hroom. rewrite Hroom. reflexivity. }
    destruct (pressKeys_while_reloading keys (reloadWeapon g))
      as (Hs & Hl & Hr & Ht); [rewrite Harmed; reflexivity|].
    fold requested in Hs, Hl, Hr, Ht.
    rewrite Harmed in Hs, Hl, Ht. simpl in Hs, Hl, Ht.
    assert (Hw : forall key, weapon requested key = weapon g key).
    { intros key. destruct key; simpl; assumption. }
    assert (Hdone : done = setReload false None
              (setWeapon k
                 (mkWeapon (refilledMagazine k w)
                    (ammoSub (totalAmmo w)
                       (refilledMagazine k w - magazine w))) requested)).
    { unfold done, reloadTimerFires. rewrite Ht, Hw. fold w.
      rewrite refill_amount.
      replace (ammoMin (ammoCapacity k - magazine w) (totalAmmo w))
        with (refilledMagazine k w - magazine w)%Z
        by (rewrite <- (refill_amount k w); lia).
      reflexivity. }
    rewrite Hdone.
    repeat split; try reflexivity; try assumption.
    + apply Hw.
    + apply Hw.
    + destruct k; reflexivity.
    + destruct k; reflexivity.
    + destruct k; simpl; assumption.
Qed.

Lemma reload_twice_witness :
  let done :=
    reloadTimerFires
      (pressKeys [KeyR; Digit2; KeyR] (reloadWeapon lowAmmoGame)) in
  magazine (weapon done shotgun) = 8%Z /\
  totalAmmo (weapon done shotgun) = Finite 0 /\
  weapon done laser = initialWeapon laser /\
  reloading done = false.
Proof.
  destruct (reload_is_noop_or_applied_once lowAmmoGame [KeyR; Digit2; KeyR])
    as (_ & _ & Hmain).
  destruct (Hmain eq_refl eq_refl eq_refl)
    as (_ & _ & _ & _ & Hm & Ht & Ho & Hr & _).
  cbv zeta. split; [exact Hm | split; [exact Ht | split; [exact Ho | exact Hr]]].
Defined.

(** ** The kill counter *)

(** An enemy straight ahead of a player facing along the x axis has
    relative angle 0. *)
Lemma enemyAngle_straight_ahead (p : Player) (e : Enemy) :
  pangle p = 0 -> ey e = py p -> px p < ex e -> enemyAngle p e = 0.
Proof.
  intros Ha Hy Hx. unfold enemyAngle. cbv zeta.
  rewrite Ha, Hy. unfold atan2.
  destruct (Rlt_dec 0 (ex e - px p)) as [_ | Hn]; [|lra].
  replace ((py p - py p) / (ex e - px p)) with 0 by (field; lra).
  rewrite atan_0. replace (0 - 0) with 0 by lra.
  apply wrapAngle_fixed. pose proof PI_pos. lra.
Qed.

Lemma threshold_pos : 0 < threshold.
Proof. unfold threshold, FOV. pose proof PI_pos. lra. Qed.

(** A lone enemy straight ahead is picked as long as its [alive] flag is
    set, whatever its health and its [dying] flag. *)
Lemma findTarget_ahead (p : Player) (e : Enemy) :
  pangle p = 0 -> ey e = py p -> px p < ex e -> alive e = true ->
  findTarget p [e] 0 None None = Some O.
Proof.
  intros Ha Hy Hx Halive. simpl findTarget. rewrite Halive. simpl negb.
  cbv iota.
  rewrite (enemyAngle_straight_ahead p e Ha Hy Hx).
  rewrite Rabs_R0, (Rltb_true _ _ threshold_pos). reflexivity.
Qed.

(** A hit on an enemy that is already dying, its [alive] flag not yet
    cleared by the frame loop, counts a kill again. *)
Lemma hit_counts_dying_enemy_again (dmg : Z) (e : Enemy) (k : Z) :
  alive e = true -> (ehealth e <= 0)%Z -> (0 <= dmg)%Z ->
  snd (hit dmg e k) = (k + 1)%Z /\ alive (fst (hit dmg e k)) = true.
Proof.
  intros Ha Hh Hd. unfold hit. rewrite Ha. simpl negb. cbv iota zeta.
  assert (Hle : (ehealth e - dmg <=? 0)%Z = true) by (apply Z.leb_le; lia).
  rewrite Hle. split; reflexivity.
Qed.

(** A single hit never adds more than one kill. *)
Lemma hit_kills_step (dmg : Z) (e : Enemy) (k : Z) :
  snd (hit dmg e k) = k \/ snd (hit dmg e k) = (k + 1)%Z.
Proof.
  unfold hit. destruct (negb (alive e)); [left; reflexivity|].
  cbv zeta. destruct (ehealth e - dmg <=? 0)%Z;
    [right | left]; reflexivity.
Qed.


(** ** Player movement *)

Lemma isZero_spec (l : Lookup) : isZero l = true <-> l = Value 0%Z.
Proof.
  destruct l as [| |v]; simpl; split; intros H; try discriminate.
  - apply Z.eqb_eq in H. now subst.
  - inversion H. reflexivity.
Qed.

Lemma isZero_emptyCell (cx cy : Z) :
  isZero (mapAt cy cx) = true <-> emptyCell cx cy.
Proof. apply isZero_spec. Qed.

(** A row that can be read at one column can be read at any column without
    an exception. *)
Lemma mapAt_row_exists (r c c' : Z) (v : Z) :
  mapAt r c = Value v -> mapAt r c' <> Throws.
Proof.
  unfold mapAt. destruct (lookupZ map r) as [row|]; [|discriminate].
  intros _. destruct (lookupZ row c'); discriminate.
Qed.

Lemma moveVector_eta (dt : R) (p : Player) :
  moveVector dt p = (fst (moveVector dt p), snd (moveVector dt p)).
Proof. destruct (moveVector dt p); reflexivity. Qed.

(** The pose [updatePlayer] leaves behind, in terms of the two cell tests. *)
Lemma updatePlayer_pose (dt : R) (p : Player) :
  emptyCell (Zfloor (px p)) (Zfloor (py p)) ->
  let newX := px p + fst (moveVector dt p) in
  let newY := py p + snd (moveVector dt p) in
  let q := stateOf (updatePlayer dt p) in
  px q = (if isZero (mapAt (Zfloor (py p)) (Zfloor newX))
          then newX else px p) /\
  py q = (if isZero (mapAt (Zfloor newY) (Zfloor (px q)))
          then newY else py p).
Proof.
  intros Hcell newX newY. unfold updatePlayer.
  rewrite (moveVector_eta dt p). fold newX. fold newY.
  pose proof (mapAt_row_exists _ _ (Zfloor newX) _ Hcell) as Hrow.
  destruct (mapAt (Zfloor (py p)) (Zfloor newX)) as [| |v] eqn:Hx;
    [contradiction | |].
  - simpl isZero. cbv iota.
    destruct (mapAt (Zfloor newY) (Zfloor (px p))) as [| |w] eqn:Hy;
      simpl; rewrite ?Hy; simpl; split; reflexivity.
  - simpl isZero.
    destruct (v =? 0)%Z.
    + destruct (mapAt (Zfloor newY) (Zfloor newX)) as [| |w] eqn:Hy;
        simpl; rewrite ?Hy; simpl; split; reflexivity.
    + destruct (mapAt (Zfloor newY) (Zfloor (px p))) as [| |w] eqn:Hy;
        simpl; rewrite ?Hy; simpl; split; reflexivity.
Qed.

(** C5 (axis-separated player collision).  For a player standing in an
    empty cell and any frame time, [updatePlayer] applies the x-displacement
    exactly when the cell at (floor newX, floor y) is empty, and then the
    y-displacement exactly when the cell at (floor x, floor newY) is empty,
    x being the coordinate the player has at that test; the cell occupied
    afterwards is again an empty cell, also when the call is left by the
    exception of reading a row outside the grid; and a move blocked on one
    axis and free on the other advances along the free axis. *)
Theorem updatePlayer_axis_separated (dt : R) (p : Player) :
  emptyCell (Zfloor (px p)) (Zfloor (py p)) ->
  let newX := px p + fst (moveVector dt p) in
  let newY := py p + snd (moveVector dt p) in
  let q := stateOf (updatePlayer dt p) in
  ((px q = newX /\ emptyCell (Zfloor newX) (Zfloor (py p))) \/
   (px q = px p /\ ~ emptyCell (Zfloor newX) (Zfloor (py p)))) /\
  ((py q = newY /\ emptyCell (Zfloor (px q)) (Zfloor newY)) \/
   (py q = py p /\ ~ emptyCell (Zfloor (px q)) (Zfloor newY))) /\
  emptyCell (Zfloor (px q)) (Zfloor (py q)) /\
  (~ emptyCell (Zfloor newX) (Zfloor (py p)) ->
   emptyCell (Zfloor (px p)) (Zfloor newY) ->
   px q = px p /\ py q = newY) /\
  (emptyCell (Zfloor newX) (Zfloor (py p)) ->
   ~ emptyCell (Zfloor newX) (Zfloor newY) ->
   px q = newX /\ py q = py p).
Proof.
  intros Hcell newX newY q.
  destruct (updatePlayer_pose dt p Hcell) as [Hx Hy].
  fold newX in Hx. fold newY in Hy. fold q in Hx, Hy.
  assert (Hxrule :
    (px q = newX /\ emptyCell (Zfloor newX) (Zfloor (py p))) \/
    (px q = px p /\ ~ emptyCell (Zfloor newX) (Zfloor (py p)))).
  { destruct (isZero (mapAt (Zfloor (py p)) (Zfloor newX))) eqn:Hz.
    - left. split; [exact Hx | apply isZero_emptyCell; exact Hz].
    - right. split; [exact Hx|].
      intros He. apply isZero_emptyCell in He. congruence. }
  assert (Hyrule :
    (py q = newY /\ emptyCell (Zfloor (px q)) (Zfloor newY)) \/
    (py q = py p /\ ~ emptyCell (Zfloor (px q)) (Zfloor newY))).
  { destruct (isZero (mapAt (Zfloor newY) (Zfloor (px q)))) eqn:Hz.
    - left. split; [exact Hy | apply isZero_emptyCell; exact Hz].
    - right. split; [exact Hy|].
      intros He. apply isZero_emptyCell in He. congruence. }
  split; [exact Hxrule | split; [exact Hyrule | split; [|split]]].
  - destruct Hyrule as [[Hq He] | [Hq _]]; rewrite Hq; [exact He|].
    destruct Hxrule as [[Hq' He'] | [Hq' _]]; rewrite Hq'; assumption.
  - intros Hblocked Hfree.
    destruct Hxrule as [[_ He] | [Hq _]]; [contradiction|].
    split; [exact Hq|].
    destruct Hyrule as [[Hq' _] | [_ Hn]]; [exact Hq'|].
    rewrite Hq in Hn. contradiction.
  - intros Hfree Hblocked.
    destruct Hxrule as [[Hq _] | [_ Hn]]; [|contradiction].
    split; [exact Hq|].
    destruct Hyrule as [[_ He] | [Hq' _]]; [|exact Hq'].
    rewrite Hq in He. contradiction.
Qed.

Lemma turnedAngle_cornerPlayer (dt : R) : turnedAngle dt cornerPlayer = 0.
Proof.
  unfold turnedAngle, cornerPlayer. simpl.
  apply wrapAngle_fixed. pose proof PI_pos. lra.
Qed.

Lemma moveVector_cornerPlayer :
  moveVector 0.1 cornerPlayer = (0.3, -0.3).
Proof.
  unfold moveVector. rewrite turnedAngle_cornerPlayer.
  unfold cornerPlayer, moveSpeed. simpl.
  rewrite cos_0, sin_0. f_equal; lra.
Qed.

(** The corner scenario: the x-move into the wall block is refused and the
    player slides along y. *)
Lemma updatePlayer_slides_witness :
  let q := stateOf (updatePlayer 0.1 cornerPlayer) in
  px q = 4.9 /\ py q = 4.5 + -0.3 /\
  emptyCell (Zfloor (px q)) (Zfloor (py q)).
Proof.
  assert (Hcell : emptyCell (Zfloor (px cornerPlayer))
                            (Zfloor (py cornerPlayer))).
  { simpl. rewrite (Zfloor_eq 4 4.9), (Zfloor_eq 4 4.5) by (simpl; lra).
    reflexivity. }
  destruct (updatePlayer_axis_separated 0.1 cornerPlayer Hcell)
    as (_ & _ & Hempty & Hslide & _).
  rewrite moveVector_cornerPlayer in Hslide. simpl fst in Hslide.
  simpl snd in Hslide. simpl px in Hslide. simpl py in Hslide.
  rewrite (Zfloor_eq 5 (4.9 + 0.3)), (Zfloor_eq 4 4.5),
    (Zfloor_eq 4 4.9), (Zfloor_eq 4 (4.5 + -0.3)) in Hslide
    by (simpl; lra).
  destruct Hslide as [Hx Hy]; [discriminate | reflexivity|].
  cbv zeta. split; [exact Hx | split; [exact Hy | exact Hempty]].
Defined.

(** ** The ray fan *)

Lemma INR_numRays : INR numRays = 480.
Proof. unfold numRays. rewrite INR_IZR_INZ. reflexivity. Qed.

Lemma FOV_pos : 0 < FOV.
Proof. unfold FOV. pose proof PI_pos. lra. Qed.

Lemma rayOffset_formula (p : Player) (i : nat) :
  rayOffset p i = - (FOV / 2) + FOV * INR i / 480.
Proof. unfold rayOffset, rayAngle. rewrite INR_numRays. lra. Qed.

(** C9 as stated fails at the spawn pose: the offsets of the first and of
    the last ray are not opposite, and the last ray does not lie at the
    facing angle plus half the field of view. *)
Lemma ray_fan_not_symmetric :
  rayOffset initialPlayer 0 <> - rayOffset initialPlayer (numRays - 1 - 0) /\
  rayAngle initialPlayer (numRays - 1) <> pangle initialPlayer + FOV / 2.
Proof.
  assert (Hlast : INR (numRays - 1) = 479)
    by (unfold numRays; rewrite INR_IZR_INZ; reflexivity).
  pose proof FOV_pos as Hfov. split.
  - rewrite !rayOffset_formula.
    replace (numRays - 1 - 0)%nat with (numRays - 1)%nat by lia.
    rewrite Hlast. simpl INR. lra.
  - unfold rayAngle. rewrite Hlast, INR_numRays. simpl pangle. lra.
Qed.

(** C9, amended.  Ray [i] of the [numRays] rays lies at the facing angle
    minus half the field of view plus [i] steps of [FOV / numRays]: the
    first ray at the facing angle minus [FOV / 2], the last one step short
    of the facing angle plus [FOV / 2], and the offsets of ray [i] and of
    ray [numRays - 1 - i] add up to minus one step. *)
Theorem ray_fan_left_aligned (p : Player) (i : nat) :
  (i < numRays)%nat ->
  rayOffset p i = - (FOV / 2) + INR i * (FOV / INR numRays) /\
  rayOffset p i + rayOffset p (numRays - 1 - i) = - (FOV / INR numRays) /\
  rayAngle p 0 = pangle p - FOV / 2 /\
  rayAngle p (numRays - 1) = pangle p + FOV / 2 - FOV / INR numRays.
Proof.
  intros Hi.
  assert (Hmirror : INR (numRays - 1 - i) = 479 - INR i).
  { replace (numRays - 1 - i)%nat with (479 - i)%nat
      by (unfold numRays; lia).
    rewrite minus_INR by (unfold numRays in Hi; lia).
    rewrite (INR_IZR_INZ 479). reflexivity. }
  assert (Hlast : INR (numRays - 1) = 479)
    by (unfold numRays; rewrite INR_IZR_INZ; reflexivity).
  rewrite !rayOffset_formula, Hmirror. unfold rayAngle.
  rewrite Hlast, INR_numRays. simpl INR.
  repeat split; lra.
Qed.

Lemma ray_fan_witness :
  rayOffset initialPlayer 0 + rayOffset initialPlayer (numRays - 1 - 0)
  = - (FOV / INR numRays).
Proof.
  assert (H0 : (0 < numRays)%nat) by (unfold numRays; lia).
  destruct (ray_fan_left_aligned initialPlayer 0 H0) as (_ & Hsum & _).
  exact Hsum.
Defined.

(** ** Termination of the grid march *)

Lemma mapWidth_value : mapWidth = 16%Z.
Proof. reflexivity. Qed.

Lemma mapHeight_value : mapHeight = 16%Z.
Proof. reflexivity. Qed.

Lemma outOfBounds_false (mx my : Z) :
  outOfBounds mx my = false <-> (0 <= mx < 16 /\ 0 <= my < 16)%Z.
Proof.
  unfold outOfBounds. rewrite mapWidth_value, mapHeight_value.
  rewrite !orb_false_iff, !Z.ltb_ge, !Z.leb_gt. lia.
Qed.

Lemma stepOf_unit (d : R) : stepOf d = 1%Z \/ stepOf d = (-1)%Z.
Proof. unfold stepOf. destruct (Rlt_dec d 0); [right | left]; reflexivity. Qed.

(** One iteration moves exactly one of the two indices by its step, so the
    room left on the two axes shrinks by one. *)
Lemma ddaAdvance_room (ddx ddy : R) (sx sy : Z) (s : Dda) :
  (sx = 1 \/ sx = -1)%Z -> (sy = 1 \/ sy = -1)%Z ->
  let s1 := ddaAdvance ddx ddy sx sy s in
  (room mapWidth sx (mapX s1) + room mapHeight sy (mapY s1)
   = room mapWidth sx (mapX s) + room mapHeight sy (mapY s) - 1)%Z.
Proof.
  intros Hsx Hsy. unfold ddaAdvance, room.
  rewrite mapWidth_value, mapHeight_value.
  destruct (Rlt_dec (sideDistX s) (sideDistY s)); cbn [mapX mapY];
    destruct Hsx as [-> | ->], Hsy as [-> | ->]; cbn [Z.eqb Pos.eqb]; lia.
Qed.

Lemma room_inside (sx sy mx my : Z) :
  (sx = 1 \/ sx = -1)%Z -> (sy = 1 \/ sy = -1)%Z ->
  outOfBounds mx my = false ->
  (2 <= room mapWidth sx mx + room mapHeight sy my <= 32)%Z.
Proof.
  intros Hsx Hsy Hin. apply outOfBounds_false in Hin.
  unfold room. rewrite mapWidth_value, mapHeight_value.
  destruct Hsx as [-> | ->], Hsy as [-> | ->]; cbn [Z.eqb Pos.eqb]; lia.
Qed.

(** The loop leaves within as many iterations as there is room, on a wall
    cell or outside the grid. *)
Lemma ddaLoop_terminates (ddx ddy : R) (sx sy : Z) :
  (sx = 1 \/ sx = -1)%Z -> (sy = 1 \/ sy = -1)%Z ->
  forall (fuel : nat) (s : Dda),
    outOfBounds (mapX s) (mapY s) = false ->
    (room mapWidth sx (mapX s) + room mapHeight sy (mapY s)
     <= Z.of_nat fuel + 1)%Z ->
    exists s', ddaLoop fuel ddx ddy sx sy s = Some s' /\
               hitFlag s' = true /\ (endsOnWall s' \/ endsOutside s').
Proof.
  intros Hsx Hsy. induction fuel as [|k IH]; intros s Hin Hroom.
  - pose proof (room_inside sx sy _ _ Hsx Hsy Hin). lia.
  - simpl ddaLoop.
    pose proof (ddaAdvance_room ddx ddy sx sy s Hsx Hsy) as Hstep.
    cbv zeta in Hstep.
    set (s1 := ddaAdvance ddx ddy sx sy s) in *.
    destruct (outOfBounds (mapX s1) (mapY s1)) eqn:Hout.
    + exists (withHit s1). repeat split. right. exact Hout.
    + destruct (isWall (mapAt (mapY s1) (mapX s1))) eqn:Hwall.
      * exists (withHit s1). repeat split. left. split; assumption.
      * apply IH; [exact Hout | lia].
Qed.

(** More fuel does not change the outcome of a loop that has left. *)
Lemma ddaLoop_more_fuel (ddx ddy : R) (sx sy : Z) :
  forall (fuel : nat) (s s' : Dda),
    ddaLoop fuel ddx ddy sx sy s = Some s' ->
    forall extra, ddaLoop (fuel + extra) ddx ddy sx sy s = Some s'.
Proof.
  induction fuel as [|k IH]; intros s s' Hrun extra; [discriminate|].
  simpl in *.
  destruct (outOfBounds _ _); [exact Hrun|].
  destruct (isWall _); [exact Hrun|].
  apply IH. exact Hrun.
Qed.

Lemma Zfloor_inside (x : R) (n : Z) :
  0 < x < IZR n -> (0 <= Zfloor x < n)%Z.
Proof.
  intros [Hlo Hhi]. pose proof (Zfloor_bound x) as [Hf1 Hf2]. split.
  - apply Zfloor_lub. simpl. lra.
  - apply lt_IZR. lra.
Qed.

(** Every ray of a player inside the grid leaves its marching loop. *)
Lemma marchRay_terminates (p : Player) (i fuel : nat) :
  0 < px p < IZR mapWidth -> 0 < py p < IZR mapHeight ->
  (31 <= fuel)%nat ->
  exists s, marchRay fuel p i = Some s /\ hitFlag s = true /\
            (endsOnWall s \/ endsOutside s).
Proof.
  intros Hx Hy Hfuel. unfold marchRay.
  apply ddaLoop_terminates; try apply stepOf_unit.
  - apply outOfBounds_false. simpl.
    apply Zfloor_inside in Hx. apply Zfloor_inside in Hy.
    rewrite mapWidth_value in Hx. rewrite mapHeight_value in Hy. lia.
  - assert (Hin : outOfBounds (mapX (ddaStart p i)) (mapY (ddaStart p i))
                  = false).
    { apply outOfBounds_false. simpl.
      apply Zfloor_inside in Hx. apply Zfloor_inside in Hy.
      rewrite mapWidth_value in Hx. rewrite mapHeight_value in Hy. lia. }
    pose proof (room_inside _ _ _ _
                  (stepOf_unit (cos (rayAngle p i)))
                  (stepOf_unit (sin (rayAngle p i))) Hin).
    lia.
Qed.

Lemma castColumns_total (fuel : nat) (cv : Canvas) (p : Player) :
  forall idxs,
    (forall i, In i idxs -> exists s, marchRay fuel p i = Some s) ->
    exists cols, castColumns fuel cv false p idxs = Some (Returned cols) /\
                 length cols = length idxs.
Proof.
  induction idxs as [|i rest IH]; intros Hall.
  - exists []. split; reflexivity.
  - simpl. unfold castRay.
    destruct (Hall i (or_introl eq_refl)) as [s Hs]. rewrite Hs.
    destruct IH as (cols & Hcols & Hlen).
    { intros j Hj. apply Hall. right. exact Hj. }
    rewrite Hcols. exists (columnOf cv p i s :: cols).
    split; [reflexivity | simpl; now rewrite Hlen].
Qed.

Lemma castColumns_nth (fuel : nat) (cv : Canvas) (bambooComplete : bool)
  (p : Player) :
  forall idxs cols,
    castColumns fuel cv bambooComplete p idxs = Some (Returned cols) ->
    forall k i, nth_error idxs k = Some i ->
      exists s, marchRay fuel p i = Some s /\
                nth_error cols k = Some (columnOf cv p i s).
Proof.
  induction idxs as [|j rest IH]; intros cols Hcols k i Hk.
  - destruct k; discriminate.
  - simpl in Hcols. unfold castRay in Hcols.
    destruct (marchRay fuel p j) as [s|] eqn:Hs; [|discriminate].
    destruct bambooComplete; [discriminate|].
    destruct (castColumns fuel cv false p rest) as [[cs | cs d]|] eqn:Hrest;
      try discriminate.
    inversion Hcols; subst cols. destruct k as [|k'].
    + inversion Hk; subst j. exists s. split; [exact Hs | reflexivity].
    + simpl in Hk. simpl. apply (IH cs eq_refl k' i Hk).
Qed.

(** With the texture image complete, the loop is left by the exception in
    its first iteration, nothing drawn. *)
Lemma castColumns_throws (fuel : nat) (cv : Canvas) (p : Player)
  (i : nat) (rest : list nat) (s : Dda) :
  marchRay fuel p i = Some s ->
  castColumns fuel cv true p (i :: rest)
  = Some (TexXError [] (perpWallDistOf p i s)).
Proof.
  intros Hs. cbn [castColumns]. unfold castRay. rewrite Hs. reflexivity.
Qed.

(** Only with the texture image complete is the loop left by the
    exception. *)
Lemma castColumns_false_returns (fuel : nat) (cv : Canvas) (p : Player) :
  forall idxs cols d,
    castColumns fuel cv false p idxs <> Some (TexXError cols d).
Proof.
  induction idxs as [|i rest IH]; intros cols d; [discriminate|].
  cbn [castColumns]. destruct (castRay fuel cv p i); [|discriminate].
  destruct (castColumns fuel cv false p rest) as [[cs | cs d']|] eqn:Hrest;
    try discriminate.
  exfalso. exact (IH cs d' eq_refl).
Qed.

Lemma nth_error_seq0 (n k : nat) :
  (k < n)%nat -> nth_error (seq 0 n) k = Some k.
Proof.
  intros Hk. rewrite nth_error_nth' with (d := O) by (rewrite length_seq; lia).
  rewrite seq_nth by lia. reflexivity.
Qed.


(** The wall caster returns for a player inside the grid, as long as the
    texture image is not complete. *)
Lemma castRays_returns (fuel : nat) (cv : Canvas) (p : Player) :
  0 < px p < IZR mapWidth -> 0 < py p < IZR mapHeight ->
  (31 <= fuel)%nat ->
  exists cols,
    castRays fuel cv false p = Some (Returned cols) /\
    length cols = numRays.
Proof.
  intros Hx Hy Hfuel. unfold castRays.
  destruct (castColumns_total fuel cv p (seq 0 numRays)) as (cols & Hc & Hl).
  { intros i _. destruct (marchRay_terminates p i fuel Hx Hy Hfuel)
      as (s & Hs & _). exists s. exact Hs. }
  rewrite length_seq in Hl. exists cols. split; assumption.
Qed.

(** Once the texture image is complete it throws in ray 0, with the first
    z-buffer entry assigned and nothing drawn. *)
Lemma castRays_throws (fuel : nat) (cv : Canvas) (p : Player) :
  0 < px p < IZR mapWidth -> 0 < py p < IZR mapHeight ->
  (31 <= fuel)%nat ->
  exists s,
    marchRay fuel p 0 = Some s /\
    castRays fuel cv true p = Some (TexXError [] (perpWallDistOf p 0 s)).
Proof.
  intros Hx Hy Hfuel.
  destruct (marchRay_terminates p 0 fuel Hx Hy Hfuel) as (s & Hs & _).
  exists s. split; [exact Hs|].
  unfold castRays. change (seq 0 numRays) with (0%nat :: seq 1 479).
  apply castColumns_throws. exact Hs.
Qed.


(** ** The solid border *)

Lemma border_solid (mx my : Z) :
  outOfBounds mx my = false ->
  isWall (mapAt my mx) = false ->
  (1 <= mx <= 14 /\ 1 <= my <= 14)%Z.
Proof.
  intros Hin Hfree. apply outOfBounds_false in Hin.
  assert (Hcheck : borderCheck = true) by reflexivity.
  unfold borderCheck in Hcheck.
  assert (Hr : In (Z.to_nat my) (seq 0 16)) by (apply in_seq; lia).
  assert (Hc : In (Z.to_nat mx) (seq 0 16)) by (apply in_seq; lia).
  pose proof (proj1 (forallb_forall _ _) Hcheck _ Hr) as Hrow.
  cbv beta in Hrow.
  pose proof (proj1 (forallb_forall _ _) Hrow _ Hc) as Hcell.
  cbv beta in Hcell. clear Hcheck Hrow.
  rewrite !Z2Nat.id in Hcell by lia. rewrite Hfree in Hcell.
  rewrite orb_false_l in Hcell. rename Hcell into Hcheck.
  rewrite !andb_true_iff in Hcheck.
  destruct Hcheck as [[[H1 H2] H3] H4].
  apply Nat.leb_le in H1, H2, H3, H4. lia.
Qed.

Lemma mapAt_value_inside (r c v : Z) :
  mapAt r c = Value v -> outOfBounds c r = false.
Proof.
  unfold mapAt, lookupZ. intros H.
  destruct (r <? 0)%Z eqn:Hr; [discriminate|].
  destruct (nth_error map (Z.to_nat r)) as [row|] eqn:Hrow; [|discriminate].
  destruct (c <? 0)%Z eqn:Hc; [discriminate|].
  destruct (nth_error row (Z.to_nat c)) as [w|] eqn:Hcol; [|discriminate].
  apply Z.ltb_ge in Hr, Hc.
  assert (Hlr : (Z.to_nat r < length map)%nat)
    by (apply nth_error_Some; congruence).
  change (length map) with 16%nat in Hlr.
  assert (Hr16 : (0 <= r < 16)%Z) by lia.
  assert (Hrow16 : length row = 16%nat).
  { assert (Hall : forallb (fun l => (length l =? 16)%nat) map = true)
      by reflexivity.
    rewrite forallb_forall in Hall.
    apply Nat.eqb_eq. apply Hall. eapply nth_error_In. exact Hrow. }
  assert (Hlc : (Z.to_nat c < length row)%nat)
    by (apply nth_error_Some; congruence).
  apply outOfBounds_false. lia.
Qed.

(** From a cell that is not a wall the loop can only end on a wall: the
    neighbours of a cell inside the border ring are all inside the grid. *)
Lemma ddaLoop_ends_on_wall (ddx ddy : R) (sx sy : Z) :
  (sx = 1 \/ sx = -1)%Z -> (sy = 1 \/ sy = -1)%Z ->
  forall (fuel : nat) (s s' : Dda),
    outOfBounds (mapX s) (mapY s) = false ->
    isWall (mapAt (mapY s) (mapX s)) = false ->
    ddaLoop fuel ddx ddy sx sy s = Some s' ->
    endsOnWall s'.
Proof.
  intros Hsx Hsy. induction fuel as [|k IH]; intros s s' Hin Hfree Hrun;
    [discriminate|].
  simpl in Hrun.
  pose proof (border_solid _ _ Hin Hfree) as Hring.
  set (s1 := ddaAdvance ddx ddy sx sy s) in *.
  assert (Hin1 : outOfBounds (mapX s1) (mapY s1) = false).
  { apply outOfBounds_false. subst s1. unfold ddaAdvance.
    destruct (Rlt_dec (sideDistX s) (sideDistY s)); cbn [mapX mapY]; lia. }
  rewrite Hin1 in Hrun.
  destruct (isWall (mapAt (mapY s1) (mapX s1))) eqn:Hwall.
  - inversion Hrun; subst s'. split; assumption.
  - apply (IH s1 s' Hin1 Hwall Hrun).
Qed.

Lemma marchRay_ends_on_wall (p : Player) (i fuel : nat) (s : Dda) :
  emptyCell (Zfloor (px p)) (Zfloor (py p)) ->
  marchRay fuel p i = Some s -> endsOnWall s.
Proof.
  intros Hcell Hrun. unfold marchRay in Hrun.
  apply (ddaLoop_ends_on_wall
           (deltaDist (cos (rayAngle p i))) (deltaDist (sin (rayAngle p i)))
           _ _
           (stepOf_unit (cos (rayAngle p i)))
           (stepOf_unit (sin (rayAngle p i))) fuel (ddaStart p i) s);
    [| |exact Hrun].
  - simpl. eapply mapAt_value_inside. exact Hcell.
  - simpl. unfold emptyCell in Hcell. rewrite Hcell. reflexivity.
Qed.

(** For a player position strictly inside the map bounds, whatever the
    facing angle, each of the [numRays] marching loops leaves within 31
    iterations, on a wall cell or outside the grid; from an empty cell the
    solid border lets no ray leave the grid.  While the texture image is
    not complete, [castRays] returns with one column and one depth value
    per ray. *)
Lemma castRays_while_loading (fuel : nat) (cv : Canvas) (p : Player) :
  0 < px p < IZR mapWidth ->
  0 < py p < IZR mapHeight ->
  (31 <= fuel)%nat ->
  exists cols,
    castRays fuel cv false p = Some (Returned cols) /\
    length cols = numRays /\
    length (zBufferOf cols) = numRays /\
    forall i, (i < numRays)%nat ->
      exists s,
        marchRay fuel p i = Some s /\
        (endsOnWall s \/ endsOutside s) /\
        (emptyCell (Zfloor (px p)) (Zfloor (py p)) -> endsOnWall s) /\
        nth_error (zBufferOf cols) i = Some (perpWallDistOf p i s).
Proof.
  intros Hx Hy Hfuel.
  destruct (castRays_returns fuel cv p Hx Hy Hfuel) as (cols & Hc & Hl).
  unfold castRays in *.
  exists cols. split; [exact Hc | split; [exact Hl | split]].
  - unfold zBufferOf. rewrite length_map. exact Hl.
  - intros i Hi.
    destruct (castColumns_nth fuel cv false p _ _ Hc i i
                (nth_error_seq0 _ _ Hi)) as (s & Hs & Hnth).
    exists s. split; [exact Hs | split; [|split]].
    + destruct (marchRay_terminates p i fuel Hx Hy Hfuel)
        as (s' & Hs' & _ & Hend).
      rewrite Hs in Hs'. inversion Hs'; subst s'. exact Hend.
    + intros Hcell. exact (marchRay_ends_on_wall p i fuel s Hcell Hs).
    + unfold zBufferOf. rewrite nth_error_map, Hnth. reflexivity.
Qed.

(** C8 (ray-march termination), as the code has it.  For a player position
    strictly inside the map bounds and every ray, the marching loop leaves
    within 31 iterations, on a wall cell or outside the grid (on a wall
    cell when the player stands in an empty cell).  [castRays] produces a
    depth value for every one of the [numRays] columns only while the
    texture image is not complete.  Once it is complete, [castRays] is left
    by a [ReferenceError] in the iteration of ray 0, after the entry of
    that ray has been assigned: it returns no buffer and no column is
    drawn. *)
Theorem castRays_throws_once_texture_is_complete (fuel : nat) (cv : Canvas)
  (p : Player) :
  0 < px p < IZR mapWidth ->
  0 < py p < IZR mapHeight ->
  (31 <= fuel)%nat ->
  (forall i, (i < numRays)%nat ->
     exists s,
       marchRay fuel p i = Some s /\
       (endsOnWall s \/ endsOutside s) /\
       (emptyCell (Zfloor (px p)) (Zfloor (py p)) -> endsOnWall s)) /\
  (exists cols,
     castRays fuel cv false p = Some (Returned cols) /\
     length (zBufferOf cols) = numRays) /\
  (exists s,
     marchRay fuel p 0 = Some s /\
     castRays fuel cv true p = Some (TexXError [] (perpWallDistOf p 0 s))) /\
  (forall cols, castRays fuel cv true p <> Some (Returned cols)).
Proof.
  intros Hx Hy Hfuel.
  destruct (castRays_while_loading fuel cv p Hx Hy Hfuel)
    as (cols & Hc & _ & Hz & Hrays).
  destruct (castRays_throws fuel cv p Hx Hy Hfuel) as (s0 & Hs0 & Hthrow).
  split; [|split; [|split]].
  - intros i Hi. destruct (Hrays i Hi) as (s & Hs & Hend & Hwall & _).
    exists s. split; [exact Hs | split; assumption].
  - exists cols. split; assumption.
  - exists s0. split; assumption.
  - intros cols'. rewrite Hthrow. discriminate.
Qed.

Lemma castRays_throws_witness :
  exists d, castRays 31 sampleCanvas true initialPlayer
            = Some (TexXError [] d).
Proof.
  assert (Hx : 0 < px initialPlayer < IZR mapWidth)
    by (rewrite mapWidth_value; simpl; lra).
  assert (Hy : 0 < py initialPlayer < IZR mapHeight)
    by (rewrite mapHeight_value; simpl; lra).
  destruct (castRays_throws_once_texture_is_complete 31 sampleCanvas
              initialPlayer Hx Hy (le_n 31))
    as (_ & _ & (s & _ & Hthrow) & _).
  eexists. exact Hthrow.
Defined.

(** ** Evaluating the wall caster on rays along the x axis *)

Lemma deltaDist_one : deltaDist 1 = 1.
Proof.
  unfold deltaDist. destruct (Req_dec_T 1 0) as [H | _]; [lra|].
  replace (1 / 1) with 1 by lra. apply Rabs_R1.
Qed.

Lemma deltaDist_zero : deltaDist 0 = 1e30.
Proof.
  unfold deltaDist. destruct (Req_dec_T 0 0) as [_ | H]; [reflexivity|].
  contradiction H. reflexivity.
Qed.

Lemma stepOf_one : stepOf 1 = 1%Z.
Proof. unfold stepOf. destruct (Rlt_dec 1 0); [lra | reflexivity]. Qed.

Lemma stepOf_zero : stepOf 0 = 1%Z.
Proof. unfold stepOf. destruct (Rlt_dec 0 0); [lra | reflexivity]. Qed.

(** One iteration of the loop that steps in x onto a cell that is not a
    wall, and one that steps in x onto a wall. *)
Lemma ddaLoop_step_x (k : nat) (ddx ddy : R) (sx sy : Z)
  (sdx sdy : R) (mx my sd : Z) (h : bool) (mx' : Z) :
  sdx < sdy -> mx' = (mx + sx)%Z ->
  outOfBounds mx' my = false -> isWall (mapAt my mx') = false ->
  ddaLoop (S k) ddx ddy sx sy (mkDda sdx sdy mx my sd h)
  = ddaLoop k ddx ddy sx sy (mkDda (sdx + ddx) sdy mx' my 0 h).
Proof.
  intros Hlt -> Hin Hfree. simpl ddaLoop. unfold ddaAdvance.
  cbn [sideDistX sideDistY mapX mapY hitFlag side].
  destruct (Rlt_dec sdx sdy) as [_ | Hn]; [|contradiction].
  cbn [sideDistX sideDistY mapX mapY hitFlag side].
  rewrite Hin, Hfree. reflexivity.
Qed.

Lemma ddaLoop_hit_x (k : nat) (ddx ddy : R) (sx sy : Z)
  (sdx sdy : R) (mx my sd : Z) (h : bool) (mx' : Z) :
  sdx < sdy -> mx' = (mx + sx)%Z ->
  outOfBounds mx' my = false -> isWall (mapAt my mx') = true ->
  ddaLoop (S k) ddx ddy sx sy (mkDda sdx sdy mx my sd h)
  = Some (mkDda (sdx + ddx) sdy mx' my 0 true).
Proof.
  intros Hlt -> Hin Hwall. simpl ddaLoop. unfold ddaAdvance.
  cbn [sideDistX sideDistY mapX mapY hitFlag side].
  destruct (Rlt_dec sdx sdy) as [_ | Hn]; [|contradiction].
  cbn [sideDistX sideDistY mapX mapY hitFlag side].
  rewrite Hin, Hwall. reflexivity.
Qed.

Lemma initialSideDist_forward (d pos : R) (cell : Z) :
  0 <= d -> initialSideDist d pos cell
            = (IZR cell + 1.0 - pos) * deltaDist d.
Proof.
  intros Hd. unfold initialSideDist.
  destruct (Rlt_dec d 0); [lra | reflexivity].
Qed.

(** A ray along the x axis from the middle of cell (2, 2) crosses cells
    (3, 2) and (4, 2) and stops on the wall at (5, 2), with 2.5 recorded as
    its depth. *)
Lemma march_east_from_spawn (p : Player) (i fuel : nat) :
  px p = 2.5 -> py p = 2.5 -> rayAngle p i = 0 ->
  exists s, marchRay (3 + fuel) p i = Some s /\
            mapX s = 5%Z /\ mapY s = 2%Z /\ side s = 0%Z /\
            perpWallDistOf p i s = 2.5.
Proof.
  intros Hx Hy Hang. unfold marchRay, ddaStart.
  rewrite Hang, cos_0, sin_0, Hx, Hy.
  rewrite (Zfloor_eq 2 2.5) by (simpl; lra).
  rewrite !initialSideDist_forward by lra.
  rewrite deltaDist_one, deltaDist_zero, stepOf_one, stepOf_zero.
  change (3 + fuel)%nat with (S (S (S fuel))).
  rewrite (ddaLoop_step_x _ _ _ _ _ _ _ _ _ _ _ 3%Z)
    by (try reflexivity; lra).
  rewrite (ddaLoop_step_x _ _ _ _ _ _ _ _ _ _ _ 4%Z)
    by (try reflexivity; lra).
  rewrite (ddaLoop_hit_x _ _ _ _ _ _ _ _ _ _ _ 5%Z)
    by (try reflexivity; lra).
  eexists. split; [reflexivity|].
  cbn [mapX mapY side]. repeat split.
  unfold perpWallDistOf. cbn [hitFlag side sideDistX].
  rewrite Hang, cos_0, deltaDist_one. simpl Z.eqb. cbv iota. lra.
Qed.

(** The same ray from the middle of cell (4, 2) stops at once on the wall
    at (5, 2), with depth 0.5. *)
Lemma march_east_from_close (p : Player) (i fuel : nat) :
  px p = 4.5 -> py p = 2.5 -> rayAngle p i = 0 ->
  exists s, marchRay (1 + fuel) p i = Some s /\
            mapX s = 5%Z /\ mapY s = 2%Z /\ side s = 0%Z /\
            perpWallDistOf p i s = 0.5.
Proof.
  intros Hx Hy Hang. unfold marchRay, ddaStart.
  rewrite Hang, cos_0, sin_0, Hx, Hy.
  rewrite (Zfloor_eq 2 2.5), (Zfloor_eq 4 4.5) by (simpl; lra).
  rewrite !initialSideDist_forward by lra.
  rewrite deltaDist_one, deltaDist_zero, stepOf_one, stepOf_zero.
  change (1 + fuel)%nat with (S fuel).
  rewrite (ddaLoop_hit_x _ _ _ _ _ _ _ _ _ _ _ 5%Z)
    by (try reflexivity; lra).
  eexists. split; [reflexivity|].
  cbn [mapX mapY side]. repeat split.
  unfold perpWallDistOf. cbn [hitFlag side sideDistX].
  rewrite Hang, cos_0, deltaDist_one. simpl Z.eqb. cbv iota. lra.
Qed.

Lemma INR_240 : INR 240 = 240.
Proof. rewrite INR_IZR_INZ. reflexivity. Qed.

Lemma central_ray_angle (p : Player) : rayAngle p 240 = pangle p.
Proof. unfold rayAngle. rewrite INR_numRays, INR_240. lra. Qed.

Lemma leftmost_ray_angle (p : Player) : rayAngle p 0 = pangle p - FOV / 2.
Proof. unfold rayAngle. rewrite INR_numRays. simpl INR. lra. Qed.

(** The scenario of the specification: at the spawn pose, facing angle 0,
    the central ray records depth 2.5 for the wall at column 5. *)
Lemma central_ray_depth_at_spawn (cv : Canvas) :
  exists col, castRay 31 cv initialPlayer 240 = Some col /\
              depth col = 2.5.
Proof.
  destruct (march_east_from_spawn initialPlayer 240 28)
    as (s & Hs & _ & _ & _ & Hd);
    try reflexivity; [apply central_ray_angle|].
  unfold castRay. change (3 + 28)%nat with 31%nat in Hs. rewrite Hs.
  eexists. split; [reflexivity|]. exact Hd.
Qed.

Lemma half_FOV_bounds : 0 < FOV / 2 < PI / 3.
Proof. unfold FOV. pose proof PI_pos. lra. Qed.

Lemma cos_half_FOV_lt_1 : cos (FOV / 2) < 1.
Proof.
  pose proof half_FOV_bounds as [Hlo Hhi]. pose proof PI_pos as Hpi.
  rewrite <- cos_0. apply cos_decreasing_1; lra.
Qed.


(** C3 (no fisheye), evaluated where it fails.  With the player at the
    spawn position and the facing turned by half the field of view, the
    leftmost ray runs along the x axis, at an offset of minus half the field
    of view from the facing direction.  It hits the west face of the wall at
    column 5, at the point (5, 2.5), which lies at Euclidean distance 2.5
    from the player.  The depth recorded for the ray is that distance
    itself, not the distance multiplied by the cosine of the offset. *)
Theorem recorded_depth_is_distance_along_ray :
  exists col,
    castRay 31 sampleCanvas skewedPlayer 0 = Some col /\
    rayOffset skewedPlayer 0 = - (FOV / 2) /\
    hitSide col = 0%Z /\
    px skewedPlayer + depth col * cos (rayAngle skewedPlayer 0) = 5 /\
    py skewedPlayer + depth col * sin (rayAngle skewedPlayer 0) = 2.5 /\
    depth col = sqrt ((5 - 2.5) * (5 - 2.5) + (2.5 - 2.5) * (2.5 - 2.5)) /\
    depth col = 2.5 /\
    depth col <> 2.5 * cos (rayOffset skewedPlayer 0).
Proof.
  assert (Hang : rayAngle skewedPlayer 0 = 0).
  { rewrite leftmost_ray_angle. simpl pangle. lra. }
  destruct (march_east_from_spawn skewedPlayer 0 28)
    as (s & Hs & _ & _ & Hside & Hd); try reflexivity; [exact Hang|].
  unfold castRay. change (3 + 28)%nat with 31%nat in Hs. rewrite Hs.
  eexists. split; [reflexivity|].
  unfold columnOf. cbn [depth hitSide]. rewrite Hd, Hang, cos_0, sin_0.
  assert (Hoff : rayOffset skewedPlayer 0 = - (FOV / 2)).
  { unfold rayOffset. rewrite Hang. simpl pangle. lra. }
  rewrite Hoff, cos_neg. simpl px. simpl py.
  repeat split; try lra; try assumption.
  - replace ((5 - 2.5) * (5 - 2.5) + (2.5 - 2.5) * (2.5 - 2.5))
      with (2.5 * 2.5) by lra.
    rewrite sqrt_square; lra.
  - pose proof cos_half_FOV_lt_1. lra.
Qed.

(** ** Wall anchoring *)

Lemma tan_half_FOV_bounds : 0 < tan (FOV / 2) < 2.
Proof.
  pose proof half_FOV_bounds as [Hlo Hhi]. pose proof PI_pos as Hpi. split.
  - apply tan_gt_0; lra.
  - apply Rlt_trans with (r2 := tan (PI / 3)).
    + apply tan_increasing; lra.
    + rewrite tan_PI3.
      replace 2 with (sqrt (2 * 2)) by (rewrite sqrt_square; lra).
      apply sqrt_lt_1_alt. lra.
Qed.

(** The slice drawn by the patch statement always ends on the horizon. *)
Lemma patchSlice_bottom (cv : Canvas) (p : Player) (i : nat) (s : Dda) :
  rectBottom (patchSlice (columnOf cv p i s)) = IZR (horizon cv).
Proof. unfold rectBottom, columnOf, endY. simpl. lra. Qed.

(** The slice drawn by the texture statement that follows ends at the
    larger of the horizon and the wall height. *)
Lemma textureSlice_bottom (cv : Canvas) (p : Player) (i : nat) (s : Dda) :
  rectBottom (textureSlice (columnOf cv p i s))
  = Rmax (IZR (horizon cv)) (wallHeight cv (perpWallDistOf p i s)).
Proof.
  unfold rectBottom, columnOf, startY. simpl.
  set (h := IZR (horizon cv)). set (w := wallHeight cv _).
  unfold Rmax.
  destruct (Rle_dec 0 (h - w)), (Rle_dec h w); lra.
Qed.

Lemma horizon_sampleCanvas : horizon sampleCanvas = 200%Z.
Proof.
  unfold horizon. change (screenHeight sampleCanvas) with 400%Z.
  apply Zfloor_eq. simpl. lra.
Qed.

Lemma wallHeight_close : 200 < wallHeight sampleCanvas 0.5.
Proof.
  unfold wallHeight, projectionPlane, orEpsilon.
  change (screenHeight sampleCanvas) with 400%Z.
  destruct (Req_dec_T 0.5 0) as [H | _]; [lra|].
  pose proof tan_half_FOV_bounds as [Hlo Hhi].
  set (t := tan (FOV / 2)) in *.
  assert (Heq : 400 / 2 / t / 0.5 = 400 * / t).
  { replace 0.5 with (1 / 2) by lra. field. lra. }
  rewrite Heq.
  apply Rmult_lt_reg_r with (r := t); [exact Hlo|].
  rewrite Rmult_assoc, Rinv_l by lra. lra.
Qed.

(** C4 (wall anchoring), evaluated where it fails.  Half a cell in front of
    a wall the central ray records depth 0.5 and the slice is taller than
    the half screen; its top is clipped to 0.  The patch statement draws it
    down to the horizon (row 200 of the 400-row view), and the texture
    statement that follows draws the slice again from the same top with
    the full wall height, so that its bottom edge lies below the horizon. *)
Theorem tall_slice_overshoots_horizon :
  exists col,
    castRay 31 sampleCanvas closePlayer 240 = Some col /\
    depth col = 0.5 /\
    IZR (horizon sampleCanvas) = IZR (screenHeight sampleCanvas) / 2 /\
    IZR (horizon sampleCanvas) < wallHeight sampleCanvas (depth col) /\
    rectY (patchSlice col) = 0 /\
    rectBottom (patchSlice col) = IZR (horizon sampleCanvas) /\
    rectY (textureSlice col) = 0 /\
    rectBottom (textureSlice col) = wallHeight sampleCanvas (depth col) /\
    IZR (horizon sampleCanvas) < rectBottom (textureSlice col).
Proof.
  destruct (march_east_from_close closePlayer 240 30)
    as (s & Hs & _ & _ & _ & Hd); try reflexivity;
    [apply central_ray_angle|].
  unfold castRay. change (1 + 30)%nat with 31%nat in Hs. rewrite Hs.
  eexists. split; [reflexivity|].
  pose proof wallHeight_close as Hw.
  assert (Hstart : startY sampleCanvas 0.5 = 0).
  { unfold startY. rewrite horizon_sampleCanvas. apply Rmax_left. lra. }
  rewrite textureSlice_bottom, patchSlice_bottom.
  unfold columnOf. cbn [depth patchSlice textureSlice rectY].
  rewrite Hd, Hstart, horizon_sampleCanvas.
  change (screenHeight sampleCanvas) with 400%Z.
  rewrite Rmax_right by lra.
  repeat split; lra.
Qed.

(** ** Floor occlusion *)






(** Pixel [k] of a scanline, in terms of the accumulated coordinates. *)
Lemma floorRow_nth (cv : Canvas) (p : Player) (zBufSq : list R)
  (sandData : option Texture) (shade stepX stepY : R) :
  forall (n k : nat) (x : Z) (floorX floorY : R),
    (k < n)%nat ->
    nth_error (floorRow n cv p zBufSq sandData shade stepX stepY
                 x floorX floorY) k
    = Some (if floorVisible cv p zBufSq (x + Z.of_nat k)
                 (accumulate k floorX stepX) (accumulate k floorY stepY)
            then floorColour sandData (accumulate k floorX stepX)
                   (accumulate k floorY stepY) shade
            else None).
Proof.
  induction n as [|n IH]; intros k x floorX floorY Hk; [lia|].
  destruct k as [|k].
  - simpl. rewrite Z.add_0_r. reflexivity.
  - simpl floorRow. simpl nth_error. rewrite IH by lia.
    replace (x + 1 + Z.of_nat k)%Z with (x + Z.of_nat (S k))%Z by lia.
    reflexivity.
Qed.



(** A scanline whose offset is not zero is a scanline at finite row
    distance. *)
Lemma floorScanline_finite (cv : Canvas) (p : Player) (zBufSq : list R)
  (sandData : option Texture) (yRow : Z) :
  rowOffset cv yRow <> 0 ->
  floorScanline cv p zBufSq sandData yRow
  = floorRow (Z.to_nat (width cv)) cv p zBufSq sandData
      (Rmin 1 (1 / (rowDistance cv yRow * 0.04)))
      (fst (scanStep cv p yRow)) (snd (scanStep cv p yRow))
      0%Z (fst (scanStart cv p yRow)) (snd (scanStart cv p yRow)).
Proof.
  intros Hp. unfold floorScanline.
  destruct (Req_dec_T (rowOffset cv yRow) 0); [contradiction | reflexivity].
Qed.




(** *** A frame at the spawn pose *)

Lemma updatePlayer_idle (dt : R) :
  updatePlayer dt initialPlayer = Normal idlePose.
Proof.
  unfold updatePlayer.
  assert (Hturn : turnedAngle dt initialPlayer = 0).
  { unfold turnedAngle, initialPlayer.
    cbn [turnLeft turnRight pangle].
    apply wrapAngle_fixed. pose proof PI_pos. lra. }
  assert (Hmove : moveVector dt initialPlayer = (0, 0)).
  { unfold moveVector, initialPlayer.
    cbn [moveForward moveBackward strafeLeft strafeRight]. reflexivity. }
  rewrite Hturn, Hmove. unfold initialPlayer.
  cbn [px py]. rewrite (Zfloor_eq 2 2.5), (Zfloor_eq 2 (2.5 + 0))
    by (simpl; lra).
  change (mapAt 2 2) with (Value 0). cbn [isZero Z.eqb].
  rewrite (Zfloor_eq 2 (2.5 + 0)) by (simpl; lra).
  change (mapAt 2 2) with (Value 0). reflexivity.
Qed.

(** An enemy on the player's row walks along that row: neither of its two
    cell tests can leave the grid. *)
Lemma updateEnemy_duel (dt : R) (v : Vitals) :
  exists e' v',
    updateEnemy dt idlePose (newEnemy 4.5 2.5) v = Normal (e', v').
Proof.
  unfold updateEnemy, newEnemy, idlePose.
  cbn [dying alive negb ex ey px py]. cbv zeta.
  set (dist := sqrt _).
  assert (Hvy : (if Rltb 0.001 dist
                 then (2.5 + 0 - 2.5) / dist else 2.5 + 0 - 2.5) = 0).
  { replace (2.5 + 0 - 2.5) with 0 by lra.
    destruct (Rltb 0.001 dist); [unfold Rdiv; apply Rmult_0_l | reflexivity]. }
  rewrite Hvy.
  replace (2.5 + 0 * 1.0 * dt) with 2.5 by lra.
  rewrite (Zfloor_eq 2 2.5), (Zfloor_eq 4 4.5) by (simpl; lra).
  assert (Hrow : forall c, mapAt 2 c <> Throws).
  { intros c. apply (mapAt_row_exists 2 2 c 0). reflexivity. }
  match goal with
  | |- context [mapAt 2 ?c] =>
      pose proof (Hrow c) as Hc; destruct (mapAt 2 c); [contradiction | |]
  end.
  - change (mapAt 2 4) with (Value 0). eexists. eexists. reflexivity.
  - change (mapAt 2 4) with (Value 0). eexists. eexists. reflexivity.
Qed.


Lemma idlePose_inside :
  0 < px idlePose < IZR mapWidth /\ 0 < py idlePose < IZR mapHeight.
Proof.
  rewrite mapWidth_value, mapHeight_value. simpl. lra.
Qed.



Lemma accumulate_closed (n : nat) :
  forall start step, accumulate n start step = start + INR n * step.
Proof.
  induction n as [|n IH]; intros start step.
  - simpl. lra.
  - simpl accumulate. rewrite IH, S_INR. lra.
Qed.

Lemma rowOffset_first_row : rowOffset sampleCanvas 0 <> 0.
Proof.
  unfold rowOffset. rewrite horizon_sampleCanvas.
  change (screenHeight sampleCanvas) with 400%Z. lra.
Qed.




(** ** The kill counter across shots and frames *)

(** The win test at the end of a frame: the session is won in the frame
    whose end finds the counter at or above the target, and the test leaves
    the counter alone. *)
Lemma spawnAndWin_win_test (rnd : nat -> R) (g g' : Game) :
  spawnAndWin rnd g = Normal g' ->
  kills g' = kills g /\
  ((TARGET_KILLS <= kills g)%Z ->
   gameOver g' = true /\ overlay g' = OverlayWin) /\
  ((kills g < TARGET_KILLS)%Z ->
   gameOver g' = gameOver g /\ overlay g' = overlay g).
Proof.
  unfold spawnAndWin.
  destruct (if _ : bool then _ else _) as [[es n] | [es n]];
    [|discriminate].
  cbv zeta. change (kills (setEnemies es g)) with (kills g).
  destruct (TARGET_KILLS <=? kills g)%Z eqn:Hwin; intros Heq;
    inversion Heq; subst g'.
  - apply Z.leb_le in Hwin. repeat split; try reflexivity; lia.
  - apply Z.leb_gt in Hwin. repeat split; try reflexivity; lia.
Qed.

(** The state after the first rifle shot of the duel. *)
Lemma first_shot_of_duel :
  shootWeapon duelGame =
  mkGame initialPlayer [mkEnemy 4.5 2.5 0 true true 0.6 1] []
    (mkWeapon 7 Infinity) (initialWeapon laser) shotgun
    false None false 1 100 100 0.15 0.1 0 playing OverlayHidden.
Proof.
  unfold shootWeapon, duelGame. simpl gameOver. simpl reloading.
  simpl orb. cbv iota. simpl selectedWeapon. simpl weapon.
  simpl magazine. simpl Z.leb. cbv iota zeta.
  simpl player. simpl enemies. unfold newEnemy.
  rewrite findTarget_ahead by (simpl; try reflexivity; lra).
  reflexivity.
Qed.

(** A frame of 16 ms after that shot: the enemy's death timer runs, its
    [alive] flag is still set. *)
Lemma frame_after_first_shot :
  exists g1,
    simulate 0.016 (shootWeapon duelGame) = Normal g1 /\
    player g1 = idlePose /\
    enemies g1 = [mkEnemy 4.5 2.5 0 true true (0.6 - 0.016)
                    (Rmax 0 ((0.6 - 0.016) / 0.6))] /\
    weaponShotgun g1 = mkWeapon 7 Infinity /\
    selectedWeapon g1 = shotgun /\
    reloading g1 = false /\ gameOver g1 = false /\ kills g1 = 1%Z.
Proof.
  rewrite first_shot_of_duel. unfold simulate. cbn [player].
  rewrite updatePlayer_idle. cbv zeta.
  cbn [enemies setPlayer updateEnemies updateEnemy dying deathTimer
       ex ey ehealth alive].
  unfold Rleb. destruct (Rle_dec (0.6 - 0.016) 0) as [Hle | _]; [lra|].
  eexists. split; [reflexivity|].
  repeat split; reflexivity.
Qed.

(** C1 (kill-count invariant), evaluated where it fails.  In a duel with a
    single enemy of health 60 straight ahead, the first rifle shot sends the
    enemy into its death animation and counts one kill.  A second shot fired
    before the frame loop has cleared the enemy's [alive] flag, whether at
    once or after a frame of 16 ms, selects the same enemy object again and
    counts a second kill for it. *)
Theorem dying_enemy_is_counted_twice :
  length (enemies duelGame) = 1%nat /\
  kills duelGame = 0%Z /\
  kills (shootWeapon duelGame) = 1%Z /\
  List.map dying (enemies (shootWeapon duelGame)) = [true] /\
  List.map alive (enemies (shootWeapon duelGame)) = [true] /\
  kills (shootWeapon (shootWeapon duelGame)) = 2%Z /\
  length (enemies (shootWeapon (shootWeapon duelGame))) = 1%nat /\
  exists g1,
    simulate 0.016 (shootWeapon duelGame) = Normal g1 /\
    length (enemies g1) = 1%nat /\
    kills g1 = 1%Z /\
    kills (shootWeapon g1) = 2%Z /\
    length (enemies (shootWeapon g1)) = 1%nat.
Proof.
  assert (H2 : shootWeapon (shootWeapon duelGame) =
    mkGame initialPlayer [mkEnemy 4.5 2.5 (-60) true true 0.6 1] []
      (mkWeapon 6 Infinity) (initialWeapon laser) shotgun
      false None false 2 100 100 0.15 0.1 0 playing OverlayHidden).
  { rewrite first_shot_of_duel. unfold shootWeapon. simpl gameOver.
    simpl reloading. simpl orb. cbv iota. simpl selectedWeapon.
    simpl weapon. simpl magazine. simpl Z.leb. cbv iota zeta.
    simpl player. simpl enemies.
    rewrite findTarget_ahead by (simpl; try reflexivity; lra).
    reflexivity. }
  rewrite H2, first_shot_of_duel.
  repeat split; try reflexivity.
  destruct frame_after_first_shot
    as (g1 & Hsim & Hp & He & Hw & Hsel & Hrel & Hover & Hk).
  rewrite <- first_shot_of_duel.
  exists g1. split; [exact Hsim|].
  assert (Hmag : (0 < magazine (weapon g1 (selectedWeapon g1)))%Z).
  { rewrite Hsel. simpl. rewrite Hw. simpl. lia. }
  pose proof (shootWeapon_fired g1 Hover Hrel Hmag) as Hshape.
  cbv zeta in Hshape. rewrite Hp, He, Hk, Hsel in Hshape.
  rewrite findTarget_ahead in Hshape by (simpl; try reflexivity; lra).
  cbn [hitAt hit alive negb ehealth damage fst snd] in Hshape.
  simpl Z.leb in Hshape. cbv iota in Hshape. cbn [fst snd] in Hshape.
  rewrite He, Hk.
  split; [reflexivity | split; [reflexivity|]].
  destruct Hshape as [-> | ->].
  - split; reflexivity.
  - match goal with
    | |- context [reloadWeapon ?g] =>
        destruct (reloadWeapon_frame g) as (_ & He' & _ & _ & _ & _ & Hk' & _)
    end.
    rewrite He', Hk'. split; reflexivity.
Qed.

(** * Further properties *)

(** ** Geometry of the grid march *)

Lemma deltaDist_nonneg (d : R) : 0 <= deltaDist d.
Proof.
  unfold deltaDist. destruct (Req_dec_T d 0); [lra | apply Rabs_pos].
Qed.

(** For a direction component that is not zero, a step times the length
    per cell times the component is one cell. *)
Lemma step_delta_dir (d : R) :
  d <> 0 -> IZR (stepOf d) * deltaDist d * d = 1.
Proof.
  intros Hd. unfold stepOf, deltaDist.
  destruct (Req_dec_T d 0) as [H0 | _]; [contradiction|].
  destruct (Rlt_dec d 0) as [Hneg | Hpos].
  - assert (Hinv : 1 / d < 0).
    { unfold Rdiv. rewrite Rmult_1_l. apply Rinv_lt_0_compat. exact Hneg. }
    rewrite (Rabs_left _ Hinv). simpl IZR. field. exact Hd.
  - rewrite Rabs_right.
    + field. exact Hd.
    + apply Rle_ge. unfold Rdiv. rewrite Rmult_1_l. apply Rlt_le.
      apply Rinv_0_lt_compat. lra.
Qed.

Lemma delta_dir (d : R) : d <> 0 -> deltaDist d * d = IZR (stepOf d).
Proof.
  intros Hd. pose proof (step_delta_dir d Hd) as H.
  destruct (stepOf_unit d) as [Hs | Hs]; rewrite Hs in *; simpl IZR in *; lra.
Qed.

Lemma step_square (d : R) : IZR (stepOf d) * IZR (stepOf d) = 1.
Proof. destruct (stepOf_unit d) as [-> | ->]; simpl; lra. Qed.

Lemma faceOf_step (d : R) (cell : Z) :
  faceOf d (cell + stepOf d) = faceOf d cell + IZR (stepOf d).
Proof.
  unfold faceOf, stepOf. destruct (Rlt_dec d 0); rewrite plus_IZR; simpl; lra.
Qed.

Lemma entryFace_step (d : R) (cell : Z) :
  entryFace d (cell + stepOf d) = faceOf d cell.
Proof.
  unfold entryFace, faceOf, stepOf.
  destruct (Rlt_dec d 0); rewrite plus_IZR; simpl; lra.
Qed.

(** The invariant holds when the loop is entered. *)
Lemma RayInv_start (p : Player) (i : nat) :
  RayInv (px p) (py p) (cos (rayAngle p i)) (sin (rayAngle p i))
         (ddaStart p i).
Proof.
  set (dX := cos (rayAngle p i)). set (dY := sin (rayAngle p i)).
  pose proof (Zfloor_bound (px p)) as [Hx1 Hx2].
  pose proof (Zfloor_bound (py p)) as [Hy1 Hy2].
  pose proof (deltaDist_nonneg dX) as HdX.
  pose proof (deltaDist_nonneg dY) as HdY.
  assert (Hsx : initialSideDist dX (px p) (Zfloor (px p))
                = (faceOf dX (Zfloor (px p)) - px p) * IZR (stepOf dX)
                  * deltaDist dX).
  { unfold initialSideDist, faceOf, stepOf.
    destruct (Rlt_dec dX 0); simpl IZR; lra. }
  assert (Hsy : initialSideDist dY (py p) (Zfloor (py p))
                = (faceOf dY (Zfloor (py p)) - py p) * IZR (stepOf dY)
                  * deltaDist dY).
  { unfold initialSideDist, faceOf, stepOf.
    destruct (Rlt_dec dY 0); simpl IZR; lra. }
  assert (Hfx : 0 <= initialSideDist dX (px p) (Zfloor (px p))
                /\ initialSideDist dX (px p) (Zfloor (px p))
                   - deltaDist dX <= 0).
  { unfold initialSideDist. destruct (Rlt_dec dX 0); split; nra. }
  assert (Hfy : 0 <= initialSideDist dY (py p) (Zfloor (py p))
                /\ initialSideDist dY (py p) (Zfloor (py p))
                   - deltaDist dY <= 0).
  { unfold initialSideDist. destruct (Rlt_dec dY 0); split; nra. }
  unfold ddaStart. fold dX. fold dY.
  constructor; cbn [sideDistX sideDistY mapX mapY]; try assumption;
    try tauto; lra.
Qed.

(** One iteration of the loop keeps the invariant. *)
Lemma RayInv_advance (pX pY dX dY : R) (s : Dda) :
  RayInv pX pY dX dY s ->
  RayInv pX pY dX dY
    (ddaAdvance (deltaDist dX) (deltaDist dY) (stepOf dX) (stepOf dY) s).
Proof.
  intros [Hx Hy Hxp Hyp Hxb Hyb].
  pose proof (deltaDist_nonneg dX) as HdX.
  pose proof (deltaDist_nonneg dY) as HdY.
  pose proof (step_square dX) as HsX.
  pose proof (step_square dY) as HsY.
  unfold ddaAdvance.
  destruct (Rlt_dec (sideDistX s) (sideDistY s)) as [Hlt | Hge];
    constructor; cbn [sideDistX sideDistY mapX mapY];
    rewrite ?faceOf_step; try assumption; try lra.
  - rewrite Hx.
    replace ((faceOf dX (mapX s) + IZR (stepOf dX) - pX) * IZR (stepOf dX)
             * deltaDist dX)
      with ((faceOf dX (mapX s) - pX) * IZR (stepOf dX) * deltaDist dX
            + IZR (stepOf dX) * IZR (stepOf dX) * deltaDist dX) by ring.
    rewrite HsX. ring.
  - rewrite Hy.
    replace ((faceOf dY (mapY s) + IZR (stepOf dY) - pY) * IZR (stepOf dY)
             * deltaDist dY)
      with ((faceOf dY (mapY s) - pY) * IZR (stepOf dY) * deltaDist dY
            + IZR (stepOf dY) * IZR (stepOf dY) * deltaDist dY) by ring.
    rewrite HsY. ring.
Qed.

(** A loop that has left did so in one last iteration from a state that
    satisfies whatever the iterations preserve. *)
Lemma ddaLoop_last_step (P : Dda -> Prop) (ddx ddy : R) (sx sy : Z) :
  (forall s, P s -> P (ddaAdvance ddx ddy sx sy s)) ->
  forall (fuel : nat) (s s' : Dda),
    P s -> ddaLoop fuel ddx ddy sx sy s = Some s' ->
    exists s0, P s0 /\ s' = withHit (ddaAdvance ddx ddy sx sy s0).
Proof.
  intros Hkeep. induction fuel as [|k IH]; intros s s' Hs Hrun;
    [discriminate|].
  simpl in Hrun.
  destruct (outOfBounds _ _).
  - inversion Hrun. exists s. split; [exact Hs | reflexivity].
  - destruct (isWall _).
    + inversion Hrun. exists s. split; [exact Hs | reflexivity].
    + apply (IH _ _ (Hkeep s Hs) Hrun).
Qed.

Lemma marchRay_last_step (p : Player) (i fuel : nat) (s : Dda) :
  marchRay fuel p i = Some s ->
  exists s0,
    RayInv (px p) (py p) (cos (rayAngle p i)) (sin (rayAngle p i)) s0 /\
    s = withHit (ddaAdvance (deltaDist (cos (rayAngle p i)))
                   (deltaDist (sin (rayAngle p i)))
                   (stepOf (cos (rayAngle p i)))
                   (stepOf (sin (rayAngle p i))) s0).
Proof.
  intros Hrun. unfold marchRay in Hrun.
  apply (ddaLoop_last_step
           (RayInv (px p) (py p) (cos (rayAngle p i)) (sin (rayAngle p i)))
           _ _ _ _ (RayInv_advance _ _ _ _) fuel (ddaStart p i) s
           (RayInv_start p i) Hrun).
Qed.

(** The depth recorded for a ray is never negative. *)
Lemma depth_nonneg (p : Player) (i fuel : nat) (s : Dda) :
  marchRay fuel p i = Some s -> 0 <= perpWallDistOf p i s.
Proof.
  intros Hrun.
  destruct (marchRay_last_step p i fuel s Hrun) as (s0 & Hinv & ->).
  destruct Hinv as [_ _ Hxp Hyp _ _].
  unfold perpWallDistOf, withHit, ddaAdvance.
  destruct (Rlt_dec (sideDistX s0) (sideDistY s0));
    cbn [hitFlag side sideDistX sideDistY]; simpl Z.eqb; cbv iota; lra.
Qed.

Lemma unit_ray_length (a d : R) :
  0 <= d -> sqrt ((d * cos a) * (d * cos a) + (d * sin a) * (d * sin a)) = d.
Proof.
  intros Hd. pose proof (sin2_cos2 a) as Hunit. unfold Rsqr in Hunit.
  replace ((d * cos a) * (d * cos a) + (d * sin a) * (d * sin a))
    with (d * d * (sin a * sin a + cos a * cos a)) by ring.
  rewrite Hunit, Rmult_1_r. apply sqrt_square. exact Hd.
Qed.

(** The range on the axis that was not crossed last: the ray point at the
    recorded length lies within the cell on that axis. *)
Lemma other_axis_range (pos dir sd t : R) (cell : Z) :
  dir <> 0 ->
  sd = (faceOf dir cell - pos) * IZR (stepOf dir) * deltaDist dir ->
  sd - deltaDist dir <= t -> t <= sd ->
  IZR cell <= pos + t * dir <= IZR cell + 1.
Proof.
  intros Hdir Hsd Hback Hfront.
  pose proof (delta_dir dir Hdir) as Hdd.
  assert (Hsdd : sd * dir = faceOf dir cell - pos).
  { rewrite Hsd.
    replace ((faceOf dir cell - pos) * IZR (stepOf dir) * deltaDist dir * dir)
      with ((faceOf dir cell - pos)
            * (IZR (stepOf dir) * deltaDist dir * dir)) by ring.
    rewrite (step_delta_dir dir Hdir). ring. }
  unfold faceOf, stepOf in *.
  destruct (Rlt_dec dir 0) as [Hneg | Hpos]; simpl IZR in *.
  - assert (H1 : sd * dir <= t * dir) by nra.
    assert (H2 : t * dir <= (sd - deltaDist dir) * dir) by nra.
    lra.
  - assert (Hp : 0 < dir) by lra.
    assert (H1 : t * dir <= sd * dir) by nra.
    assert (H2 : (sd - deltaDist dir) * dir <= t * dir) by nra.
    lra.
Qed.

Lemma crossed_axis_point (pos dir sd : R) (cell : Z) :
  dir <> 0 ->
  sd = (faceOf dir cell - pos) * IZR (stepOf dir) * deltaDist dir ->
  pos + sd * dir = entryFace dir (cell + stepOf dir).
Proof.
  intros Hdir Hsd. rewrite entryFace_step, Hsd.
  replace ((faceOf dir cell - pos) * IZR (stepOf dir) * deltaDist dir * dir)
    with ((faceOf dir cell - pos)
          * (IZR (stepOf dir) * deltaDist dir * dir)) by ring.
  rewrite (step_delta_dir dir Hdir). ring.
Qed.

(** The depth recorded for a ray is its length up to the point where it
    enters the cell on which the march ended; that point lies on the face
    of the cell through which the ray entered, within the extent of the
    cell, and at Euclidean distance [depth] from the player. *)
Theorem ray_hit_point (p : Player) (i fuel : nat) (s : Dda) :
  cos (rayAngle p i) <> 0 ->
  sin (rayAngle p i) <> 0 ->
  marchRay fuel p i = Some s ->
  let d := perpWallDistOf p i s in
  0 <= d /\
  ((side s = 0%Z /\
    rayPointX p i d = entryFace (cos (rayAngle p i)) (mapX s) /\
    IZR (mapY s) <= rayPointY p i d <= IZR (mapY s) + 1) \/
   (side s = 1%Z /\
    rayPointY p i d = entryFace (sin (rayAngle p i)) (mapY s) /\
    IZR (mapX s) <= rayPointX p i d <= IZR (mapX s) + 1)) /\
  sqrt ((rayPointX p i d - px p) * (rayPointX p i d - px p)
        + (rayPointY p i d - py p) * (rayPointY p i d - py p)) = d.
Proof.
  intros Hc Hs Hrun d.
  pose proof (depth_nonneg p i fuel s Hrun) as Hd. fold d in Hd.
  split; [exact Hd | split].
  - destruct (marchRay_last_step p i fuel s Hrun) as (s0 & Hinv & Heq).
    destruct Hinv as [Hx Hy Hxp Hyp Hxb Hyb].
    unfold rayPointX, rayPointY. subst d. subst s.
    unfold perpWallDistOf, withHit, ddaAdvance.
    destruct (Rlt_dec (sideDistX s0) (sideDistY s0)) as [Hlt | Hge];
      cbn [hitFlag side sideDistX sideDistY mapX mapY]; simpl Z.eqb;
      cbv iota.
    + left. split; [reflexivity|].
      replace (sideDistX s0 + deltaDist (cos (rayAngle p i))
               - deltaDist (cos (rayAngle p i)))
        with (sideDistX s0) by ring.
      split.
      * apply crossed_axis_point; assumption.
      * apply (other_axis_range _ _ (sideDistY s0)); try assumption; lra.
    + right. split; [reflexivity|].
      replace (sideDistY s0 + deltaDist (sin (rayAngle p i))
               - deltaDist (sin (rayAngle p i)))
        with (sideDistY s0) by ring.
      split.
      * apply crossed_axis_point; assumption.
      * apply (other_axis_range _ _ (sideDistX s0)); try assumption; lra.
  - unfold rayPointX, rayPointY.
    replace (px p + d * cos (rayAngle p i) - px p)
      with (d * cos (rayAngle p i)) by ring.
    replace (py p + d * sin (rayAngle p i) - py p)
      with (d * sin (rayAngle p i)) by ring.
    apply unit_ray_length. exact Hd.
Qed.

Lemma leftmost_ray_direction :
  cos (rayAngle initialPlayer 0) <> 0 /\ sin (rayAngle initialPlayer 0) <> 0.
Proof.
  rewrite leftmost_ray_angle. simpl pangle.
  replace (0 - FOV / 2) with (- (FOV / 2)) by lra.
  rewrite cos_neg, sin_neg.
  pose proof half_FOV_bounds as [Hlo Hhi]. pose proof PI_pos as Hpi.
  assert (Hc : 0 < cos (FOV / 2)) by (apply cos_gt_0; lra).
  assert (Hs : 0 < sin (FOV / 2)) by (apply sin_gt_0; lra).
  split; lra.
Qed.

Lemma ray_hit_point_witness :
  exists s, marchRay 31 initialPlayer 0 = Some s /\
            0 <= perpWallDistOf initialPlayer 0 s.
Proof.
  assert (Hx : 0 < px initialPlayer < IZR mapWidth)
    by (rewrite mapWidth_value; simpl; lra).
  assert (Hy : 0 < py initialPlayer < IZR mapHeight)
    by (rewrite mapHeight_value; simpl; lra).
  destruct (marchRay_terminates initialPlayer 0 31 Hx Hy (le_n 31))
    as (s & Hs & _).
  destruct leftmost_ray_direction as [Hc Hsn].
  destruct (ray_hit_point initialPlayer 0 31 s Hc Hsn Hs) as (Hd & _).
  exists s. split; [exact Hs | exact Hd].
Defined.

(** ** Extent of the wall slices *)

Lemma projectionPlane_nonneg (cv : Canvas) :
  (0 <= screenHeight cv)%Z -> 0 <= projectionPlane cv.
Proof.
  intros Hh. unfold projectionPlane. apply IZR_le in Hh.
  pose proof tan_half_FOV_bounds as [Hlo _].
  apply Rmult_le_pos; [lra|]. apply Rlt_le. apply Rinv_0_lt_compat.
  exact Hlo.
Qed.

Lemma wallHeight_nonneg (cv : Canvas) (d : R) :
  (0 <= screenHeight cv)%Z -> 0 <= d -> 0 <= wallHeight cv d.
Proof.
  intros Hh Hd. unfold wallHeight, orEpsilon.
  pose proof (projectionPlane_nonneg cv Hh) as Hp.
  apply Rmult_le_pos; [exact Hp|]. apply Rlt_le. apply Rinv_0_lt_compat.
  destruct (Req_dec_T d 0); lra.
Qed.

Lemma horizon_nonneg (cv : Canvas) :
  (0 <= screenHeight cv)%Z -> 0 <= IZR (horizon cv).
Proof.
  intros Hh. unfold horizon. apply IZR_le. apply Zfloor_lub.
  apply IZR_le in Hh. simpl. lra.
Qed.

(** Whatever the pose of the player, the slice drawn for a ray by the
    patched statement has a depth that is not negative, starts at a row
    between 0 and the horizon, and ends on the horizon: it never reaches
    above the canvas nor below the horizon. *)
Theorem patch_slice_within_upper_view (fuel : nat) (cv : Canvas)
  (p : Player) (i : nat) (col : Column) :
  (0 <= screenHeight cv)%Z ->
  castRay fuel cv p i = Some col ->
  0 <= depth col /\
  0 <= rectY (patchSlice col) <= IZR (horizon cv) /\
  0 <= rectH (patchSlice col) <= IZR (horizon cv) /\
  rectBottom (patchSlice col) = IZR (horizon cv).
Proof.
  intros Hh Hcast. unfold castRay in Hcast.
  destruct (marchRay fuel p i) as [s|] eqn:Hs; [|discriminate].
  inversion Hcast; subst col.
  pose proof (depth_nonneg p i fuel s Hs) as Hd.
  pose proof (wallHeight_nonneg cv _ Hh Hd) as Hw.
  pose proof (horizon_nonneg cv Hh) as Hhz.
  rewrite patchSlice_bottom.
  unfold columnOf, startY, endY. cbn [depth patchSlice rectY rectH].
  set (h := IZR (horizon cv)) in *.
  set (w := wallHeight cv (perpWallDistOf p i s)) in *.
  unfold Rmax. destruct (Rle_dec 0 (h - w)); repeat split; lra.
Qed.

Lemma patch_slice_witness :
  exists col, castRay 31 sampleCanvas initialPlayer 240 = Some col /\
              0 <= rectY (patchSlice col) <= IZR (horizon sampleCanvas).
Proof.
  destruct (central_ray_depth_at_spawn sampleCanvas) as (col & Hc & _).
  assert (Hh : (0 <= screenHeight sampleCanvas)%Z)
    by (change (screenHeight sampleCanvas) with 400%Z; lia).
  destruct (patch_slice_within_upper_view 31 sampleCanvas initialPlayer 240
              col Hh Hc) as (_ & Hy & _).
  exists col. split; [exact Hc | exact Hy].
Defined.

(** Every ray lies within the field of view, and the ray angle grows with
    the ray index. *)
Theorem rays_within_field_of_view (p : Player) (i j : nat) :
  (i < j)%nat -> (j < numRays)%nat ->
  - (FOV / 2) <= rayOffset p i /\
  rayOffset p i < rayOffset p j /\
  rayOffset p j < FOV / 2 /\
  rayAngle p i < rayAngle p j.
Proof.
  intros Hij Hj. rewrite !rayOffset_formula.
  assert (Hrel : rayAngle p j - rayAngle p i
                 = FOV * INR j / 480 - FOV * INR i / 480).
  { unfold rayAngle. rewrite INR_numRays. lra. }
  pose proof FOV_pos as Hfov.
  pose proof (pos_INR i) as Hi0.
  apply lt_INR in Hij. apply lt_INR in Hj. rewrite INR_numRays in Hj.
  repeat split; nra.
Qed.

Lemma rays_within_field_of_view_witness :
  rayAngle initialPlayer 0 < rayAngle initialPlayer 479.
Proof.
  assert (H1 : (0 < 479)%nat) by lia.
  assert (H2 : (479 < numRays)%nat) by (unfold numRays; lia).
  destruct (rays_within_field_of_view initialPlayer 0 479 H1 H2)
    as (_ & _ & _ & H).
  exact H.
Defined.

(** ** Effects of a shot *)

Lemma hitRel_refl (e : Enemy) : hitRel e e.
Proof. unfold hitRel. repeat split; try reflexivity; try lia. Qed.

Lemma damage_pos (k : WeaponKey) : (0 < damage k)%Z.
Proof. destruct k; simpl; lia. Qed.

Lemma hit_hitRel (dmg : Z) (e : Enemy) (k : Z) :
  (0 <= dmg)%Z -> hitRel e (fst (hit dmg e k)).
Proof.
  intros Hd. unfold hit. destruct (alive e) eqn:Ha; simpl negb; cbv iota.
  - cbv zeta. destruct (ehealth e - dmg <=? 0)%Z; simpl fst;
      unfold hitRel; cbn [ex ey alive ehealth];
      repeat split; try reflexivity; try lia; try congruence.
  - apply hitRel_refl.
Qed.

Lemma Forall2_hitRel_refl (es : list Enemy) : Forall2 hitRel es es.
Proof. induction es; constructor; [apply hitRel_refl | assumption]. Qed.

Lemma hitAt_hitRel (dmg : Z) :
  (0 <= dmg)%Z ->
  forall es i k, Forall2 hitRel es (fst (hitAt i dmg es k)).
Proof.
  intros Hd. induction es as [|e rest IH]; intros i k.
  - destruct i; constructor.
  - destruct i as [|j]; simpl.
    + pose proof (hit_hitRel dmg e k Hd) as He.
      destruct (hit dmg e k) as [e' k']. simpl in *.
      constructor; [exact He | apply Forall2_hitRel_refl].
    + specialize (IH j k). destruct (hitAt j dmg rest k) as [rest' k'].
      simpl in *. constructor; [apply hitRel_refl | exact IH].
Qed.

Lemma hitAt_kills (dmg : Z) :
  forall es i k,
    (k <= snd (hitAt i dmg es k) <= k + 1)%Z.
Proof.
  induction es as [|e rest IH]; intros i k.
  - destruct i; simpl; lia.
  - destruct i as [|j]; simpl.
    + pose proof (hit_kills_step dmg e k) as Hk.
      destruct (hit dmg e k) as [e' k']. simpl in *. lia.
    + specialize (IH j k). destruct (hitAt j dmg rest k) as [rest' k'].
      simpl in *. exact IH.
Qed.

(** The three ways a call of [shootWeapon] can go. *)
Lemma shootWeapon_cases (g : Game) :
  shootWeapon g = g \/
  (gameOver g = false /\ reloading g = false /\
   (magazine (weapon g (selectedWeapon g)) <= 0)%Z /\
   shootWeapon g = reloadWeapon g) \/
  (gameOver g = false /\ reloading g = false /\
   (0 < magazine (weapon g (selectedWeapon g)))%Z).
Proof.
  unfold shootWeapon.
  destruct (gameOver g) eqn:Hover; [left; reflexivity|].
  destruct (reloading g) eqn:Hrel; [left; reflexivity|].
  simpl orb. cbv iota.
  destruct (magazine (weapon g (selectedWeapon g)) <=? 0)%Z eqn:Hmag.
  - apply Z.leb_le in Hmag.
    destruct (ammoPositive _); [right; left | left]; auto.
  - apply Z.leb_gt in Hmag. right; right. auto.
Qed.

(** A reload request only writes the reloading flag and the timer. *)
Lemma reloadWeapon_rest (g : Game) :
  health (reloadWeapon g) = health g /\
  armor (reloadWeapon g) = armor g /\
  damageFlash (reloadWeapon g) = damageFlash g /\
  muzzleTimer (reloadWeapon g) = muzzleTimer g /\
  bulletTimer (reloadWeapon g) = bulletTimer g /\
  gameState (reloadWeapon g) = gameState g /\
  overlay (reloadWeapon g) = overlay g.
Proof.
  destruct (reloadWeapon_cases g) as [-> | [_ ->]]; repeat split; reflexivity.
Qed.

(** The fields a shot leaves alone, and the shape of those it writes. *)
Lemma shootWeapon_effect (g : Game) :
  let g' := shootWeapon g in
  player g' = player g /\ decorations g' = decorations g /\
  selectedWeapon g' = selectedWeapon g /\ gameOver g' = gameOver g /\
  health g' = health g /\ armor g' = armor g /\
  damageFlash g' = damageFlash g /\
  gameState g' = gameState g /\ overlay g' = overlay g /\
  Forall2 hitRel (enemies g) (enemies g') /\
  (kills g <= kills g' <= kills g + 1)%Z /\
  ((muzzleTimer g' = muzzleTimer g /\ bulletTimer g' = bulletTimer g) \/
   (muzzleTimer g' = 0.15 /\ bulletTimer g' = 0.1)).
Proof.
  cbv zeta.
  assert (Hvia : forall g3,
    player g3 = player g /\ decorations g3 = decorations g /\
    selectedWeapon g3 = selectedWeapon g /\ gameOver g3 = gameOver g /\
    health g3 = health g /\ armor g3 = armor g /\
    damageFlash g3 = damageFlash g /\
    gameState g3 = gameState g /\ overlay g3 = overlay g /\
    Forall2 hitRel (enemies g) (enemies g3) /\
    (kills g <= kills g3 <= kills g + 1)%Z /\
    ((muzzleTimer g3 = muzzleTimer g /\ bulletTimer g3 = bulletTimer g) \/
     (muzzleTimer g3 = 0.15 /\ bulletTimer g3 = 0.1)) ->
    player (reloadWeapon g3) = player g /\
    decorations (reloadWeapon g3) = decorations g /\
    selectedWeapon (reloadWeapon g3) = selectedWeapon g /\
    gameOver (reloadWeapon g3) = gameOver g /\
    health (reloadWeapon g3) = health g /\
    armor (reloadWeapon g3) = armor g /\
    damageFlash (reloadWeapon g3) = damageFlash g /\
    gameState (reloadWeapon g3) = gameState g /\
    overlay (reloadWeapon g3) = overlay g /\
    Forall2 hitRel (enemies g) (enemies (reloadWeapon g3)) /\
    (kills g <= kills (reloadWeapon g3) <= kills g + 1)%Z /\
    ((muzzleTimer (reloadWeapon g3) = muzzleTimer g /\
      bulletTimer (reloadWeapon g3) = bulletTimer g) \/
     (muzzleTimer (reloadWeapon g3) = 0.15 /\
      bulletTimer (reloadWeapon g3) = 0.1))).
  { intros g3 H.
    destruct (reloadWeapon_frame g3)
      as (Hp & He & Hd & _ & _ & Hsel & Hk & Hov).
    destruct (reloadWeapon_rest g3)
      as (Hh & Ha & Hf & Hmz & Hbl & Hgs & Hol).
    rewrite Hp, He, Hd, Hsel, Hk, Hov, Hh, Ha, Hf, Hmz, Hbl, Hgs, Hol.
    exact H. }
  assert (Hself :
    player g = player g /\ decorations g = decorations g /\
    selectedWeapon g = selectedWeapon g /\ gameOver g = gameOver g /\
    health g = health g /\ armor g = armor g /\
    damageFlash g = damageFlash g /\
    gameState g = gameState g /\ overlay g = overlay g /\
    Forall2 hitRel (enemies g) (enemies g) /\
    (kills g <= kills g <= kills g + 1)%Z /\
    ((muzzleTimer g = muzzleTimer g /\ bulletTimer g = bulletTimer g) \/
     (muzzleTimer g = 0.15 /\ bulletTimer g = 0.1))).
  { repeat split; try reflexivity; try lia.
    - apply Forall2_hitRel_refl.
    - left. split; reflexivity. }
  destruct (shootWeapon_cases g) as [Hs | [(_ & _ & _ & Hs) | (Ho & Hr & Hm)]].
  - rewrite Hs. exact Hself.
  - rewrite Hs. apply Hvia. exact Hself.
  - pose proof (shootWeapon_fired g Ho Hr Hm) as Hshape.
    cbv zeta in Hshape.
    set (g3 := setMuzzleBullet 0.15 0.1 _) in Hshape.
    assert (H3 :
      player g3 = player g /\ decorations g3 = decorations g /\
      selectedWeapon g3 = selectedWeapon g /\ gameOver g3 = gameOver g /\
      health g3 = health g /\ armor g3 = armor g /\
      damageFlash g3 = damageFlash g /\
      gameState g3 = gameState g /\ overlay g3 = overlay g /\
      Forall2 hitRel (enemies g) (enemies g3) /\
      (kills g <= kills g3 <= kills g + 1)%Z /\
      ((muzzleTimer g3 = muzzleTimer g /\ bulletTimer g3 = bulletTimer g) \/
       (muzzleTimer g3 = 0.15 /\ bulletTimer g3 = 0.1))).
    { subst g3.
      destruct (findTarget (player g) (enemies g) 0 None None) as [t|].
      - repeat split; try reflexivity.
        + simpl. apply hitAt_hitRel.
          pose proof (damage_pos (selectedWeapon g)). lia.
        + simpl. apply hitAt_kills.
        + simpl. apply hitAt_kills.
        + right. split; reflexivity.
      - repeat split; try reflexivity; simpl; try lia.
        + apply Forall2_hitRel_refl.
        + right. split; reflexivity. }
    destruct Hshape as [-> | ->]; [exact H3 | apply Hvia; exact H3].
Qed.

(** A shot never moves an enemy, never changes an [alive] flag and never
    raises a health; it leaves enemies whose flag is cleared untouched; it
    keeps the number of enemies; and it adds at most one to the kill
    counter, which it never lowers. *)
Theorem shot_only_lowers_health (g : Game) :
  Forall2 hitRel (enemies g) (enemies (shootWeapon g)) /\
  length (enemies (shootWeapon g)) = length (enemies g) /\
  (kills g <= kills (shootWeapon g) <= kills g + 1)%Z /\
  player (shootWeapon g) = player g /\
  health (shootWeapon g) = health g /\
  armor (shootWeapon g) = armor g.
Proof.
  destruct (shootWeapon_effect g)
    as (Hp & _ & _ & _ & Hh & Ha & _ & _ & _ & He & Hk & _).
  repeat split; try assumption; try lia.
  symmetry. exact (Forall2_length He).
Qed.

(** A shot that is fired, with the test that follows it. *)
Lemma shootWeapon_fired_exact (g : Game) :
  gameOver g = false -> reloading g = false ->
  (0 < magazine (weapon g (selectedWeapon g)))%Z ->
  let k := selectedWeapon g in
  exists g3,
    weapon g3 k
    = mkWeapon (magazine (weapon g k) - 1)%Z (totalAmmo (weapon g k)) /\
    weapon g3 (otherWeapon k) = weapon g (otherWeapon k) /\
    reloading g3 = false /\ reloadTimer g3 = reloadTimer g /\
    selectedWeapon g3 = k /\
    shootWeapon g
    = if (magazine (weapon g k) - 1 <=? 0)%Z
         && ammoPositive (totalAmmo (weapon g k))
      then reloadWeapon g3 else g3.
Proof.
  intros Hover Hrel Hmag k. unfold shootWeapon.
  rewrite Hover, Hrel. simpl orb. cbv iota.
  apply Z.leb_gt in Hmag. rewrite Hmag. cbv zeta. fold k.
  cbn [magazine totalAmmo].
  match goal with
  | |- context [reloadWeapon ?X] => exists X
  end.
  destruct (findTarget _ _ _ _ _); [destruct (hitAt _ _ _ _)|];
    (split; [destruct k; reflexivity|]);
    (split; [destruct k; reflexivity|]);
    (split; [exact Hrel|]);
    (split; [reflexivity|]);
    (split; reflexivity).
Qed.

(** Firing the last round of a magazine whose reserve is not empty starts
    the reload at once: the magazine is at 0, the reloading flag is raised
    and the timeout is pending for the selected weapon. *)
Theorem last_round_starts_reload (g : Game) :
  gameOver g = false ->
  reloading g = false ->
  magazine (weapon g (selectedWeapon g)) = 1%Z ->
  ammoPositive (totalAmmo (weapon g (selectedWeapon g))) = true ->
  magazine (weapon (shootWeapon g) (selectedWeapon g)) = 0%Z /\
  reloading (shootWeapon g) = true /\
  reloadTimer (shootWeapon g) = Some (selectedWeapon g).
Proof.
  intros Hover Hrel Hmag Hres.
  assert (Hpos : (0 < magazine (weapon g (selectedWeapon g)))%Z) by lia.
  destruct (shootWeapon_fired_exact g Hover Hrel Hpos)
    as (g3 & Hw & _ & Hr3 & _ & Hsel & Hshoot).
  rewrite Hmag, Hres in Hshoot. simpl in Hshoot. rewrite Hmag in Hw.
  simpl in Hw.
  assert (Harm : reloadWeapon g3
                 = setReload true (Some (selectedWeapon g)) g3).
  { unfold reloadWeapon. rewrite Hr3, Hsel, Hw. cbn [magazine totalAmmo].
    rewrite ammoExhausted_positive, Hres.
    pose proof (ammoCapacity_pos (selectedWeapon g)) as Hcap.
    apply Z.leb_gt in Hcap. rewrite Hcap. reflexivity. }
  rewrite Hshoot, Harm.
  assert (Hkeep : weapon (setReload true (Some (selectedWeapon g)) g3)
                    (selectedWeapon g) = weapon g3 (selectedWeapon g)).
  { destruct (selectedWeapon g); reflexivity. }
  rewrite Hkeep, Hw. repeat split; reflexivity.
Qed.

Lemma last_round_witness :
  reloading
    (shootWeapon
       (mkGame initialPlayer [] [] (mkWeapon 1 Infinity)
          (initialWeapon laser) shotgun false None false 0 100 100 0 0 0
          playing OverlayHidden)) = true.
Proof.
  destruct (last_round_starts_reload
              (mkGame initialPlayer [] [] (mkWeapon 1 Infinity)
                 (initialWeapon laser) shotgun false None false 0 100 100
                 0 0 0 playing OverlayHidden)
              eq_refl eq_refl eq_refl eq_refl) as (_ & Hr & _).
  exact Hr.
Defined.

(** ** Contact damage and the enemy loop *)

Lemma Rleb_true_iff (a b : R) : Rleb a b = true <-> a <= b.
Proof.
  unfold Rleb. destruct (Rle_dec a b); split; intros; try assumption;
    try reflexivity; try discriminate; contradiction.
Qed.

(** How one application of contact damage is split between armour and
    health. *)
Lemma contactDamage_split (dt : R) (v : Vitals) :
  0 <= dt -> 0 <= vArmor v ->
  let v' := contactDamage dt v in
  (vHealth v - vHealth v') + (vArmor v - vArmor v') = 10 * dt /\
  vArmor v - vArmor v' = Rmin (vArmor v) (6 * dt) /\
  0 <= vArmor v' <= vArmor v /\
  vHealth v' <= vHealth v /\
  (vHealth v' <= 0 -> vGameOver v' = true /\ vOverlay v' = OverlayGameOver) /\
  (0 < vHealth v' -> vGameOver v' = vGameOver v /\ vOverlay v' = vOverlay v).
Proof.
  intros Hdt Harm. cbv zeta. unfold contactDamage. cbv zeta.
  assert (Hmin : Rmin (vArmor v) (10 * dt * 0.6) = Rmin (vArmor v) (6 * dt)).
  { f_equal. lra. }
  rewrite Hmin.
  set (hit := Rmin (vArmor v) (6 * dt)).
  assert (Hhit : 0 <= hit <= vArmor v /\ hit <= 6 * dt).
  { unfold hit, Rmin. destruct (Rle_dec (vArmor v) (6 * dt)); lra. }
  unfold Rltb, Rleb.
  destruct (Rlt_dec 0 (10 * dt - hit)) as [Hpos | Hzero].
  - destruct (Rle_dec (vHealth v - (10 * dt - hit)) 0) as [Hdead | Hlive];
      cbn [vHealth vArmor vGameOver vOverlay];
      repeat split; try lra;
      intros Hh; first [split; reflexivity | exfalso; lra].
  - destruct (Rle_dec (vHealth v) 0) as [Hdead | Hlive];
      cbn [vHealth vArmor vGameOver vOverlay];
      repeat split; try lra;
      intros Hh; first [split; reflexivity | exfalso; lra].
Qed.

(** Contact damage of 10 per second: armour takes 60 % of it as long as it
    lasts and health the rest, so that together they lose exactly
    [10 * dt]; the armour does not become negative; and the game is flagged
    over when the health is used up. *)
Theorem contactDamage_accounts_for_damage (dt : R) (v : Vitals) :
  0 <= dt -> 0 <= vArmor v ->
  let v' := contactDamage dt v in
  (vHealth v - vHealth v') + (vArmor v - vArmor v') = 10 * dt /\
  vArmor v - vArmor v' = Rmin (vArmor v) (6 * dt) /\
  0 <= vArmor v' <= vArmor v /\
  vHealth v' <= vHealth v /\
  (vHealth v' <= 0 -> vGameOver v' = true /\ vOverlay v' = OverlayGameOver) /\
  (0 < vHealth v' -> vGameOver v' = vGameOver v /\ vOverlay v' = vOverlay v).
Proof. apply contactDamage_split. Qed.

Lemma contactDamage_witness :
  vHealth (contactDamage 0.1 (mkVitals 100 50 0 false OverlayHidden)) <= 100.
Proof.
  assert (Hdt : 0 <= 0.1) by lra.
  assert (Ha : 0 <= vArmor (mkVitals 100 50 0 false OverlayHidden))
    by (simpl; lra).
  destruct (contactDamage_accounts_for_damage 0.1
              (mkVitals 100 50 0 false OverlayHidden) Hdt Ha)
    as (_ & _ & _ & Hh & _).
  exact Hh.
Defined.

Lemma contactDamage_ok (dt : R) (v : Vitals) :
  0 <= dt -> vitalsOk v ->
  vitalsOk (contactDamage dt v) /\ vitalsWorse v (contactDamage dt v).
Proof.
  intros Hdt (Harm & Hflash & Hlost).
  destruct (contactDamage_split dt v Hdt Harm)
    as (_ & _ & Ha & Hh & Hdead & Hlive).
  assert (Hf : 0 <= vFlash (contactDamage dt v) <= 1).
  { unfold contactDamage. cbv zeta.
    destruct (Rltb 0 _); destruct (Rleb _ 0); cbn [vFlash]; lra. }
  split.
  - split; [lra | split; [exact Hf|]]. intros Hle. apply Hdead. exact Hle.
  - split; [exact Hh | split; [lra|]]. intros Hover.
    destruct (Rle_dec (vHealth (contactDamage dt v)) 0) as [Hle | Hgt].
    + apply Hdead. exact Hle.
    + destruct Hlive as [Hsame _]; [lra|]. rewrite Hsame. exact Hover.
Qed.

Lemma vitalsWorse_refl (v : Vitals) : vitalsWorse v v.
Proof. unfold vitalsWorse. repeat split; try lra. tauto. Qed.

Lemma vitalsWorse_trans (a b c : Vitals) :
  vitalsWorse a b -> vitalsWorse b c -> vitalsWorse a c.
Proof.
  intros (H1 & H2 & H3) (H4 & H5 & H6). unfold vitalsWorse.
  repeat split; try lra. tauto.
Qed.

Lemma agedRel_refl (e : Enemy) : agedRel e e.
Proof. unfold agedRel. tauto. Qed.

(** One pass of the enemy loop over one enemy. *)
Lemma updateEnemy_effect (dt : R) (p : Player) (e : Enemy) (v : Vitals) :
  0 <= dt ->
  let r := stateOf (updateEnemy dt p e v) in
  agedRel e (fst r) /\
  (vitalsOk v -> vitalsOk (snd r) /\ vitalsWorse v (snd r)) /\
  (dying e = true \/ alive e = false ->
   ex (fst r) = ex e /\ ey (fst r) = ey e /\ snd r = v).
Proof.
  intros Hdt. cbv zeta. unfold updateEnemy.
  destruct (dying e) eqn:Hdy.
  - destruct (Rleb (deathTimer e - dt) 0); cbn [stateOf fst snd];
      (split; [unfold agedRel; cbn [alive ehealth]; split;
               [intros H; first [discriminate | destruct (alive e);
                                 [reflexivity | discriminate]]
               | reflexivity]
              | split; [intros Hok; split;
                        [exact Hok | apply vitalsWorse_refl]
                       | intros _; repeat split; reflexivity]]).
  - destruct (alive e) eqn:Hal; simpl negb; cbv iota.
    + cbv zeta.
      match goal with
      | |- context [match ?m with Throws => _ | Undefined => ?a | Value z => _ end] =>
          destruct m as [| |cx]
      end.
      * cbn [stateOf fst snd].
        split; [apply agedRel_refl|].
        split; [intros Hok; split; [exact Hok | apply vitalsWorse_refl]|].
        intros [H | H]; discriminate.
      * match goal with
        | |- context [match ?m with Throws => _ | Undefined => ?a | Value z => _ end] =>
            destruct m as [| |cy]
        end;
        cbn [stateOf fst snd];
        (split; [unfold agedRel, withPosition; cbn [alive ehealth]; tauto|]);
        (split; [| intros [H | H]; discriminate]);
        intros Hok;
        try (split; [exact Hok | apply vitalsWorse_refl]);
        match goal with
        | |- context [if ?c then contactDamage dt v else v] =>
            destruct c;
            [apply contactDamage_ok; assumption
            | split; [exact Hok | apply vitalsWorse_refl]]
        end.
      * match goal with
        | |- context [match ?m with Throws => _ | Undefined => ?a | Value z => _ end] =>
            destruct m as [| |cy]
        end;
        cbn [stateOf fst snd];
        (split; [unfold agedRel, withPosition; cbn [alive ehealth]; tauto|]);
        (split; [| intros [H | H]; discriminate]);
        intros Hok;
        try (split; [exact Hok | apply vitalsWorse_refl]);
        match goal with
        | |- context [if ?c then contactDamage dt v else v] =>
            destruct c;
            [apply contactDamage_ok; assumption
            | split; [exact Hok | apply vitalsWorse_refl]]
        end.
    + cbn [stateOf fst snd].
      split; [apply agedRel_refl|].
      split; [intros Hok; split; [exact Hok | apply vitalsWorse_refl]|].
      intros _. repeat split; reflexivity.
Qed.

(** The whole enemy loop. *)
Lemma updateEnemies_effect (dt : R) (p : Player) :
  0 <= dt ->
  forall (es : list Enemy) (v : Vitals),
    let r := stateOf (updateEnemies dt p es v) in
    Forall2 agedRel es (fst r) /\
    (vitalsOk v -> vitalsOk (snd r) /\ vitalsWorse v (snd r)).
Proof.
  intros Hdt. induction es as [|e rest IH]; intros v; cbv zeta.
  - simpl. split; [constructor|].
    intros Hok. split; [exact Hok | apply vitalsWorse_refl].
  - simpl updateEnemies.
    pose proof (updateEnemy_effect dt p e v Hdt) as He. cbv zeta in He.
    destruct (updateEnemy dt p e v) as [[e' v'] | [e' v']];
      cbn [stateOf fst snd] in He; destruct He as (Hage & Hvit & _).
    + specialize (IH v'). cbv zeta in IH.
      destruct (updateEnemies dt p rest v') as [[rest' v''] | [rest' v'']];
        cbn [stateOf fst snd] in *; destruct IH as (Hrest & Hvit');
        (split; [constructor; assumption|]);
        intros Hok; destruct (Hvit Hok) as [Hok' Hw];
        destruct (Hvit' Hok') as [Hok'' Hw'];
        (split; [exact Hok'' | exact (vitalsWorse_trans _ _ _ Hw Hw')]).
    + cbn [stateOf fst snd].
      split; [constructor; [exact Hage|]|exact Hvit].
      clear. induction rest; constructor; [apply agedRel_refl | assumption].
Qed.

Lemma aged_aliveCount (es es' : list Enemy) :
  Forall2 agedRel es es' -> (aliveCount es' <= aliveCount es)%nat.
Proof.
  unfold aliveCount. induction 1 as [|e e' rest rest' [Hal _] _ IH];
    [reflexivity|].
  simpl. destruct (alive e') eqn:He'.
  - rewrite (Hal eq_refl). simpl. lia.
  - destruct (alive e); simpl; lia.
Qed.

Lemma hit_aliveCount (es es' : list Enemy) :
  Forall2 hitRel es es' -> aliveCount es' = aliveCount es.
Proof.
  unfold aliveCount. induction 1 as [|e e' rest rest' (_ & _ & Hal & _) _ IH];
    [reflexivity|].
  simpl. rewrite Hal. destruct (alive e); simpl; lia.
Qed.





(** ** Spawning *)

Lemma mapAt_row_in_range (r c : Z) :
  (0 <= r < 16)%Z -> mapAt r c <> Throws.
Proof.
  intros Hr. unfold mapAt, lookupZ.
  destruct (r <? 0)%Z eqn:Hneg; [apply Z.ltb_lt in Hneg; lia|].
  destruct (nth_error map (Z.to_nat r)) as [row|] eqn:Hrow.
  - destruct (if (c <? 0)%Z then None else nth_error row (Z.to_nat c));
      discriminate.
  - apply nth_error_None in Hrow. change (length map) with 16%nat in Hrow.
    lia.
Qed.

(** A coordinate drawn by the spawners lies in rows (columns) 1 to 14. *)
Lemma spawn_coordinate (r : R) :
  0 <= r < 1 -> (1 <= Zfloor (1 + r * (16 - 2)) <= 14)%Z.
Proof.
  intros [Hlo Hhi]. pose proof (Zfloor_bound (1 + r * (16 - 2))) as [H1 H2].
  split.
  - apply Zfloor_lub. simpl. lra.
  - assert (Hlt : (Zfloor (1 + r * (16 - 2)) < 15)%Z)
      by (apply lt_IZR; lra).
    lia.
Qed.

Lemma spawn_row (r : R) :
  0 <= r < 1 -> (1 <= Zfloor (1 + r * (IZR mapHeight - 2)) <= 14)%Z.
Proof. rewrite mapHeight_value. apply spawn_coordinate. Qed.

Lemma tooClose_none (x y : R) (es : list Enemy) :
  existsb (tooCloseTo x y) es = false ->
  forall e, In e es ->
    minEnemyDist <= sqrt ((x - ex e) * (x - ex e) + (y - ey e) * (y - ey e)).
Proof.
  intros Hex e Hin.
  destruct (tooCloseTo x y e) eqn:Hc.
  - assert (Htrue : existsb (tooCloseTo x y) es = true)
      by (apply existsb_exists; exists e; split; assumption).
    congruence.
  - unfold tooCloseTo in Hc. cbv zeta in Hc. unfold Rltb in Hc.
    destruct (Rlt_dec _ minEnemyDist); [discriminate | lra].
Qed.

(** The attempt loop of [spawnEnemy]: the array is left as it is or gains
    one fresh enemy on an accepted spot, and two random numbers are drawn
    per attempt. *)
Lemma spawnLoop_effect (rnd : nat -> R) (p : Player) (es : list Enemy) :
  forall (n cur : nat),
    let r := stateOf (spawnLoop n rnd cur p es) in
    (fst r = es \/
     exists x y, fst r = es ++ [newEnemy x y] /\ spawnSpot p es x y) /\
    (cur <= snd r <= cur + 2 * n)%nat.
Proof.
  induction n as [|k IH]; intros cur; cbv zeta.
  - simpl. split; [left; reflexivity | lia].
  - simpl spawnLoop.
    set (x := 1 + rnd cur * (IZR mapWidth - 2)).
    set (y := 1 + rnd (S cur) * (IZR mapHeight - 2)).
    specialize (IH (S (S cur))). cbv zeta in IH.
    destruct IH as [IHes IHcur].
    assert (Hrec : (fst (stateOf (spawnLoop k rnd (S (S cur)) p es)) = es \/
                    exists x0 y0,
                      fst (stateOf (spawnLoop k rnd (S (S cur)) p es))
                      = es ++ [newEnemy x0 y0] /\ spawnSpot p es x0 y0) /\
                   (cur <= snd (stateOf (spawnLoop k rnd (S (S cur)) p es))
                    <= cur + 2 * S k)%nat)
      by (split; [exact IHes | lia]).
    destruct (mapAt (Zfloor y) (Zfloor x)) as [| |c] eqn:Hcell.
    + simpl. split; [left; reflexivity | lia].
    + simpl isZero. cbv iota. exact Hrec.
    + simpl isZero. destruct (c =? 0)%Z eqn:Hz; [|exact Hrec].
      destruct (Rltb 4 (sqrt ((x - px p) * (x - px p)
                              + (y - py p) * (y - py p)))) eqn:Hfar;
        [|exact Hrec].
      destruct (existsb (tooCloseTo x y) es) eqn:Hclose; [exact Hrec|].
      simpl. split; [|lia]. right. exists x, y. split; [reflexivity|].
      split; [|split].
      * unfold emptyCell. rewrite Hcell. apply Z.eqb_eq in Hz.
        rewrite Hz. reflexivity.
      * apply Rltb_spec. exact Hfar.
      * apply tooClose_none. exact Hclose.
Qed.

Lemma spawnLoop_normal (rnd : nat -> R) (p : Player) (es : list Enemy) :
  (forall n, 0 <= rnd n < 1) ->
  forall (n cur : nat),
    exists r, spawnLoop n rnd cur p es = Normal r.
Proof.
  intros Hrnd. induction n as [|k IH]; intros cur.
  - eexists. reflexivity.
  - simpl spawnLoop.
    pose proof (spawn_row _ (Hrnd (S cur))) as Hrow.
    pose proof (mapAt_row_in_range
                  (Zfloor (1 + rnd (S cur) * (IZR mapHeight - 2)))
                  (Zfloor (1 + rnd cur * (IZR mapWidth - 2)))) as Hno.
    destruct (mapAt _ _) as [| |c];
      [exfalso; apply Hno; [lia | reflexivity]| |].
    + simpl. apply IH.
    + simpl isZero. destruct (c =? 0)%Z; [|apply IH].
      destruct (Rltb 4 _); [|apply IH].
      destruct (existsb _ es); [apply IH|]. eexists. reflexivity.
Qed.

(** What one call of [spawnEnemy] does to the array. *)
Lemma spawnEnemy_effect (rnd : nat -> R) (cur : nat)
  (p : Player) (es : list Enemy) :
  (forall n, 0 <= rnd n < 1) ->
  exists es' cur',
    spawnEnemy rnd cur p es = Normal (es', cur') /\
    (cur <= cur' <= cur + 600)%nat /\
    (es' = es \/
     exists x y, es' = es ++ [newEnemy x y] /\ spawnSpot p es x y).
Proof.
  intros Hrnd. unfold spawnEnemy.
  destruct (spawnLoop_normal rnd p es Hrnd 300 cur) as ([es' cur'] & Hrun).
  pose proof (spawnLoop_effect rnd p es 300 cur) as Heff. cbv zeta in Heff.
  rewrite Hrun in Heff. cbn [stateOf fst snd] in Heff.
  destruct Heff as [Hes Hcur].
  exists es', cur'. split; [exact Hrun | split; [lia | exact Hes]].
Qed.

(** With random numbers of the interval [0, 1), [spawnEnemy] returns within
    its 300 attempts without an exception; it either leaves the array as it
    is or appends one fresh enemy (alive, health 60) whose cell is empty,
    which is more than 4 away from the player and at least 1.5 away from
    every enemy of the array. *)
Theorem spawnEnemy_places_or_skips (rnd : nat -> R) (cur : nat)
  (p : Player) (es : list Enemy) :
  (forall n, 0 <= rnd n < 1) ->
  exists es' cur',
    spawnEnemy rnd cur p es = Normal (es', cur') /\
    (cur <= cur' <= cur + 600)%nat /\
    (es' = es \/
     exists x y, es' = es ++ [newEnemy x y] /\ spawnSpot p es x y).
Proof. apply spawnEnemy_effect. Qed.

Lemma zeroRandom_range : forall n, 0 <= zeroRandom n < 1.
Proof. intros n. unfold zeroRandom. lra. Qed.

Lemma spawnEnemy_witness :
  exists es' cur',
    spawnEnemy zeroRandom 0 initialPlayer [] = Normal (es', cur').
Proof.
  destruct (spawnEnemy_places_or_skips zeroRandom 0 initialPlayer []
              zeroRandom_range) as (es' & cur' & Hrun & _).
  exists es', cur'. exact Hrun.
Defined.

Lemma pickSprite_in (r : R) : 0 <= r < 1 -> In (pickSprite r) decorSprites.
Proof.
  intros [Hlo Hhi]. unfold pickSprite.
  change (INR (length decorSprites)) with (1 + 1 + 1).
  pose proof (Zfloor_bound (r * (1 + 1 + 1))) as [H1 H2].
  assert (Hz : (0 <= Zfloor (r * (1 + 1 + 1)) < 3)%Z).
  { split; [apply Zfloor_lub; simpl; lra | apply lt_IZR; lra]. }
  assert (Hn : (Z.to_nat (Zfloor (r * (1 + 1 + 1))) < 3)%nat) by lia.
  destruct (Z.to_nat (Zfloor (r * (1 + 1 + 1)))) as [|[|[|n]]];
    simpl; try tauto; lia.
Qed.

Lemma decorTooClose_none (x y : R) (decs : list Decoration) :
  existsb (decorTooClose x y) decs = false ->
  forall d, In d decs ->
    minDecorSeparation
    <= sqrt ((x - decx d) * (x - decx d) + (y - decy d) * (y - decy d)).
Proof.
  intros Hex d Hin.
  destruct (decorTooClose x y d) eqn:Hc.
  - assert (Htrue : existsb (decorTooClose x y) decs = true)
      by (apply existsb_exists; exists d; split; assumption).
    congruence.
  - unfold decorTooClose in Hc. cbv zeta in Hc. unfold Rltb in Hc.
    destruct (Rlt_dec _ minDecorSeparation); [discriminate | lra].
Qed.

(** The loop of [spawnDecorations] returns without an exception, only
    appends to the array, keeps it well placed, and stops pushing at
    [totalDecor] decorations. *)
Lemma decorLoop_effect (rnd : Random) (p : Player) :
  forall (k placed cur : nat) (decs : list Decoration),
    wellPlaced p decs -> length decs = placed ->
    exists decs' cur',
      decorLoop k placed rnd cur p decs = Normal (decs', cur') /\
      wellPlaced p decs' /\
      (length decs' <= Nat.max placed totalDecor)%nat /\
      (cur <= cur' <= cur + 3 * k)%nat.
Proof.
  induction k as [|k IH]; intros placed cur decs Hwp Hlen.
  - exists decs, cur. simpl. repeat split; try assumption; lia.
  - simpl decorLoop.
    destruct (placed <? totalDecor)%nat eqn:Hroom.
    + apply Nat.ltb_lt in Hroom.
      set (x := 1 + rnd cur * (IZR mapWidth - 2)).
      set (y := 1 + rnd (S cur) * (IZR mapHeight - 2)).
      pose proof (spawn_row _ (draw_range rnd (S cur))) as Hrow.
      pose proof (mapAt_row_in_range (Zfloor y) (Zfloor x)) as Hno.
      assert (Hskip : exists decs' cur',
                 decorLoop k placed rnd (S (S cur)) p decs
                 = Normal (decs', cur') /\
                 wellPlaced p decs' /\
                 (length decs' <= Nat.max placed totalDecor)%nat /\
                 (cur <= cur' <= cur + 3 * S k)%nat).
      { destruct (IH placed (S (S cur)) decs Hwp Hlen)
          as (decs' & cur' & Hrun & Hwp' & Hl & Hc).
        exists decs', cur'. repeat split; try assumption; lia. }
      destruct (mapAt (Zfloor y) (Zfloor x)) as [| |c] eqn:Hcell.
      * exfalso. apply Hno; [subst y; lia | reflexivity].
      * simpl isZero. cbv iota. exact Hskip.
      * simpl isZero. destruct (c =? 0)%Z eqn:Hz; [|exact Hskip].
        destruct (Rltb 5 (sqrt ((x - px p) * (x - px p)
                                + (y - py p) * (y - py p)))) eqn:Hfar;
          [|exact Hskip].
        destruct (existsb (decorTooClose x y) decs) eqn:Hclose;
          [exact Hskip|].
        set (d := mkDecoration x y (pickSprite (rnd (S (S cur))))).
        assert (Hwp1 : wellPlaced p (decs ++ [d])).
        { constructor; [exact Hwp | |].
          - split; [|split].
            + unfold emptyCell. simpl. rewrite Hcell.
              apply Z.eqb_eq in Hz. rewrite Hz. reflexivity.
            + apply Rltb_spec. exact Hfar.
            + apply decorTooClose_none. exact Hclose.
          - simpl. apply pickSprite_in. apply draw_range. }
        assert (Hlen1 : length (decs ++ [d]) = S placed)
          by (rewrite length_app; simpl; lia).
        destruct (IH (S placed) (S (S (S cur))) (decs ++ [d]) Hwp1 Hlen1)
          as (decs' & cur' & Hrun & Hwp' & Hl & Hc).
        exists decs', cur'. repeat split; try assumption; lia.
    + exists decs, cur. repeat split; try assumption; lia.
Qed.

(** What [spawnDecorations] leaves in the array. *)
Lemma spawnDecorations_effect (rnd : Random) (cur : nat)
  (p : Player) :
  exists decs cur',
    spawnDecorations rnd cur p = Normal (decs, cur') /\
    wellPlaced p decs /\
    (length decs <= totalDecor)%nat /\
    (cur <= cur' <= cur + 3000)%nat.
Proof.
  unfold spawnDecorations.
  destruct (decorLoop_effect rnd p 1000 0 cur [] (wellPlaced_nil p) eq_refl)
    as (decs & cur' & Hrun & Hwp & Hl & Hc).
  exists decs, cur'. repeat split; try assumption; lia.
Qed.

(** [spawnDecorations] returns without an exception with at most 80
    decorations, each in an empty cell, more than 5 away from the player
    and at least 1 away from every decoration placed before it, and each
    with one of the three decoration sprites. *)
Theorem spawnDecorations_well_placed (rnd : Random) (cur : nat)
  (p : Player) :
  exists decs cur',
    spawnDecorations rnd cur p = Normal (decs, cur') /\
    wellPlaced p decs /\
    (length decs <= totalDecor)%nat /\
    (cur <= cur' <= cur + 3000)%nat.
Proof. apply spawnDecorations_effect. Qed.

Lemma freshlySpawned_fresh (p : Player) (es : list Enemy) :
  freshlySpawned p es ->
  Forall (fun e => alive e = true /\ dying e = false /\ ehealth e = 60%Z) es.
Proof.
  induction 1 as [|es x y _ IH _]; [constructor|].
  apply Forall_app. split; [exact IH|].
  constructor; [repeat split; reflexivity | constructor].
Qed.

Lemma spawnEnemies_effect (rnd : nat -> R) (p : Player) :
  (forall n, 0 <= rnd n < 1) ->
  forall (n cur : nat) (es : list Enemy),
    freshlySpawned p es ->
    exists es' cur',
      spawnEnemies n rnd cur p es = Normal (es', cur') /\
      freshlySpawned p es' /\
      (length es' <= length es + n)%nat.
Proof.
  intros Hrnd. induction n as [|n IH]; intros cur es Hfresh.
  - exists es, cur. simpl. repeat split; [exact Hfresh | lia].
  - simpl spawnEnemies.
    destruct (spawnEnemy_effect rnd cur p es Hrnd)
      as (es1 & cur1 & Hrun & _ & Hes).
    rewrite Hrun.
    assert (Hfresh1 : freshlySpawned p es1 /\
                      (length es1 <= length es + 1)%nat).
    { destruct Hes as [-> | (x & y & -> & Hspot)].
      - split; [exact Hfresh | lia].
      - split; [constructor; assumption|].
        rewrite length_app. simpl. lia. }
    destruct Hfresh1 as [Hf1 Hl1].
    destruct (IH cur1 es1 Hf1) as (es' & cur' & Hrun' & Hf' & Hl').
    exists es', cur'. repeat split; [exact Hrun' | exact Hf' | lia].
Qed.

(** The state [startGame] leaves. *)
Lemma startGame_effect (rnd : Random) (g : Game) :
  exists g',
    startGame rnd g = Normal g' /\
    gameState g' = playing /\ gameOver g' = false /\
    overlay g' = OverlayHidden /\
    kills g' = 0%Z /\ health g' = 100 /\ armor g' = 100 /\
    player g' = initialPlayer /\
    selectedWeapon g' = shotgun /\
    reloading g' = false /\ reloadTimer g' = None /\
    weaponShotgun g' = weaponShotgun g /\ weaponLaser g' = weaponLaser g /\
    freshlySpawned initialPlayer (enemies g') /\
    (length (enemies g') <= ACTIVE_ENEMY_COUNT)%nat /\
    wellPlaced initialPlayer (decorations g') /\
    (length (decorations g') <= totalDecor)%nat.
Proof.
  unfold startGame.
  destruct (spawnDecorations_effect rnd 0 initialPlayer)
    as (decs & cur & Hdec & Hwp & Hld & _).
  rewrite Hdec.
  destruct (spawnEnemies_effect rnd initialPlayer (draw_range rnd)
              ACTIVE_ENEMY_COUNT cur [] (freshlySpawned_nil initialPlayer))
    as (es & cur' & Hen & Hfresh & Hle).
  rewrite Hen. eexists. split; [reflexivity|].
  cbn [gameState gameOver overlay kills health armor player selectedWeapon
       reloading reloadTimer weaponShotgun weaponLaser enemies decorations].
  repeat split; try assumption; try reflexivity.
Qed.

(** [startGame] always completes.  It leaves a running session with the
    counters reset (no kills, health and armour 100), the player at the
    spawn pose with no key held, the rifle selected and no reload pending,
    at most five fresh enemies and at most 80 decorations, all on accepted
    spots; the magazines and reserves of the two weapons are left as
    they are. *)
Theorem startGame_resets_session (rnd : Random) (g : Game) :
  exists g',
    startGame rnd g = Normal g' /\
    gameState g' = playing /\ gameOver g' = false /\
    overlay g' = OverlayHidden /\
    kills g' = 0%Z /\ health g' = 100 /\ armor g' = 100 /\
    player g' = initialPlayer /\
    selectedWeapon g' = shotgun /\
    reloading g' = false /\ reloadTimer g' = None /\
    weaponShotgun g' = weaponShotgun g /\ weaponLaser g' = weaponLaser g /\
    freshlySpawned initialPlayer (enemies g') /\
    (length (enemies g') <= ACTIVE_ENEMY_COUNT)%nat /\
    wellPlaced initialPlayer (decorations g') /\
    (length (decorations g') <= totalDecor)%nat.
Proof. apply startGame_effect. Qed.


(** ** What a frame writes *)

Lemma countDown_range (t d m : R) :
  0 <= d -> 0 <= t <= m -> 0 <= countDown t d <= m.
Proof.
  intros Hd Ht. unfold countDown, Rltb.
  destruct (Rlt_dec 0 t); [|lra].
  destruct (Rlt_dec (t - d) 0); lra.
Qed.

(** The state the simulation part of a frame leaves, field by field. *)
Lemma simulate_shape (dt : R) (g : Game) :
  exists p' es v m b fl,
    stateOf (simulate dt g)
    = mkGame p' es (decorations g) (weaponShotgun g) (weaponLaser g)
        (selectedWeapon g) (reloading g) (reloadTimer g) (vGameOver v)
        (kills g) (vHealth v) (vArmor v) m b fl (gameState g) (vOverlay v) /\
    p' = stateOf (updatePlayer dt (player g)) /\
    ((es, v) = stateOf (updateEnemies dt p' (enemies g) (vitalsOf g)) \/
     (es = enemies g /\ v = vitalsOf g)) /\
    ((m = countDown (muzzleTimer g) dt /\
      b = countDown (bulletTimer g) dt /\
      fl = countDown (vFlash v) (dt * 4)) \/
     (m = muzzleTimer g /\ b = bulletTimer g /\ fl = vFlash v)).
Proof.
  unfold simulate.
  destruct (updatePlayer dt (player g)) as [p' | p'] eqn:Hp; cbn [stateOf].
  - cbv zeta.
    change (enemies (setPlayer p' g)) with (enemies g).
    change (vitalsOf (setPlayer p' g)) with (vitalsOf g).
    destruct (updateEnemies dt p' (enemies g) (vitalsOf g))
      as [[es v] | [es v]] eqn:He; cbn [stateOf].
    + exists p', es, v, (countDown (muzzleTimer g) dt),
        (countDown (bulletTimer g) dt), (countDown (vFlash v) (dt * 4)).
      split; [reflexivity | split; [reflexivity | split]].
      * left. rewrite He. reflexivity.
      * left. repeat split; reflexivity.
    + exists p', es, v, (muzzleTimer g), (bulletTimer g), (vFlash v).
      split; [reflexivity | split; [reflexivity | split]].
      * left. rewrite He. reflexivity.
      * right. repeat split; reflexivity.
  - exists p', (enemies g), (vitalsOf g), (muzzleTimer g), (bulletTimer g),
      (damageFlash g).
    split; [reflexivity | split; [reflexivity | split]].
    + right. split; reflexivity.
    + right. repeat split; reflexivity.
Qed.

Lemma Forall2_agedRel_refl (es : list Enemy) : Forall2 agedRel es es.
Proof. induction es; constructor; [apply agedRel_refl | assumption]. Qed.

(** The simulation part of a frame: the fields it leaves alone, what it
    does to the enemies, to the vitals and to the flash timers. *)
Lemma simulate_effect (dt : R) (g : Game) :
  0 <= dt ->
  let g' := stateOf (simulate dt g) in
  kills g' = kills g /\
  weaponShotgun g' = weaponShotgun g /\ weaponLaser g' = weaponLaser g /\
  selectedWeapon g' = selectedWeapon g /\
  reloading g' = reloading g /\ reloadTimer g' = reloadTimer g /\
  decorations g' = decorations g /\ gameState g' = gameState g /\
  player g' = stateOf (updatePlayer dt (player g)) /\
  Forall2 agedRel (enemies g) (enemies g') /\
  (vitalsOk (vitalsOf g) ->
   vitalsOk (vitalsOf g') /\ vitalsWorse (vitalsOf g) (vitalsOf g')) /\
  (0 <= muzzleTimer g <= 0.15 -> 0 <= muzzleTimer g' <= 0.15) /\
  (0 <= bulletTimer g <= 0.1 -> 0 <= bulletTimer g' <= 0.1).
Proof.
  intros Hdt. cbv zeta.
  destruct (simulate_shape dt g)
    as (p' & es & v & m & b & fl & Heq & Hp & Hev & Htm).
  rewrite Heq.
  cbn [kills weaponShotgun weaponLaser selectedWeapon reloading reloadTimer
       decorations gameState player enemies muzzleTimer bulletTimer].
  assert (Hes : Forall2 agedRel (enemies g) es /\
                (vitalsOk (vitalsOf g) ->
                 vitalsOk v /\ vitalsWorse (vitalsOf g) v)).
  { destruct Hev as [Hev | [-> ->]].
    - pose proof (updateEnemies_effect dt p' Hdt (enemies g) (vitalsOf g))
        as He. cbv zeta in He. rewrite <- Hev in He. exact He.
    - split; [apply Forall2_agedRel_refl|].
      intros Hok. split; [exact Hok | apply vitalsWorse_refl]. }
  destruct Hes as [Hes Hvit].
  do 8 (split; [reflexivity|]).
  split; [exact Hp|]. split; [exact Hes|]. split; [|split].
  - intros Hok. destruct (Hvit Hok) as [(Ha & Hf & Hl) (Hw1 & Hw2 & Hw3)].
    split.
    + unfold vitalsOk, vitalsOf.
      cbn [health armor damageFlash gameOver overlay vArmor vFlash vHealth
           vGameOver].
      split; [exact Ha | split; [|exact Hl]].
      destruct Htm as [(_ & _ & ->) | (_ & _ & ->)]; [|exact Hf].
      apply (countDown_range _ _ 1); [lra | exact Hf].
    + unfold vitalsWorse, vitalsOf in *.
      cbn [health armor damageFlash gameOver overlay vArmor vFlash vHealth
           vGameOver] in *.
      split; [exact Hw1 | split; [exact Hw2 | exact Hw3]].
  - intros Hm. destruct Htm as [(-> & _ & _) | (-> & _ & _)]; [|exact Hm].
    apply (countDown_range _ _ 0.15); [exact Hdt | exact Hm].
  - intros Hb. destruct Htm as [(_ & -> & _) | (_ & -> & _)]; [|exact Hb].
    apply (countDown_range _ _ 0.1); [exact Hdt | exact Hb].
Qed.

(** The tail of a frame: the fields it leaves alone, the enemy it may add
    and the win it may declare. *)
Lemma spawnAndWin_effect (rnd : nat -> R) (g : Game) :
  let g' := stateOf (spawnAndWin rnd g) in
  kills g' = kills g /\
  weaponShotgun g' = weaponShotgun g /\ weaponLaser g' = weaponLaser g /\
  selectedWeapon g' = selectedWeapon g /\
  reloading g' = reloading g /\ reloadTimer g' = reloadTimer g /\
  decorations g' = decorations g /\ gameState g' = gameState g /\
  player g' = player g /\
  health g' = health g /\ armor g' = armor g /\
  damageFlash g' = damageFlash g /\
  muzzleTimer g' = muzzleTimer g /\ bulletTimer g' = bulletTimer g /\
  (enemies g' = enemies g \/
   exists x y,
     enemies g' = enemies g ++ [newEnemy x y] /\
     spawnSpot (player g) (enemies g) x y /\
     (aliveCount (enemies g) < ACTIVE_ENEMY_COUNT)%nat /\
     (kills g < TARGET_KILLS)%Z) /\
  ((gameOver g' = gameOver g /\ overlay g' = overlay g) \/
   (gameOver g' = true /\ overlay g' = OverlayWin /\
    (TARGET_KILLS <= kills g)%Z)).
Proof.
  cbv zeta. unfold spawnAndWin.
  destruct ((aliveCount (enemies g) <? ACTIVE_ENEMY_COUNT)%nat
            && (kills g <? TARGET_KILLS)%Z) eqn:Hneed.
  - apply andb_true_iff in Hneed. destruct Hneed as [Hcount Hkills].
    apply Nat.ltb_lt in Hcount. apply Z.ltb_lt in Hkills.
    pose proof (spawnLoop_effect rnd (player g) (enemies g) 300 0) as Hsp.
    cbv zeta in Hsp. unfold spawnEnemy.
    destruct (spawnLoop 300 rnd 0 (player g) (enemies g))
      as [[es n] | [es n]]; cbn [stateOf fst snd] in Hsp;
      destruct Hsp as [Hes _].
    + cbv zeta. change (kills (setEnemies es g)) with (kills g).
      assert (Hlt : (TARGET_KILLS <=? kills g)%Z = false)
        by (apply Z.leb_gt; exact Hkills).
      rewrite Hlt. cbn [stateOf].
      do 14 (split; [reflexivity|]).
      split; [|left; split; reflexivity].
      destruct Hes as [-> | (x & y & -> & Hspot)]; [left; reflexivity|].
      right. exists x, y. repeat split; try assumption; apply Hspot.
    + cbn [stateOf].
      do 14 (split; [reflexivity|]).
      split; [|left; split; reflexivity].
      destruct Hes as [-> | (x & y & -> & Hspot)]; [left; reflexivity|].
      right. exists x, y. repeat split; try assumption; apply Hspot.
  - cbv zeta. change (kills (setEnemies (enemies g) g)) with (kills g).
    destruct (TARGET_KILLS <=? kills g)%Z eqn:Hwin; cbn [stateOf].
    + do 14 (split; [reflexivity|]).
      split; [left; reflexivity|].
      right. apply Z.leb_le in Hwin. repeat split; try reflexivity.
      exact Hwin.
    + do 14 (split; [reflexivity|]).
      split; left; [reflexivity | split; reflexivity].
Qed.

(** How a frame relates the state before and the state after. *)
Lemma gameLoop_cases (fuel : nat) (cv : Canvas) (bambooComplete : bool)
  (sandData : option Texture) (rnd : nat -> R) (dt : R) (g : Game)
  (c : Completion Game) (f : option Frame) :
  gameLoop fuel cv bambooComplete sandData rnd dt g = Some (c, f) ->
  (stateOf c = g /\ (gameState g = menu \/ gameOver g = true)) \/
  (gameState g = playing /\ gameOver g = false /\
   ((c = Abrupt (stateOf (simulate dt g)) /\ f = None) \/
    exists g1, simulate dt g = Normal g1 /\ c = spawnAndWin rnd g1)).
Proof.
  unfold gameLoop. intros Hrun.
  destruct (gameState g) eqn:Hst.
  - destruct (renderScene fuel cv bambooComplete sandData (player g))
      as [[fr | fr]|]; [| |discriminate];
      inversion Hrun; left; (split; [reflexivity | left; reflexivity]).
  - destruct (gameOver g) eqn:Hover.
    + inversion Hrun. left. split; [reflexivity | right; reflexivity].
    + right. split; [reflexivity | split; [reflexivity|]].
      destruct (simulate dt g) as [g1 | g1] eqn:Hsim.
      * destruct (renderScene fuel cv bambooComplete sandData (player g1))
          as [[fr | fr]|]; [| |discriminate].
        -- inversion Hrun. right. exists g1. split; reflexivity.
        -- inversion Hrun. left. split; reflexivity.
      * inversion Hrun. left. split; reflexivity.
Qed.

(** What a whole frame does to the state. *)
Lemma frame_effect (fuel : nat) (cv : Canvas) (bambooComplete : bool)
  (sandData : option Texture) (rnd : nat -> R) (dt : R) (g : Game)
  (c : Completion Game) (f : option Frame) :
  0 <= dt ->
  gameLoop fuel cv bambooComplete sandData rnd dt g = Some (c, f) ->
  let g' := stateOf c in
  kills g' = kills g /\
  weaponShotgun g' = weaponShotgun g /\ weaponLaser g' = weaponLaser g /\
  selectedWeapon g' = selectedWeapon g /\
  reloading g' = reloading g /\ reloadTimer g' = reloadTimer g /\
  decorations g' = decorations g /\ gameState g' = gameState g /\
  (exists es1,
      Forall2 agedRel (enemies g) es1 /\
      (enemies g' = es1 \/
       exists x y, enemies g' = es1 ++ [newEnemy x y] /\
                   (aliveCount es1 < ACTIVE_ENEMY_COUNT)%nat)) /\
  (vitalsOk (vitalsOf g) ->
   vitalsOk (vitalsOf g') /\ vitalsWorse (vitalsOf g) (vitalsOf g')) /\
  (0 <= muzzleTimer g <= 0.15 -> 0 <= muzzleTimer g' <= 0.15) /\
  (0 <= bulletTimer g <= 0.1 -> 0 <= bulletTimer g' <= 0.1) /\
  (gameOver g = true -> g' = g).
Proof.
  intros Hdt Hrun. cbv zeta.
  assert (Hsame :
    kills g = kills g /\
    weaponShotgun g = weaponShotgun g /\ weaponLaser g = weaponLaser g /\
    selectedWeapon g = selectedWeapon g /\
    reloading g = reloading g /\ reloadTimer g = reloadTimer g /\
    decorations g = decorations g /\ gameState g = gameState g /\
    (exists es1,
        Forall2 agedRel (enemies g) es1 /\
        (enemies g = es1 \/
         exists x y, enemies g = es1 ++ [newEnemy x y] /\
                     (aliveCount es1 < ACTIVE_ENEMY_COUNT)%nat)) /\
    (vitalsOk (vitalsOf g) ->
     vitalsOk (vitalsOf g) /\ vitalsWorse (vitalsOf g) (vitalsOf g)) /\
    (0 <= muzzleTimer g <= 0.15 -> 0 <= muzzleTimer g <= 0.15) /\
    (0 <= bulletTimer g <= 0.1 -> 0 <= bulletTimer g <= 0.1) /\
    (gameOver g = true -> g = g)).
  { do 8 (split; [reflexivity|]).
    split; [exists (enemies g); split;
            [apply Forall2_agedRel_refl | left; reflexivity]|].
    split; [intros Hok; split; [exact Hok | apply vitalsWorse_refl]|].
    split; [tauto | split; [tauto | reflexivity]]. }
  destruct (gameLoop_cases _ _ _ _ _ _ _ _ _ Hrun)
    as [[-> _] | (Hst & Hover & Hcase)]; [exact Hsame|].
  pose proof (simulate_effect dt g Hdt) as Hsim. cbv zeta in Hsim.
  destruct Hsim as (Hk & Hws & Hwl & Hsel & Hrel & Htim & Hdec & Hgs & _
                    & Hes & Hvit & Hmz & Hbl).
  destruct Hcase as [[-> _] | (g1 & Hg1 & ->)].
  - cbn [stateOf].
    do 8 (split; [assumption|]).
    split; [exists (enemies (stateOf (simulate dt g)));
            split; [exact Hes | left; reflexivity]|].
    split; [exact Hvit | split; [exact Hmz | split; [exact Hbl|]]].
    intros Habs. congruence.
  - rewrite Hg1 in *. cbn [stateOf] in *.
    pose proof (spawnAndWin_effect rnd g1) as Hsp. cbv zeta in Hsp.
    destruct Hsp as (Hk' & Hws' & Hwl' & Hsel' & Hrel' & Htim' & Hdec'
                     & Hgs' & _ & Hh' & Ha' & Hf' & Hmz' & Hbl' & Hes'
                     & Hwin).
    rewrite Hk', Hws', Hwl', Hsel', Hrel', Htim', Hdec', Hgs', Hmz', Hbl'.
    do 8 (split; [assumption|]).
    split.
    { exists (enemies g1). split; [exact Hes|].
      destruct Hes' as [-> | (x & y & -> & _ & Hcount & _)];
        [left; reflexivity|].
      right. exists x, y. split; [reflexivity | exact Hcount]. }
    split.
    { intros Hok. destruct (Hvit Hok) as [(Ha & Hf & Hl) (Hw1 & Hw2 & Hw3)].
      unfold vitalsOk, vitalsWorse, vitalsOf in *.
      cbn [vHealth vArmor vFlash vGameOver vOverlay] in *.
      rewrite Hh', Ha', Hf'.
      destruct Hwin as [[Hgo _] | (Hgo & _)]; rewrite Hgo.
      - split; [split; [exact Ha | split; [exact Hf | exact Hl]]|].
        split; [exact Hw1 | split; [exact Hw2 | exact Hw3]].
      - split; [split; [exact Ha | split; [exact Hf | reflexivity]]|].
        split; [exact Hw1 | split; [exact Hw2 | reflexivity]]. }
    split; [exact Hmz | split; [exact Hbl|]].
    intros Habs. congruence.
Qed.

(** ** Invariants of the session over any run of events *)

(** The state after an event, by the function that produced it. *)
Lemma step_kinds (g g' : Game) :
  step g g' ->
  g' = g \/
  (exists f,
      (forall p, px (f p) = px p /\ py (f p) = py p /\
                 pangle (f p) = pangle p) /\
      g' = setIntent f g) \/
  (exists k, g' = setSelectedWeapon k g) \/
  g' = reloadWeapon g \/
  g' = shootWeapon g \/
  (exists rnd, gameState g = menu /\ startGame rnd g = Normal g') \/
  g' = reloadTimerFires g \/
  (exists fuel cv bambooComplete sandData rnd dt c f,
      0 <= dt /\
      gameLoop fuel cv bambooComplete sandData rnd dt g = Some (c, f) /\
      g' = stateOf c).
Proof.
  intros Hstep. destruct Hstep as [key g | key g | rnd g | g | g
                                   | fuel cv bambooComplete sandData rnd dt g c f Hdt Hrun].
  - unfold keydown. destruct (gameState g); [left; reflexivity|].
    destruct (gameOver g); [left; reflexivity|].
    destruct key;
      try (right; left; eexists; (split; [|reflexivity]);
           intros p; repeat split; reflexivity);
      try (right; right; left; eexists; reflexivity).
    + right; right; right; left. reflexivity.
    + right; right; right; right; left. reflexivity.
  - unfold keyup. destruct key;
      try (left; reflexivity); right; left; eexists;
      (split; [|reflexivity]); intros p; repeat split; reflexivity.
  - unfold pressEnter. destruct (gameState g) eqn:Hst.
    + destruct (startGame_effect rnd g) as (g1 & Hrun & _).
      rewrite Hrun. cbn [stateOf].
      do 5 right. left. exists rnd. split; [reflexivity | exact Hrun].
    + left. reflexivity.
  - do 4 right. left. reflexivity.
  - do 6 right. left. reflexivity.
  - do 7 right. exists fuel, cv, bambooComplete, sandData, rnd, dt, c, f.
    split; [exact Hdt | split; [exact Hrun | reflexivity]].
Qed.

(** An invariant of every kind of event is an invariant of every run. *)
Lemma steps_invariant (P : Game -> Prop) :
  (forall g g', step g g' -> P g -> P g') ->
  forall g g', steps g g' -> P g -> P g'.
Proof.
  intros Hstep g g' Hrun. induction Hrun as [g | g g1 g2 _ IH Hlast];
    intros Hg; [exact Hg|].
  apply (Hstep g1 g2 Hlast). apply IH. exact Hg.
Qed.

Lemma weaponOk_shot (k : WeaponKey) (w : Weapon) :
  weaponOk k w -> (0 < magazine w)%Z ->
  weaponOk k (mkWeapon (magazine w - 1) (totalAmmo w)).
Proof.
  intros [Hmag Hres] Hpos. split; [simpl; lia | exact Hres].
Qed.

Lemma weaponOk_refill (k : WeaponKey) (w : Weapon) :
  weaponOk k w ->
  weaponOk k
    (mkWeapon (magazine w + ammoMin (ammoCapacity k - magazine w) (totalAmmo w))
       (ammoSub (totalAmmo w)
          (ammoMin (ammoCapacity k - magazine w) (totalAmmo w)))).
Proof.
  intros [Hmag Hres]. unfold weaponOk. cbn [magazine totalAmmo].
  destruct (totalAmmo w) as [n|]; simpl; split; try lia; exact I.
Qed.

Lemma ammoOk_weapon (g : Game) :
  ammoOk g <-> forall k, weaponOk k (weapon g k).
Proof.
  unfold ammoOk. split.
  - intros [Hs Hl] k. destruct k; assumption.
  - intros H. split; [apply (H shotgun) | apply (H laser)].
Qed.

Lemma ammoOk_same (g g' : Game) :
  weaponShotgun g' = weaponShotgun g -> weaponLaser g' = weaponLaser g ->
  ammoOk g -> ammoOk g'.
Proof. unfold ammoOk. intros -> ->. tauto. Qed.

Lemma ammoOk_setWeapon (k : WeaponKey) (w : Weapon) (g g' : Game) :
  weapon g' k = w -> weapon g' (otherWeapon k) = weapon g (otherWeapon k) ->
  weaponOk k w -> ammoOk g -> ammoOk g'.
Proof.
  intros Hk Ho Hw Hg. apply ammoOk_weapon. intros k'.
  pose proof (proj1 (ammoOk_weapon g) Hg) as Hall.
  destruct k, k'; simpl in *; rewrite ?Hk, ?Ho;
    first [exact Hw | apply (Hall shotgun) | apply (Hall laser)].
Qed.

Lemma shootWeapon_ammoOk (g : Game) : ammoOk g -> ammoOk (shootWeapon g).
Proof.
  intros Hg.
  destruct (shootWeapon_cases g) as [-> | [(_ & _ & _ & ->) | (Ho & Hr & Hm)]].
  - exact Hg.
  - destruct (reloadWeapon_frame g) as (_ & _ & _ & Hs & Hl & _).
    exact (ammoOk_same _ _ Hs Hl Hg).
  - destruct (shootWeapon_fired_exact g Ho Hr Hm)
      as (g3 & Hw & Hother & _ & _ & _ & Hshoot).
    assert (H3 : ammoOk g3).
    { apply (ammoOk_setWeapon (selectedWeapon g) _ g g3 Hw Hother);
        [|exact Hg].
      apply weaponOk_shot; [|exact Hm].
      apply ammoOk_weapon. exact Hg. }
    rewrite Hshoot.
    destruct ((_ <=? 0)%Z && _); [|exact H3].
    destruct (reloadWeapon_frame g3) as (_ & _ & _ & Hs & Hl & _).
    exact (ammoOk_same _ _ Hs Hl H3).
Qed.

Lemma reloadTimerFires_ammoOk (g : Game) :
  ammoOk g -> ammoOk (reloadTimerFires g).
Proof.
  intros Hg. unfold reloadTimerFires.
  destruct (reloadTimer g) as [k|]; [|exact Hg].
  apply (ammoOk_setWeapon k
           (mkWeapon
              (magazine (weapon g k)
               + ammoMin (ammoCapacity k - magazine (weapon g k))
                   (totalAmmo (weapon g k)))
              (ammoSub (totalAmmo (weapon g k))
                 (ammoMin (ammoCapacity k - magazine (weapon g k))
                    (totalAmmo (weapon g k))))) g);
    [destruct k; reflexivity | destruct k; reflexivity | | exact Hg].
  apply weaponOk_refill. apply ammoOk_weapon. exact Hg.
Qed.

Lemma step_ammoOk (g g' : Game) : step g g' -> ammoOk g -> ammoOk g'.
Proof.
  intros Hstep Hg.
  destruct (step_kinds g g' Hstep)
    as [-> | [[f [_ ->]] | [[k ->] | [-> | [-> | [(rnd & _ & Hstart) | [-> | Hframe]]]]]]].
  - exact Hg.
  - exact Hg.
  - exact Hg.
  - destruct (reloadWeapon_frame g) as (_ & _ & _ & Hs & Hl & _).
    exact (ammoOk_same _ _ Hs Hl Hg).
  - apply shootWeapon_ammoOk. exact Hg.
  - destruct (startGame_effect rnd g)
      as (g1 & Hrun & _ & _ & _ & _ & _ & _ & _ & _ & _ & _ & Hs & Hl & _).
    rewrite Hrun in Hstart. inversion Hstart; subst g'.
    exact (ammoOk_same _ _ Hs Hl Hg).
  - apply reloadTimerFires_ammoOk. exact Hg.
  - destruct Hframe as (fuel & cv & bamboo & sandData & rnd & dt & c & f & Hdt
                        & Hrun
                        & ->).
    destruct (frame_effect _ _ _ _ _ _ _ _ _ Hdt Hrun)
      as (_ & Hs & Hl & _).
    exact (ammoOk_same _ _ Hs Hl Hg).
Qed.

(** Over any run of events (keys, clicks, Enter, timer expiries, frames)
    the magazine of each weapon stays between 0 and its capacity and a
    finite reserve never becomes negative. *)
Theorem magazines_stay_within_capacity (g g' : Game) :
  steps g g' -> ammoOk g -> ammoOk g'.
Proof. apply (steps_invariant ammoOk step_ammoOk). Qed.

Lemma magazines_witness :
  ammoOk (reloadTimerFires (shootWeapon lowAmmoGame)).
Proof.
  assert (Hrun : steps lowAmmoGame (reloadTimerFires (shootWeapon lowAmmoGame))).
  { eapply steps_next; [eapply steps_next; [apply steps_refl|]|].
    - apply step_click.
    - apply step_timer. }
  assert (H0 : ammoOk lowAmmoGame).
  { unfold ammoOk, weaponOk. simpl. repeat split; lia. }
  exact (magazines_stay_within_capacity _ _ Hrun H0).
Defined.

Lemma reloadTimerFires_rest (g : Game) :
  let g' := reloadTimerFires g in
  player g' = player g /\ enemies g' = enemies g /\
  decorations g' = decorations g /\ selectedWeapon g' = selectedWeapon g /\
  gameOver g' = gameOver g /\ kills g' = kills g /\
  health g' = health g /\ armor g' = armor g /\
  muzzleTimer g' = muzzleTimer g /\ bulletTimer g' = bulletTimer g /\
  damageFlash g' = damageFlash g /\
  gameState g' = gameState g /\ overlay g' = overlay g /\
  reloading g' = false /\ reloadTimer g' = None \/
  reloadTimerFires g = g /\ reloadTimer g = None.
Proof.
  cbv zeta. unfold reloadTimerFires.
  destruct (reloadTimer g) as [k|]; [left | right; split; reflexivity].
  repeat split; reflexivity.
Qed.

Lemma startGame_timers (rnd : Random) (g g' : Game) :
  startGame rnd g = Normal g' ->
  muzzleTimer g' = muzzleTimer g /\ bulletTimer g' = bulletTimer g /\
  damageFlash g' = damageFlash g.
Proof.
  unfold startGame.
  destruct (spawnDecorations rnd 0 initialPlayer) as [[decs cur] | [decs cur]];
    [|discriminate].
  destruct (spawnEnemies ACTIVE_ENEMY_COUNT rnd cur initialPlayer [])
    as [[es n] | [es n]]; [|discriminate].
  intros Heq. inversion Heq. repeat split; reflexivity.
Qed.

Lemma step_reloadConsistent (g g' : Game) :
  step g g' -> reloadConsistent g -> reloadConsistent g'.
Proof.
  intros Hstep Hg.
  assert (Hsame : forall h, reloading h = reloading g ->
                            reloadTimer h = reloadTimer g ->
                            reloadConsistent h).
  { intros h Hr Ht. unfold reloadConsistent. rewrite Hr, Ht. exact Hg. }
  assert (Hreq : forall h, reloadConsistent h ->
                           reloadConsistent (reloadWeapon h)).
  { intros h Hh. destruct (reloadWeapon_cases h) as [-> | [_ ->]];
      [exact Hh|]. left. split; [reflexivity|]. eexists. reflexivity. }
  destruct (step_kinds g g' Hstep)
    as [-> | [[f [_ ->]] | [[k ->] | [-> | [-> | [(rnd & _ & Hstart) | [-> | Hframe]]]]]]].
  - exact Hg.
  - apply Hsame; reflexivity.
  - apply Hsame; reflexivity.
  - apply Hreq. exact Hg.
  - destruct (shootWeapon_cases g)
      as [-> | [(_ & _ & _ & ->) | (Ho & Hr & Hm)]].
    + exact Hg.
    + apply Hreq. exact Hg.
    + destruct (shootWeapon_fired_exact g Ho Hr Hm)
        as (g3 & _ & _ & Hr3 & Ht3 & _ & Hshoot).
      assert (H3 : reloadConsistent g3).
      { apply Hsame; [congruence | exact Ht3]. }
      rewrite Hshoot. destruct ((_ <=? 0)%Z && _); [|exact H3].
      apply Hreq. exact H3.
  - destruct (startGame_effect rnd g)
      as (g1 & Hrun & _ & _ & _ & _ & _ & _ & _ & _ & Hr & Ht & _).
    rewrite Hrun in Hstart. inversion Hstart; subst g'.
    right. split; assumption.
  - pose proof (reloadTimerFires_rest g) as Hfire. cbv zeta in Hfire.
    destruct Hfire as [Hfire | [-> _]]; [|exact Hg].
    right. split; apply Hfire.
  - destruct Hframe as (fuel & cv & bamboo & sandData & rnd & dt & c & f & Hdt
                        & Hrun
                        & ->).
    destruct (frame_effect _ _ _ _ _ _ _ _ _ Hdt Hrun)
      as (_ & _ & _ & _ & Hr & Ht & _).
    apply Hsame; assumption.
Qed.

(** Over any run of events the reloading flag is raised exactly while the
    reload timeout is pending, so that a reload in progress is always
    brought to an end by the expiry of its timeout and firing is never
    blocked for good. *)
Theorem reload_flag_follows_timer (g g' : Game) :
  steps g g' -> reloadConsistent g ->
  reloadConsistent g' /\ reloading (reloadTimerFires g') = false.
Proof.
  intros Hrun Hg.
  assert (Hg' : reloadConsistent g')
    by exact (steps_invariant reloadConsistent step_reloadConsistent
                g g' Hrun Hg).
  split; [exact Hg'|].
  pose proof (reloadTimerFires_rest g') as Hfire. cbv zeta in Hfire.
  destruct Hfire as [Hfire | [Hsame Hnone]]; [apply Hfire|].
  rewrite Hsame.
  destruct Hg' as [[_ [k Hk]] | [Hr _]]; [congruence | exact Hr].
Qed.

Lemma reload_flag_witness :
  reloading (reloadTimerFires (shootWeapon dryGame)) = false.
Proof.
  assert (Hrun : steps dryGame (shootWeapon dryGame)).
  { eapply steps_next; [apply steps_refl | apply step_click]. }
  assert (H0 : reloadConsistent dryGame)
    by (right; split; reflexivity).
  exact (proj2 (reload_flag_follows_timer _ _ Hrun H0)).
Defined.

Lemma aliveCount_le_length (es : list Enemy) :
  (aliveCount es <= length es)%nat.
Proof. unfold aliveCount. apply filter_length_le. Qed.

Lemma step_aliveCount (g g' : Game) :
  step g g' ->
  (aliveCount (enemies g) <= ACTIVE_ENEMY_COUNT)%nat ->
  (aliveCount (enemies g') <= ACTIVE_ENEMY_COUNT)%nat.
Proof.
  intros Hstep Hg.
  destruct (step_kinds g g' Hstep)
    as [-> | [[f [_ ->]] | [[k ->] | [-> | [-> | [(rnd & _ & Hstart) | [-> | Hframe]]]]]]].
  - exact Hg.
  - exact Hg.
  - exact Hg.
  - destruct (reloadWeapon_frame g) as (_ & He & _). rewrite He. exact Hg.
  - destruct (shootWeapon_effect g)
      as (_ & _ & _ & _ & _ & _ & _ & _ & _ & He & _).
    rewrite (hit_aliveCount _ _ He). exact Hg.
  - destruct (startGame_effect rnd g)
      as (g1 & Hrun & _ & _ & _ & _ & _ & _ & _ & _ & _ & _ & _ & _ & _
          & Hle & _).
    rewrite Hrun in Hstart. inversion Hstart; subst g'.
    pose proof (aliveCount_le_length (enemies g1)). lia.
  - pose proof (reloadTimerFires_rest g) as Hfire. cbv zeta in Hfire.
    destruct Hfire as [Hfire | [-> _]]; [|exact Hg].
    destruct Hfire as (_ & He & _). rewrite He. exact Hg.
  - destruct Hframe as (fuel & cv & bamboo & sandData & rnd & dt & c & f & Hdt
                        & Hrun
                        & ->).
    destruct (frame_effect _ _ _ _ _ _ _ _ _ Hdt Hrun)
      as (_ & _ & _ & _ & _ & _ & _ & _ & (es1 & Haged & Hes) & _).
    pose proof (aged_aliveCount _ _ Haged) as Hle.
    destruct Hes as [-> | (x & y & -> & Hroom)]; [lia|].
    unfold aliveCount in *. rewrite filter_app, length_app. simpl.
    unfold ACTIVE_ENEMY_COUNT in *. lia.
Qed.

(** Over any run of events at most five enemies are flagged alive at a
    time (a dying enemy counts until its death animation has ended). *)
Theorem at_most_five_alive (g g' : Game) :
  steps g g' ->
  (aliveCount (enemies g) <= ACTIVE_ENEMY_COUNT)%nat ->
  (aliveCount (enemies g') <= ACTIVE_ENEMY_COUNT)%nat.
Proof.
  apply (steps_invariant
           (fun h => (aliveCount (enemies h) <= ACTIVE_ENEMY_COUNT)%nat)
           step_aliveCount).
Qed.

Lemma at_most_five_alive_witness :
  (aliveCount (enemies (shootWeapon duelGame)) <= ACTIVE_ENEMY_COUNT)%nat.
Proof.
  assert (Hrun : steps duelGame (shootWeapon duelGame)).
  { eapply steps_next; [apply steps_refl | apply step_click]. }
  assert (H0 : (aliveCount (enemies duelGame) <= ACTIVE_ENEMY_COUNT)%nat).
  { unfold aliveCount, ACTIVE_ENEMY_COUNT. simpl. lia. }
  exact (at_most_five_alive _ _ Hrun H0).
Defined.

Lemma step_vitals (g g' : Game) :
  step g g' ->
  vitalsOk (vitalsOf g) /\ flashTimersOk g ->
  vitalsOk (vitalsOf g') /\ flashTimersOk g'.
Proof.
  intros Hstep Hg.
  assert (Hsame : forall h,
    health h = health g -> armor h = armor g ->
    damageFlash h = damageFlash g -> gameOver h = gameOver g ->
    (muzzleTimer h = muzzleTimer g /\ bulletTimer h = bulletTimer g \/
     muzzleTimer h = 0.15 /\ bulletTimer h = 0.1) ->
    vitalsOk (vitalsOf h) /\ flashTimersOk h).
  { intros h Hh Ha Hf Ho Ht.
    destruct Hg as [(Harm & Hfl & Hover) (Hmz & Hbl & Hdf)].
    unfold vitalsOk, flashTimersOk, vitalsOf in *.
    cbn [vHealth vArmor vFlash vGameOver] in *.
    rewrite Hh, Ha, Hf, Ho.
    split; [repeat split; (lra || assumption)|].
    destruct Ht as [[-> ->] | [-> ->]]; repeat split; lra. }
  destruct (step_kinds g g' Hstep)
    as [-> | [[f [_ ->]] | [[k ->] | [-> | [-> | [(rnd & _ & Hstart) | [-> | Hframe]]]]]]].
  - exact Hg.
  - exact Hg.
  - exact Hg.
  - destruct (reloadWeapon_rest g) as (Hh & Ha & Hf & Hm & Hb & _).
    destruct (reloadWeapon_frame g) as (_ & _ & _ & _ & _ & _ & _ & Ho).
    apply Hsame; try assumption. left. split; assumption.
  - destruct (shootWeapon_effect g)
      as (_ & _ & _ & Ho & Hh & Ha & Hf & _ & _ & _ & _ & Ht).
    apply Hsame; assumption.
  - destruct (startGame_effect rnd g)
      as (g1 & Hrun & _ & Ho & _ & _ & Hh & Ha & _).
    rewrite Hrun in Hstart. inversion Hstart; subst g'.
    destruct (startGame_timers rnd g g1 Hrun) as (Hm & Hb & Hf).
    destruct Hg as [(Harm & Hfl & Hover) (Hmz & Hbl & Hdf)].
    unfold vitalsOk, flashTimersOk, vitalsOf in *.
    cbn [vHealth vArmor vFlash vGameOver] in *.
    rewrite Hh, Ha, Hf, Ho, Hm, Hb.
    repeat split; first [lra | intros Habs; exfalso; lra].
  - pose proof (reloadTimerFires_rest g) as Hfire. cbv zeta in Hfire.
    destruct Hfire as [Hfire | [-> _]]; [|exact Hg].
    destruct Hfire as (_ & _ & _ & _ & Ho & _ & Hh & Ha & Hm & Hb & Hf & _).
    apply Hsame; try assumption. left. split; assumption.
  - destruct Hframe as (fuel & cv & bamboo & sandData & rnd & dt & c & f & Hdt
                        & Hrun
                        & ->).
    destruct (frame_effect _ _ _ _ _ _ _ _ _ Hdt Hrun)
      as (_ & _ & _ & _ & _ & _ & _ & _ & _ & Hvit & Hmz & Hbl & _).
    destruct Hg as [Hv (Hm & Hb & Hdf)].
    destruct (Hvit Hv) as [Hv' _].
    split; [exact Hv'|].
    split; [exact (Hmz Hm)|]. split; [exact (Hbl Hb)|].
    destruct Hv' as (_ & Hfl & _). exact Hfl.
Qed.

(** Over any run of events the armour is never negative, the game is
    flagged over whenever the health is used up, and the opacities drawn
    from the flash timers stay in range: that of the damage overlay within
    [0, 0.4], that of the bullet within [0, 1]. *)
Theorem vitals_and_flashes_stay_in_range (g g' : Game) :
  steps g g' ->
  vitalsOk (vitalsOf g) /\ flashTimersOk g ->
  0 <= armor g' /\
  (health g' <= 0 -> gameOver g' = true) /\
  0 <= damageOverlayAlpha g' <= 0.4 /\
  0 <= bulletAlpha g' <= 1 /\
  0 <= muzzleTimer g' <= 0.15.
Proof.
  intros Hrun Hg.
  destruct (steps_invariant
              (fun h => vitalsOk (vitalsOf h) /\ flashTimersOk h)
              step_vitals g g' Hrun Hg)
    as [(Harm & _ & Hover) (Hmz & Hbl & Hdf)].
  cbn [vitalsOf vHealth vArmor vGameOver] in Harm, Hover.
  unfold damageOverlayAlpha, bulletAlpha.
  repeat split; try assumption; lra.
Qed.

Lemma vitals_and_flashes_witness :
  0 <= bulletAlpha (shootWeapon duelGame) <= 1.
Proof.
  assert (Hrun : steps duelGame (shootWeapon duelGame)).
  { eapply steps_next; [apply steps_refl | apply step_click]. }
  assert (H0 : vitalsOk (vitalsOf duelGame) /\ flashTimersOk duelGame).
  { unfold vitalsOk, flashTimersOk. simpl.
    repeat split; first [lra | intros Habs; exfalso; lra]. }
  exact (proj1 (proj2 (proj2 (proj2
           (vitals_and_flashes_stay_in_range _ _ Hrun H0))))).
Defined.

Lemma steps_progress (Q : Game -> Prop) (Rel : Game -> Game -> Prop) :
  (forall g, Rel g g) ->
  (forall a b c, Rel a b -> Rel b c -> Rel a c) ->
  (forall g g', step g g' -> Q g -> Q g' /\ Rel g g') ->
  forall g g', steps g g' -> Q g -> Q g' /\ Rel g g'.
Proof.
  intros Hrefl Htrans Hstep g g' Hrun.
  induction Hrun as [g | g g1 g2 _ IH Hlast]; intros Hg.
  - split; [exact Hg | apply Hrefl].
  - destruct (IH Hg) as [H1 Hr1].
    destruct (Hstep g1 g2 Hlast H1) as [H2 Hr2].
    split; [exact H2 | exact (Htrans _ _ _ Hr1 Hr2)].
Qed.

Lemma Forall2_length_eq {A B : Type} (P : A -> B -> Prop)
  (l : list A) (l' : list B) :
  Forall2 P l l' -> length l = length l'.
Proof. induction 1; simpl; congruence. Qed.

Lemma step_session (g g' : Game) :
  step g g' ->
  gameState g = playing /\ vitalsOk (vitalsOf g) ->
  (gameState g' = playing /\ vitalsOk (vitalsOf g')) /\
  ((kills g <= kills g')%Z /\
   (length (enemies g) <= length (enemies g'))%nat /\
   health g' <= health g /\ armor g' <= armor g /\
   (gameOver g = true -> gameOver g' = true) /\
   decorations g' = decorations g).
Proof.
  intros Hstep [Hplay Hv].
  assert (Hsame : forall h,
    gameState h = gameState g ->
    health h = health g -> armor h = armor g ->
    damageFlash h = damageFlash g -> gameOver h = gameOver g ->
    (kills g <= kills h)%Z ->
    length (enemies g) = length (enemies h) ->
    decorations h = decorations g ->
    (gameState h = playing /\ vitalsOk (vitalsOf h)) /\
    ((kills g <= kills h)%Z /\
     (length (enemies g) <= length (enemies h))%nat /\
     health h <= health g /\ armor h <= armor g /\
     (gameOver g = true -> gameOver h = true) /\
     decorations h = decorations g)).
  { intros h Hs Hh Ha Hf Ho Hk Hl Hd.
    split; [split; [congruence|]|].
    - unfold vitalsOk, vitalsOf in *.
      cbn [vHealth vArmor vFlash vGameOver] in *.
      rewrite Hh, Ha, Hf, Ho. exact Hv.
    - rewrite Hh, Ha, Ho, Hl.
      repeat split; try assumption; try lra; try lia. intros H; exact H. }
  destruct (step_kinds g g' Hstep)
    as [-> | [[f [_ ->]] | [[k ->] | [-> | [-> | [(rnd & Hmenu & _) | [-> | Hframe]]]]]]].
  - apply Hsame; try reflexivity; lia.
  - apply Hsame; try reflexivity; lia.
  - apply Hsame; try reflexivity; lia.
  - destruct (reloadWeapon_rest g) as (Hh & Ha & Hf & _ & _ & Hs & _).
    destruct (reloadWeapon_frame g) as (_ & He & Hd & _ & _ & _ & Hk & Ho).
    apply Hsame; try assumption; [lia | rewrite He; reflexivity].
  - destruct (shootWeapon_effect g)
      as (_ & Hd & _ & Ho & Hh & Ha & Hf & Hs & _ & He & Hk & _).
    apply Hsame; try assumption; [lia|].
    exact (Forall2_length_eq _ _ _ He).
  - congruence.
  - pose proof (reloadTimerFires_rest g) as Hfire. cbv zeta in Hfire.
    destruct Hfire as [Hfire | [-> _]];
      [|apply Hsame; try reflexivity; lia].
    destruct Hfire as (_ & He & Hd & _ & Ho & Hk & Hh & Ha & _ & _ & Hf & Hs
                       & _).
    apply Hsame; try assumption; [lia | rewrite He; reflexivity].
  - destruct Hframe as (fuel & cv & bamboo & sandData & rnd & dt & c & f & Hdt
                        & Hrun
                        & ->).
    destruct (frame_effect _ _ _ _ _ _ _ _ _ Hdt Hrun)
      as (Hk & _ & _ & _ & _ & _ & Hd & Hs & (es1 & Haged & Hes) & Hvit & _).
    destruct (Hvit Hv) as [Hv' (Hh & Ha & Ho)].
    cbn [vitalsOf vHealth vArmor vGameOver] in Hh, Ha, Ho.
    pose proof (Forall2_length_eq _ _ _ Haged) as Hlen.
    split; [split; [congruence | exact Hv']|].
    repeat split; try assumption; try lia.
    destruct Hes as [-> | (x & y & -> & _)];
      [|rewrite length_app; simpl]; lia.
Qed.

(** Once a session runs, no event ends it or undoes its progress: the
    state stays [playing], the kill counter never decreases, the enemy
    array never loses an entry, health and armour never increase, the end
    of the game is never revoked and the decorations stay as placed. *)
Theorem session_only_progresses (g g' : Game) :
  steps g g' ->
  gameState g = playing /\ vitalsOk (vitalsOf g) ->
  gameState g' = playing /\
  (kills g <= kills g')%Z /\
  (length (enemies g) <= length (enemies g'))%nat /\
  health g' <= health g /\ armor g' <= armor g /\
  (gameOver g = true -> gameOver g' = true) /\
  decorations g' = decorations g.
Proof.
  intros Hrun Hg.
  destruct (steps_progress
              (fun h => gameState h = playing /\ vitalsOk (vitalsOf h))
              (fun a b =>
                 (kills a <= kills b)%Z /\
                 (length (enemies a) <= length (enemies b))%nat /\
                 health b <= health a /\ armor b <= armor a /\
                 (gameOver a = true -> gameOver b = true) /\
                 decorations b = decorations a))
    with (g := g) (g' := g') as [[Hplay _] Hrel].
  - intros a. repeat split; try lia; try lra. intros H; exact H.
  - intros a b c (Hk1 & Hl1 & Hh1 & Ha1 & Ho1 & Hd1)
                 (Hk2 & Hl2 & Hh2 & Ha2 & Ho2 & Hd2).
    repeat split; try lia; try lra; [|congruence].
    intros H. apply Ho2, Ho1, H.
  - exact step_session.
  - exact Hrun.
  - exact Hg.
  - split; [exact Hplay | exact Hrel].
Qed.

Lemma session_only_progresses_witness :
  (kills duelGame <= kills (shootWeapon duelGame))%Z.
Proof.
  assert (Hrun : steps duelGame (shootWeapon duelGame)).
  { eapply steps_next; [apply steps_refl | apply step_click]. }
  assert (H0 : gameState duelGame = playing /\ vitalsOk (vitalsOf duelGame)).
  { split; [reflexivity|]. unfold vitalsOk. simpl.
    repeat split; first [lra | intros Habs; exfalso; lra]. }
  exact (proj1 (proj2 (session_only_progresses _ _ Hrun H0))).
Defined.

(** ** The end of the game *)

Lemma step_frozen (g g' : Game) :
  step g g' ->
  gameState g = playing /\ gameOver g = true ->
  (gameState g' = playing /\ gameOver g' = true) /\
  (kills g' = kills g /\ health g' = health g /\ armor g' = armor g /\
   enemies g' = enemies g /\ decorations g' = decorations g /\
   selectedWeapon g' = selectedWeapon g /\
   px (player g') = px (player g) /\ py (player g') = py (player g) /\
   pangle (player g') = pangle (player g) /\
   overlay g' = overlay g).
Proof.
  intros Hstep [Hplay Hover].
  assert (Hsame : (gameState g = playing /\ gameOver g = true) /\
    (kills g = kills g /\ health g = health g /\ armor g = armor g /\
     enemies g = enemies g /\ decorations g = decorations g /\
     selectedWeapon g = selectedWeapon g /\
     px (player g) = px (player g) /\ py (player g) = py (player g) /\
     pangle (player g) = pangle (player g) /\
     overlay g = overlay g)).
  { repeat split; try reflexivity; assumption. }
  destruct Hstep as [key g | key g | rnd g | g | g
                     | fuel cv bambooComplete sandData rnd dt g c f Hdt Hrun].
  - unfold keydown. rewrite Hplay, Hover. exact Hsame.
  - destruct key; exact Hsame.
  - unfold pressEnter. rewrite Hplay. exact Hsame.
  - unfold shootWeapon. rewrite Hover. exact Hsame.
  - pose proof (reloadTimerFires_rest g) as Hfire. cbv zeta in Hfire.
    destruct Hfire as [Hfire | [-> _]]; [|exact Hsame].
    destruct Hfire as (Hp & He & Hd & Hsel & Ho & Hk & Hh & Ha & _ & _ & _
                       & Hs & Hov & _).
    rewrite Hp, He, Hd, Hsel, Ho, Hk, Hh, Ha, Hs, Hov. exact Hsame.
  - destruct (gameLoop_cases _ _ _ _ _ _ _ _ _ Hrun)
      as [[-> _] | (_ & Habs & _)]; [exact Hsame | congruence].
Qed.

(** Once a session is over, no event changes its outcome: the kill
    counter, health, armour, the enemy array, the decorations, the selected
    weapon, the position and facing of the player and the overlay stay as
    they are, and the game stays over. *)
Theorem game_over_freezes_session (g g' : Game) :
  steps g g' ->
  gameState g = playing /\ gameOver g = true ->
  gameOver g' = true /\
  kills g' = kills g /\ health g' = health g /\ armor g' = armor g /\
  enemies g' = enemies g /\ decorations g' = decorations g /\
  selectedWeapon g' = selectedWeapon g /\
  px (player g') = px (player g) /\ py (player g') = py (player g) /\
  pangle (player g') = pangle (player g) /\
  overlay g' = overlay g.
Proof.
  intros Hrun Hg.
  destruct (steps_progress
              (fun h => gameState h = playing /\ gameOver h = true)
              (fun a b =>
                 kills b = kills a /\ health b = health a /\
                 armor b = armor a /\
                 enemies b = enemies a /\ decorations b = decorations a /\
                 selectedWeapon b = selectedWeapon a /\
                 px (player b) = px (player a) /\
                 py (player b) = py (player a) /\
                 pangle (player b) = pangle (player a) /\
                 overlay b = overlay a))
    with (g := g) (g' := g') as [[_ Hover] Hrel].
  - intros a. repeat split; reflexivity.
  - intros a b c (H1 & H2 & H3 & H4 & H5 & H6 & H7 & H8 & H9 & H10)
                 (K1 & K2 & K3 & K4 & K5 & K6 & K7 & K8 & K9 & K10).
    repeat split; congruence.
  - exact step_frozen.
  - exact Hrun.
  - exact Hg.
  - split; [exact Hover | exact Hrel].
Qed.

Lemma game_over_freezes_witness :
  enemies (shootWeapon (keydown Digit2 lostGame)) = enemies lostGame.
Proof.
  assert (Hrun : steps lostGame (shootWeapon (keydown Digit2 lostGame))).
  { eapply steps_next; [eapply steps_next; [apply steps_refl|]|].
    - apply step_keydown.
    - apply step_click. }
  assert (H0 : gameState lostGame = playing /\ gameOver lostGame = true)
    by (split; reflexivity).
  exact (proj1 (proj2 (proj2 (proj2 (proj2
           (game_over_freezes_session _ _ Hrun H0)))))).
Defined.

(** The game is never flagged over without a reason. *)
Lemma contactDamage_reason (dt : R) (v : Vitals) :
  (vGameOver v = true -> vHealth v <= 0) ->
  vGameOver (contactDamage dt v) = true -> vHealth (contactDamage dt v) <= 0.
Proof.
  intros Hv. unfold contactDamage. cbv zeta.
  set (dmg1 := 10 * dt - Rmin (vArmor v) (10 * dt * 0.6)).
  set (health1 := if Rltb 0 dmg1 then vHealth v - dmg1 else vHealth v).
  assert (Hle : health1 <= vHealth v).
  { unfold health1. destruct (Rltb 0 dmg1) eqn:Hd; [|lra].
    apply Rltb_spec in Hd. lra. }
  destruct (Rleb health1 0) eqn:Hz; cbn [vGameOver vHealth].
  - intros _. apply Rleb_true_iff in Hz. exact Hz.
  - intros Hover. specialize (Hv Hover). 
    unfold Rleb in Hz. destruct (Rle_dec health1 0); [discriminate|]. lra.
Qed.

Lemma updateEnemy_reason (dt : R) (p : Player) (e : Enemy) (v : Vitals) :
  (vGameOver v = true -> vHealth v <= 0) ->
  let v' := snd (stateOf (updateEnemy dt p e v)) in
  vGameOver v' = true -> vHealth v' <= 0.
Proof.
  intros Hv. cbv zeta. unfold updateEnemy.
  destruct (dying e).
  { destruct (Rleb _ 0); exact Hv. }
  destruct (negb (alive e)); [exact Hv|].
  cbv zeta.
  destruct (mapAt (Zfloor (ey e)) _) as [| |cx]; [exact Hv | |].
  - destruct (mapAt (Zfloor _) (Zfloor (ex e))) as [| |cy]; [exact Hv | |];
      cbn [stateOf snd]; destruct (Rltb _ 0.5);
      first [exact Hv | apply contactDamage_reason; exact Hv].
  - destruct (mapAt (Zfloor _) (Zfloor (ex e))) as [| |cy]; [exact Hv | |];
      cbn [stateOf snd]; destruct (Rltb _ 0.5);
      first [exact Hv | apply contactDamage_reason; exact Hv].
Qed.

Lemma updateEnemies_reason (dt : R) (p : Player) :
  forall (es : list Enemy) (v : Vitals),
    (vGameOver v = true -> vHealth v <= 0) ->
    let v' := snd (stateOf (updateEnemies dt p es v)) in
    vGameOver v' = true -> vHealth v' <= 0.
Proof.
  induction es as [|e rest IH]; intros v Hv; cbv zeta; [exact Hv|].
  cbn [updateEnemies].
  pose proof (updateEnemy_reason dt p e v Hv) as He. cbv zeta in He.
  destruct (updateEnemy dt p e v) as [[e' v'] | [e' v']];
    cbn [stateOf snd] in He; [|exact He].
  pose proof (IH v' He) as Hrest. cbv zeta in Hrest.
  destruct (updateEnemies dt p rest v') as [[rest' v''] | [rest' v'']];
    cbn [stateOf snd] in Hrest |- *; exact Hrest.
Qed.

Lemma simulate_reason (dt : R) (g : Game) :
  gameOver g = false ->
  gameOver (stateOf (simulate dt g)) = true ->
  health (stateOf (simulate dt g)) <= 0.
Proof.
  intros Hover.
  destruct (simulate_shape dt g)
    as (p' & es & v & m & b & fl & -> & _ & Hev & _).
  cbn [gameOver health].
  assert (H0 : vGameOver (vitalsOf g) = true -> vHealth (vitalsOf g) <= 0).
  { cbn [vitalsOf vGameOver]. rewrite Hover. discriminate. }
  destruct Hev as [Hev | [_ ->]]; [|exact H0].
  pose proof (updateEnemies_reason dt p' (enemies g) (vitalsOf g) H0) as Hr.
  cbv zeta in Hr. rewrite <- Hev in Hr. exact Hr.
Qed.

Lemma step_reason (g g' : Game) :
  step g g' -> endedForReason g -> endedForReason g'.
Proof.
  intros Hstep Hg.
  assert (Hsame : forall h,
    gameOver h = gameOver g -> health h = health g ->
    (kills g <= kills h)%Z -> endedForReason h).
  { intros h Ho Hh Hk. unfold endedForReason in *. rewrite Ho, Hh.
    intros Hover. destruct (Hg Hover) as [H | H]; [left; exact H|].
    right. lia. }
  destruct (step_kinds g g' Hstep)
    as [-> | [[f [_ ->]] | [[k ->] | [-> | [-> | [(rnd & _ & Hstart) | [-> | Hframe]]]]]]].
  - exact Hg.
  - exact Hg.
  - exact Hg.
  - destruct (reloadWeapon_rest g) as (Hh & _).
    destruct (reloadWeapon_frame g) as (_ & _ & _ & _ & _ & _ & Hk & Ho).
    apply Hsame; try assumption. lia.
  - destruct (shootWeapon_effect g)
      as (_ & _ & _ & Ho & Hh & _ & _ & _ & _ & _ & Hk & _).
    apply Hsame; try assumption. lia.
  - destruct (startGame_effect rnd g) as (g1 & Hrun & _ & Ho & _).
    rewrite Hrun in Hstart. inversion Hstart; subst g'.
    unfold endedForReason. rewrite Ho. discriminate.
  - pose proof (reloadTimerFires_rest g) as Hfire. cbv zeta in Hfire.
    destruct Hfire as [Hfire | [-> _]]; [|exact Hg].
    destruct Hfire as (_ & _ & _ & _ & Ho & Hk & Hh & _).
    apply Hsame; try assumption. lia.
  - destruct Hframe as (fuel & cv & bamboo & sandData & rnd & dt & c & f & Hdt
                        & Hrun
                        & ->).
    destruct (gameLoop_cases _ _ _ _ _ _ _ _ _ Hrun)
      as [[-> _] | (_ & Hover & [[-> _] | (g1 & Hsim & ->)])].
    + exact Hg.
    + cbn [stateOf]. unfold endedForReason. intros Hend. left.
      apply simulate_reason; assumption.
    + pose proof (simulate_reason dt g Hover) as Hr.
      rewrite Hsim in Hr. cbn [stateOf] in Hr.
      pose proof (spawnAndWin_effect rnd g1) as Hsp. cbv zeta in Hsp.
      destruct Hsp as (Hk & _ & _ & _ & _ & _ & _ & _ & _ & Hh & _ & _ & _
                       & _ & _ & Hend).
      unfold endedForReason. rewrite Hh, Hk.
      destruct Hend as [[Ho _] | (_ & _ & Hwin)]; [|right; exact Hwin].
      rewrite Ho. intros Hov. left. apply Hr. exact Hov.
Qed.

(** Over any run of events the game is flagged over only for a reason:
    the health is used up or the kill target is reached. *)
Theorem game_ends_only_by_death_or_victory (g g' : Game) :
  steps g g' -> endedForReason g -> endedForReason g'.
Proof. apply (steps_invariant endedForReason step_reason). Qed.

Lemma game_ends_witness : endedForReason (shootWeapon duelGame).
Proof.
  assert (Hrun : steps duelGame (shootWeapon duelGame)).
  { eapply steps_next; [apply steps_refl | apply step_click]. }
  assert (H0 : endedForReason duelGame).
  { unfold endedForReason. simpl. discriminate. }
  exact (game_ends_only_by_death_or_victory _ _ Hrun H0).
Defined.

(** ** The pose of the player *)

Lemma updatePlayer_angle (dt : R) (p : Player) :
  pangle (stateOf (updatePlayer dt p)) = turnedAngle dt p.
Proof.
  unfold updatePlayer. rewrite (moveVector_eta dt p).
  destruct (mapAt (Zfloor (py p)) _) as [| |cx]; [reflexivity | |].
  - destruct (mapAt (Zfloor _) _) as [| |cy]; reflexivity.
  - destruct (mapAt (Zfloor _) _) as [| |cy]; reflexivity.
Qed.

Lemma updatePlayer_cell (dt : R) (p : Player) :
  emptyCell (Zfloor (px p)) (Zfloor (py p)) ->
  let q := stateOf (updatePlayer dt p) in
  emptyCell (Zfloor (px q)) (Zfloor (py q)).
Proof.
  intros Hcell q.
  destruct (updatePlayer_pose dt p Hcell) as [Hx Hy]. fold q in Hx, Hy.
  assert (Hrow : emptyCell (Zfloor (px q)) (Zfloor (py p))).
  { rewrite Hx.
    destruct (isZero (mapAt (Zfloor (py p))
                        (Zfloor (px p + fst (moveVector dt p))))) eqn:Hz;
      [|exact Hcell].
    apply isZero_emptyCell. exact Hz. }
  rewrite Hy.
  destruct (isZero (mapAt (Zfloor (py p + snd (moveVector dt p)))
                      (Zfloor (px q)))) eqn:Hz; [|exact Hrow].
  apply isZero_emptyCell. exact Hz.
Qed.

Lemma updatePlayer_poseOk (dt : R) (p : Player) :
  poseOk p -> poseOk (stateOf (updatePlayer dt p)).
Proof.
  intros [Hcell _]. split.
  - apply updatePlayer_cell. exact Hcell.
  - rewrite updatePlayer_angle. unfold turnedAngle. cbv zeta.
    apply wrapAngle_range.
Qed.

Lemma frame_player (fuel : nat) (cv : Canvas) (bambooComplete : bool)
  (sandData : option Texture) (rnd : nat -> R) (dt : R) (g : Game)
  (c : Completion Game) (f : option Frame) :
  gameLoop fuel cv bambooComplete sandData rnd dt g = Some (c, f) ->
  player (stateOf c) = player g \/
  player (stateOf c) = stateOf (updatePlayer dt (player g)).
Proof.
  intros Hrun.
  destruct (simulate_shape dt g)
    as (p' & es & v & m & b & fl & Hshape & Hp & _).
  destruct (gameLoop_cases _ _ _ _ _ _ _ _ _ Hrun)
    as [[-> _] | (_ & _ & [[-> _] | (g1 & Hsim & ->)])].
  - left. reflexivity.
  - right. cbn [stateOf]. rewrite Hshape. cbn [player]. exact Hp.
  - right. pose proof (spawnAndWin_effect rnd g1) as Hsp. cbv zeta in Hsp.
    destruct Hsp as (_ & _ & _ & _ & _ & _ & _ & _ & Hpl & _).
    rewrite Hpl. rewrite Hsim in Hshape. cbn [stateOf] in Hshape.
    rewrite Hshape. cbn [player]. exact Hp.
Qed.

Lemma initialPlayer_poseOk : poseOk initialPlayer.
Proof.
  split.
  - simpl. rewrite (Zfloor_eq 2 2.5) by (simpl; lra). reflexivity.
  - simpl. pose proof PI_pos. lra.
Qed.

Lemma step_poseOk (g g' : Game) :
  step g g' -> poseOk (player g) -> poseOk (player g').
Proof.
  intros Hstep Hg.
  destruct (step_kinds g g' Hstep)
    as [-> | [[f [Hf ->]] | [[k ->] | [-> | [-> | [(rnd & _ & Hstart) | [-> | Hframe]]]]]]].
  - exact Hg.
  - destruct (Hf (player g)) as (Hx & Hy & Ha).
    unfold poseOk, setIntent. cbn [player setPlayer].
    rewrite Hx, Hy, Ha. exact Hg.
  - exact Hg.
  - destruct (reloadWeapon_frame g) as (Hp & _). rewrite Hp. exact Hg.
  - destruct (shootWeapon_effect g) as (Hp & _). rewrite Hp. exact Hg.
  - destruct (startGame_effect rnd g)
      as (g1 & Hrun & _ & _ & _ & _ & _ & _ & Hp & _).
    rewrite Hrun in Hstart. inversion Hstart; subst g'.
    rewrite Hp. exact initialPlayer_poseOk.
  - pose proof (reloadTimerFires_rest g) as Hfire. cbv zeta in Hfire.
    destruct Hfire as [Hfire | [-> _]]; [|exact Hg].
    destruct Hfire as (Hp & _). rewrite Hp. exact Hg.
  - destruct Hframe as (fuel & cv & bamboo & sandData & rnd & dt & c & f & Hdt
                        & Hrun
                        & ->).
    destruct (frame_player _ _ _ _ _ _ _ _ _ Hrun) as [-> | ->];
      [exact Hg | apply updatePlayer_poseOk; exact Hg].
Qed.

Lemma emptyCell_inside (x y : R) :
  emptyCell (Zfloor x) (Zfloor y) -> 1 <= x < 15 /\ 1 <= y < 15.
Proof.
  intros Hcell.
  pose proof (mapAt_value_inside _ _ _ Hcell) as Hin.
  assert (Hfree : isWall (mapAt (Zfloor y) (Zfloor x)) = false)
    by (rewrite Hcell; reflexivity).
  destruct (border_solid _ _ Hin Hfree) as [[Hx1 Hx2] [Hy1 Hy2]].
  pose proof (Zfloor_bound x) as [Hfx1 Hfx2].
  pose proof (Zfloor_bound y) as [Hfy1 Hfy2].
  apply IZR_le in Hx1, Hx2, Hy1, Hy2.
  repeat split; lra.
Qed.

(** Over any run of events the player never enters a wall: the cell of
    the player is an empty cell, hence off the outer ring of the grid, and
    the facing angle stays normalised to [-PI, PI]. *)
Theorem player_stays_in_open_cells (g g' : Game) :
  steps g g' -> poseOk (player g) ->
  emptyCell (Zfloor (px (player g'))) (Zfloor (py (player g'))) /\
  1 <= px (player g') < 15 /\ 1 <= py (player g') < 15 /\
  - PI <= pangle (player g') <= PI.
Proof.
  intros Hrun Hg.
  destruct (steps_invariant (fun h => poseOk (player h)) step_poseOk
              g g' Hrun Hg) as [Hcell Hangle].
  destruct (emptyCell_inside _ _ Hcell) as [Hx Hy].
  repeat split; try assumption; lra.
Qed.

Lemma player_stays_witness :
  emptyCell (Zfloor (px (player (keydown KeyW duelGame))))
            (Zfloor (py (player (keydown KeyW duelGame)))).
Proof.
  assert (Hrun : steps duelGame (keydown KeyW duelGame)).
  { eapply steps_next; [apply steps_refl | apply step_keydown]. }
  exact (proj1 (player_stays_in_open_cells _ _ Hrun initialPlayer_poseOk)).
Defined.




(** ** Speeds *)

Lemma moveVector_norm (dt : R) (p : Player) :
  fst (moveVector dt p) * fst (moveVector dt p)
  + snd (moveVector dt p) * snd (moveVector dt p)
  = (axisInput (moveForward p) (moveBackward p)
     * axisInput (moveForward p) (moveBackward p)
     + axisInput (strafeRight p) (strafeLeft p)
       * axisInput (strafeRight p) (strafeLeft p))
    * (moveSpeed * dt * (moveSpeed * dt)).
Proof.
  unfold moveVector. cbv zeta.
  set (a := turnedAngle dt p).
  assert (Hc : cos a * cos a = 1 - sin a * sin a).
  { pose proof (sin2_cos2 a) as H. unfold Rsqr in H. lra. }
  generalize dependent (cos a). generalize (sin a). intros s c Hc.
  unfold axisInput, moveSpeed.
  destruct (moveForward p), (moveBackward p), (strafeLeft p),
    (strafeRight p); cbn [fst snd]; ring [Hc].
Qed.

Lemma axisInput_sqr (a b : bool) : 0 <= axisInput a b * axisInput a b <= 1.
Proof. unfold axisInput. destruct a, b; lra. Qed.

Lemma updatePlayer_axes (dt : R) (p : Player) :
  let q := stateOf (updatePlayer dt p) in
  (px q = px p \/ px q = px p + fst (moveVector dt p)) /\
  (py q = py p \/ py q = py p + snd (moveVector dt p)).
Proof.
  cbv zeta. unfold updatePlayer. rewrite (moveVector_eta dt p).
  destruct (mapAt (Zfloor (py p)) _) as [| |cx].
  - split; left; reflexivity.
  - simpl isZero. cbv iota.
    destruct (mapAt (Zfloor _) _) as [| |cy]; cbn [stateOf withPose px py].
    + split; left; reflexivity.
    + split; left; reflexivity.
    + simpl isZero. destruct (cy =? 0)%Z;
        (split; [left; reflexivity | (left + right); reflexivity]).
  - simpl isZero. destruct (cx =? 0)%Z.
    + destruct (mapAt (Zfloor _) _) as [| |cy]; cbn [stateOf withPose px py].
      * split; [right | left]; reflexivity.
      * split; [right | left]; reflexivity.
      * simpl isZero. destruct (cy =? 0)%Z;
          (split; [right; reflexivity | (left + right); reflexivity]).
    + destruct (mapAt (Zfloor _) _) as [| |cy]; cbn [stateOf withPose px py].
      * split; left; reflexivity.
      * split; left; reflexivity.
      * simpl isZero. destruct (cy =? 0)%Z;
          (split; [left; reflexivity | (left + right); reflexivity]).
Qed.

(** The player never moves faster than the keys allow: the square of the
    displacement of one call of [updatePlayer] is at most the sum of the
    squares of the inputs of the two movement axes times
    (moveSpeed * dt)^2, so at most (moveSpeed * dt)^2 along one axis and
    twice that on a diagonal, whether or not the call is left by an
    exception. *)
Theorem player_step_bounded (dt : R) (p : Player) :
  let q := stateOf (updatePlayer dt p) in
  let walk := axisInput (moveForward p) (moveBackward p) in
  let strafe := axisInput (strafeRight p) (strafeLeft p) in
  (px q - px p) * (px q - px p) + (py q - py p) * (py q - py p)
  <= (walk * walk + strafe * strafe) * (moveSpeed * dt * (moveSpeed * dt))
  /\ (walk * walk + strafe * strafe) * (moveSpeed * dt * (moveSpeed * dt))
     <= 2 * (moveSpeed * dt * (moveSpeed * dt)).
Proof.
  cbv zeta. split.
  - rewrite <- moveVector_norm.
    destruct (updatePlayer_axes dt p) as [[-> | ->] [-> | ->]]; nra.
  - pose proof (axisInput_sqr (moveForward p) (moveBackward p)).
    pose proof (axisInput_sqr (strafeRight p) (strafeLeft p)).
    assert (0 <= moveSpeed * dt * (moveSpeed * dt)) by nra.
    nra.
Qed.

Lemma unit_vector (vx0 vy0 : R) :
  let dist := sqrt (vx0 * vx0 + vy0 * vy0) in
  let vx := if Rltb 0.001 dist then vx0 / dist else vx0 in
  let vy := if Rltb 0.001 dist then vy0 / dist else vy0 in
  vx * vx + vy * vy <= 1.
Proof.
  cbv zeta.
  assert (Hnn : 0 <= vx0 * vx0 + vy0 * vy0) by nra.
  pose proof (sqrt_sqrt _ Hnn) as Hsq.
  pose proof (sqrt_pos (vx0 * vx0 + vy0 * vy0)) as Hpos.
  set (dist := sqrt (vx0 * vx0 + vy0 * vy0)) in *.
  destruct (Rltb 0.001 dist) eqn:Hd.
  - apply Rltb_spec in Hd.
    assert (Hne : dist <> 0) by lra.
    replace (vx0 / dist * (vx0 / dist) + vy0 / dist * (vy0 / dist))
      with ((vx0 * vx0 + vy0 * vy0) / (dist * dist)) by (field; exact Hne).
    rewrite <- Hsq. unfold Rdiv. rewrite Rinv_r; [lra|].
    intros H0. apply Rmult_integral in H0. destruct H0; contradiction.
  - unfold Rltb in Hd. destruct (Rlt_dec 0.001 dist); [discriminate|].
    assert (dist * dist <= 0.001 * 0.001) by nra. lra.
Qed.

Lemma updateEnemy_movedWithin (dt : R) (p : Player) (e : Enemy) (v : Vitals) :
  movedWithin dt e (fst (stateOf (updateEnemy dt p e v))).
Proof.
  assert (Hstill : forall e', ex e' = ex e -> ey e' = ey e ->
                              movedWithin dt e e').
  { intros e' Hx Hy. unfold movedWithin. rewrite Hx, Hy. nra. }
  unfold updateEnemy.
  destruct (dying e).
  { destruct (Rleb _ 0); apply Hstill; reflexivity. }
  destruct (negb (alive e)); [apply Hstill; reflexivity|].
  pose proof (unit_vector (px p - ex e) (py p - ey e)) as Hunit.
  cbv zeta in Hunit |- *.
  set (dist := sqrt ((px p - ex e) * (px p - ex e)
                     + (py p - ey e) * (py p - ey e))) in *.
  set (vx := if Rltb 0.001 dist then (px p - ex e) / dist else px p - ex e)
    in *.
  set (vy := if Rltb 0.001 dist then (py p - ey e) / dist else py p - ey e)
    in *.
  assert (Hx2 : 0 <= vx * 1.0 * dt * (vx * 1.0 * dt)) by nra.
  assert (Hy2 : 0 <= vy * 1.0 * dt * (vy * 1.0 * dt)) by nra.
  assert (Hsum : vx * 1.0 * dt * (vx * 1.0 * dt)
                 + vy * 1.0 * dt * (vy * 1.0 * dt) <= dt * dt).
  { replace (vx * 1.0 * dt * (vx * 1.0 * dt)
             + vy * 1.0 * dt * (vy * 1.0 * dt))
      with ((vx * vx + vy * vy) * (dt * dt)) by lra.
    assert (0 <= dt * dt) by nra. nra. }
  assert (Hmove : forall x1 y1,
            (x1 = ex e \/ x1 = ex e + vx * 1.0 * dt) ->
            (y1 = ey e \/ y1 = ey e + vy * 1.0 * dt) ->
            movedWithin dt e (withPosition x1 y1 e)).
  { intros x1 y1 Hx Hy. unfold movedWithin. cbn [withPosition ex ey].
    destruct Hx as [-> | ->], Hy as [-> | ->]; nra. }
  destruct (mapAt (Zfloor (ey e)) _) as [| |cx];
    [apply Hstill; reflexivity | |].
  - destruct (mapAt (Zfloor _) (Zfloor (ex e))) as [| |cy];
      cbn [stateOf fst].
    + apply Hmove; left; reflexivity.
    + apply Hmove; left; reflexivity.
    + apply Hmove; [left; reflexivity|].
      simpl isZero. destruct (cy =? 0)%Z; [right | left]; reflexivity.
  - destruct (mapAt (Zfloor _) (Zfloor (ex e))) as [| |cy];
      cbn [stateOf fst]; simpl isZero.
    + apply Hmove; [|left; reflexivity].
      destruct (cx =? 0)%Z; [right | left]; reflexivity.
    + apply Hmove; [|left; reflexivity].
      destruct (cx =? 0)%Z; [right | left]; reflexivity.
    + apply Hmove.
      * destruct (cx =? 0)%Z; [right | left]; reflexivity.
      * destruct (cy =? 0)%Z; [right | left]; reflexivity.
Qed.

(** In one frame no enemy is displaced by more than [dt], the distance
    covered at speed 1: not when its step is not normalised because it is
    within 0.001 of the player, not when the loop is left by an
    exception; a dying or dead enemy is not displaced at all. *)
Theorem enemies_step_bounded (dt : R) (p : Player) :
  forall (es : list Enemy) (v : Vitals),
    Forall2 (fun e e' =>
               movedWithin dt e e' /\
               (dying e = true \/ alive e = false ->
                ex e' = ex e /\ ey e' = ey e))
      es (fst (stateOf (updateEnemies dt p es v))).
Proof.
  assert (Hone : forall e v,
    let e' := fst (stateOf (updateEnemy dt p e v)) in
    movedWithin dt e e' /\
    (dying e = true \/ alive e = false -> ex e' = ex e /\ ey e' = ey e)).
  { intros e v. cbv zeta. split; [apply updateEnemy_movedWithin|].
    intros Hgone. unfold updateEnemy.
    destruct (dying e).
    - destruct (Rleb _ 0); split; reflexivity.
    - destruct Hgone as [Habs | ->]; [discriminate|].
      split; reflexivity. }
  assert (Hrest : forall es : list Enemy,
    Forall2 (fun e e' =>
               movedWithin dt e e' /\
               (dying e = true \/ alive e = false ->
                ex e' = ex e /\ ey e' = ey e)) es es).
  { induction es as [|e rest IH]; constructor; [|exact IH].
    split; [unfold movedWithin; nra | intros _; split; reflexivity]. }
  induction es as [|e rest IH]; intros v; [constructor|].
  cbn [updateEnemies].
  pose proof (Hone e v) as He. cbv zeta in He.
  destruct (updateEnemy dt p e v) as [[e' v'] | [e' v']];
    cbn [stateOf fst] in He.
  - specialize (IH v').
    destruct (updateEnemies dt p rest v') as [[rest' v''] | [rest' v'']];
      cbn [stateOf fst] in IH |- *; constructor; assumption.
  - cbn [stateOf fst]. constructor; [exact He | apply Hrest].
Qed.

(** ** Billboards and the depth buffer *)

(** The column a billboard is tested in: the column of the last ray at or
    to the left of its direction. *)
Lemma billboard_column (cv : Canvas) (p : Player) (angle : R) (k : Z) :
  (0 < width cv)%Z ->
  Rltb (FOV / 2) (Rabs angle) = false ->
  k = Zfloor ((angle + FOV / 2) / FOV * IZR (width cv) / stripWidth cv) ->
  (0 <= k < Z.of_nat numRays)%Z ->
  rayOffset p (Z.to_nat k) <= angle
  /\ angle < rayOffset p (Z.to_nat k) + FOV / INR numRays
  /\ angle < FOV / 2
  /\ 0 <= (angle + FOV / 2) / FOV * IZR (width cv) < IZR (width cv).
Proof.
  intros Hw Hfov Hk Hrange.
  pose proof FOV_pos as Hpos.
  assert (HW : 0 < IZR (width cv)) by (apply IZR_lt in Hw; exact Hw).
  assert (Habs : Rabs angle <= FOV / 2).
  { unfold Rltb in Hfov. destruct (Rlt_dec (FOV / 2) (Rabs angle));
      [discriminate | lra]. }
  assert (Hin : - (FOV / 2) <= angle <= FOV / 2)
    by (unfold Rabs in Habs; destruct (Rcase_abs angle); lra).
  set (t := (angle + FOV / 2) / FOV) in *.
  assert (Ht : t * FOV = angle + FOV / 2) by (unfold t; field; lra).
  assert (Hratio : t * IZR (width cv) / stripWidth cv = t * 480).
  { unfold stripWidth. rewrite INR_numRays. field. lra. }
  rewrite Hratio in Hk.
  pose proof (Zfloor_bound (t * 480)) as [Hlo Hhi]. rewrite <- Hk in Hlo, Hhi.
  rewrite rayOffset_formula, INR_numRays.
  assert (Hnat : INR (Z.to_nat k) = IZR k).
  { rewrite INR_IZR_INZ, Z2Nat.id by lia. reflexivity. }
  rewrite Hnat.
  assert (Hk480 : IZR k + 1 <= 480).
  { destruct Hrange as [_ Hlt]. unfold numRays in Hlt.
    assert (Hle : (k + 1 <= 480)%Z) by lia.
    apply IZR_le in Hle. rewrite plus_IZR in Hle. exact Hle. }
  assert (Hk0 : 0 <= IZR k) by (apply IZR_le; lia).
  assert (Hup : angle < - (FOV / 2) + FOV * IZR k / 480 + FOV / 480) by nra.
  assert (Ht1 : t < 1) by nra.
  assert (Ht0 : 0 <= t) by nra.
  repeat split; try nra.
Qed.

(** An enemy sprite with a finite rectangle is drawn only for an enemy at
    a distance that is not zero, within the field of view and nearer than
    the wall depth recorded for one column: the column of the last ray at
    or to the left of the direction of the enemy.  The sprite is centred on
    that direction and on the horizon, twice as high as wide.  (For an
    enemy at distance 0 the rectangle handed to [drawImage] is not
    finite.) *)
Theorem enemy_sprite_tested_in_its_column (cv : Canvas) (zBuffer : list R)
  (p : Player) (e : Enemy) (sd : SpriteDraw) :
  (0 < width cv)%Z ->
  length zBuffer = numRays ->
  enemySprite cv zBuffer p e = Draw sd ->
  0 < enemyDist p e /\
  exists (i : nat) (z : R),
    (i < numRays)%nat /\
    nth_error zBuffer i = Some z /\ enemyDist p e < z /\
    rayOffset p i <= enemyAngle p e /\
    enemyAngle p e < rayOffset p i + FOV / INR numRays /\
    enemyAngle p e < FOV / 2 /\
    rectX (spriteRect sd) + rectW (spriteRect sd) / 2
    = (enemyAngle p e + FOV / 2) / FOV * IZR (width cv) /\
    0 <= rectX (spriteRect sd) + rectW (spriteRect sd) / 2
      < IZR (width cv) /\
    rectY (spriteRect sd) + rectH (spriteRect sd) / 2
    = IZR (screenHeight cv) / 2 /\
    rectH (spriteRect sd) = 2 * rectW (spriteRect sd).
Proof.
  intros Hw Hlen. unfold enemySprite. cbv zeta.
  set (angle := enemyAngle p e). set (dist := enemyDist p e).
  set (k := Zfloor ((angle + FOV / 2) / FOV * IZR (width cv) / stripWidth cv)).
  destruct (Rltb (FOV / 2) (Rabs angle)) eqn:Hfov; [discriminate|].
  destruct ((0 <=? k)%Z && (k <? Z.of_nat (length zBuffer))%Z) eqn:Hb;
    [|discriminate].
  apply andb_true_iff in Hb. destruct Hb as [Hk0 Hk1].
  apply Z.leb_le in Hk0. apply Z.ltb_lt in Hk1. rewrite Hlen in Hk1.
  destruct (lookupZ zBuffer k) as [z|] eqn:Hl; [|discriminate].
  destruct (Rltb dist z) eqn:Hd; [|discriminate].
  destruct (Req_dec_T (dist * cos angle) 0) as [Hzero | Hden];
    [discriminate|].
  intros Hsd. inversion Hsd; subst sd. clear Hsd.
  cbn [spriteRect rectX rectY rectW rectH].
  destruct (billboard_column cv p angle k Hw Hfov eq_refl (conj Hk0 Hk1))
    as (Hlo & Hhi & Hhalf & Hx).
  split.
  { assert (Hnn : 0 <= dist) by (unfold dist, enemyDist; apply sqrt_pos).
    destruct (Req_dec_T dist 0) as [H0 | H0]; [|lra].
    exfalso. apply Hden. rewrite H0. lra. }
  exists (Z.to_nat k), z.
  split; [lia|].
  split.
  { unfold lookupZ in Hl. destruct (k <? 0)%Z; [discriminate | exact Hl]. }
  split; [apply Rltb_spec; exact Hd|].
  split; [exact Hlo|]. split; [exact Hhi|]. split; [exact Hhalf|].
  split; [lra|]. split; [|split; lra].
  replace (_ + _ / 2) with ((angle + FOV / 2) / FOV * IZR (width cv))
    by lra.
  exact Hx.
Qed.

Lemma straight_ahead_column :
  Zfloor ((0 + FOV / 2) / FOV * IZR (width sampleCanvas)
          / stripWidth sampleCanvas) = 240%Z.
Proof.
  pose proof FOV_pos as Hpos.
  replace ((0 + FOV / 2) / FOV * IZR (width sampleCanvas)
           / stripWidth sampleCanvas) with 240.
  - apply Zfloor_eq. simpl. lra.
  - unfold stripWidth. rewrite INR_numRays. simpl width. field. lra.
Qed.

Lemma enemy_sprite_witness :
  exists (i : nat) (z : R),
    nth_error openView i = Some z /\
    enemyDist initialPlayer (newEnemy 4.5 2.5) < z.
Proof.
  assert (Hangle : enemyAngle initialPlayer (newEnemy 4.5 2.5) = 0).
  { apply enemyAngle_straight_ahead; simpl; lra. }
  assert (Hdist : enemyDist initialPlayer (newEnemy 4.5 2.5) = 2).
  { unfold enemyDist. simpl.
    replace ((4.5 - 2.5) * (4.5 - 2.5) + (2.5 - 2.5) * (2.5 - 2.5))
      with (2 * 2) by lra.
    apply sqrt_square. lra. }
  assert (Hdraw : exists sd,
    enemySprite sampleCanvas openView initialPlayer (newEnemy 4.5 2.5)
    = Draw sd).
  { unfold enemySprite. cbv zeta. rewrite Hangle, Hdist.
    rewrite Rabs_R0, Rltb_false by (pose proof FOV_pos; lra).
    rewrite straight_ahead_column.
    change (lookupZ openView 240) with (Some 5).
    change ((0 <=? 240)%Z && (240 <? Z.of_nat (length openView))%Z)
      with true.
    cbv iota. rewrite Rltb_true by lra.
    destruct (Req_dec_T (2 * cos 0) 0) as [Hzero | _];
      [rewrite cos_0 in Hzero; lra|].
    eexists. reflexivity. }
  destruct Hdraw as [sd Hsd].
  destruct (enemy_sprite_tested_in_its_column sampleCanvas openView
              initialPlayer (newEnemy 4.5 2.5) sd eq_refl eq_refl Hsd)
    as (_ & i & z & _ & Hz & Hlt & _).
  exists i, z. split; [exact Hz | exact Hlt].
Defined.

Lemma projectionPlane_pos (cv : Canvas) :
  (0 < screenHeight cv)%Z -> 0 < projectionPlane cv.
Proof.
  intros Hh. unfold projectionPlane. apply IZR_lt in Hh.
  pose proof tan_half_FOV_bounds as [Hlo _].
  apply Rmult_lt_0_compat; [lra|]. apply Rinv_0_lt_compat. exact Hlo.
Qed.

Lemma cos_in_view_pos (angle : R) :
  Rltb (FOV / 2) (Rabs angle) = false -> 0 < cos angle.
Proof.
  intros Hfov. unfold Rltb in Hfov.
  destruct (Rlt_dec (FOV / 2) (Rabs angle)) as [|Hn]; [discriminate|].
  pose proof half_FOV_bounds as [_ Hhi]. pose proof PI_pos as Hpi.
  assert (Hin : - (FOV / 2) <= angle <= FOV / 2)
    by (unfold Rabs in Hn; destruct (Rcase_abs angle); lra).
  apply cos_gt_0; lra.
Qed.

(** A decoration is drawn only when it lies within the field of view and
    nearer than the wall depth recorded for the column of the last ray at
    or to the left of its direction.  Its sprite then stands across the
    horizon: it starts above it and ends below it, by half of its height
    for a tree and by 0.95 of its height for a rock or a bush. *)
Theorem decoration_sprite_straddles_horizon (cv : Canvas) (zBuffer : list R)
  (p : Player) (d : Decoration) (r : Rect) :
  (0 < width cv)%Z ->
  (0 < screenHeight cv)%Z ->
  length zBuffer = numRays ->
  0 < decorDist p d ->
  decorSprite cv zBuffer p d = Some r ->
  (exists (i : nat) (z : R),
     (i < numRays)%nat /\
     nth_error zBuffer i = Some z /\ decorDist p d < z /\
     rayOffset p i <= decorAngle p d /\
     decorAngle p d < rayOffset p i + FOV / INR numRays) /\
  0 <= rectX r + rectW r / 2 < IZR (width cv) /\
  0 < rectW r /\
  rectH r = (if isTallDecor d then 2 * rectW r else rectW r) /\
  rectY r < IZR (screenHeight cv) / 2 < rectBottom r /\
  rectBottom r
  = IZR (screenHeight cv) / 2
    + (if isTallDecor d then 0.5 else 0.95) * rectH r.
Proof.
  intros Hw Hh Hlen Hdist. unfold decorSprite. cbv zeta.
  set (angle := decorAngle p d) in *. set (dist := decorDist p d) in *.
  set (k := Zfloor ((angle + FOV / 2) / FOV * IZR (width cv) / stripWidth cv)).
  destruct (Rltb (FOV / 2) (Rabs angle)) eqn:Hfov; [discriminate|].
  destruct ((0 <=? k)%Z && (k <? Z.of_nat (length zBuffer))%Z) eqn:Hb;
    [|discriminate].
  apply andb_true_iff in Hb. destruct Hb as [Hk0 Hk1].
  apply Z.leb_le in Hk0. apply Z.ltb_lt in Hk1. rewrite Hlen in Hk1.
  destruct (lookupZ zBuffer k) as [z|] eqn:Hl; [|discriminate].
  destruct (Rltb dist z) eqn:Hd; [|discriminate].
  intros Hr. inversion Hr; subst r. clear Hr.
  unfold rectBottom. cbn [rectX rectY rectW rectH].
  destruct (billboard_column cv p angle k Hw Hfov eq_refl (conj Hk0 Hk1))
    as (Hlo & Hhi & _ & Hx).
  assert (Hsize : 0 < projectionPlane cv / (dist * cos angle)).
  { apply Rdiv_lt_0_compat; [apply projectionPlane_pos; exact Hh|].
    apply Rmult_lt_0_compat; [exact Hdist | apply cos_in_view_pos, Hfov]. }
  set (baseSize := projectionPlane cv / (dist * cos angle)) in *.
  split.
  { exists (Z.to_nat k), z. split; [lia|]. split.
    { unfold lookupZ in Hl. destruct (k <? 0)%Z; [discriminate | exact Hl]. }
    split; [apply Rltb_spec; exact Hd|]. split; assumption. }
  split.
  { replace (_ + _ / 2) with ((angle + FOV / 2) / FOV * IZR (width cv))
      by lra.
    exact Hx. }
  split; [exact Hsize|].
  destruct (isTallDecor d); repeat split; lra.
Qed.

Lemma decoration_sprite_witness :
  exists r,
    decorSprite sampleCanvas openView initialPlayer treeAhead = Some r /\
    rectY r < IZR (screenHeight sampleCanvas) / 2 < rectBottom r.
Proof.
  assert (Hangle : decorAngle initialPlayer treeAhead = 0).
  { unfold decorAngle, treeAhead, atan2. simpl.
    destruct (Rlt_dec 0 (4.5 - 2.5)) as [_ | Hn]; [|lra].
    replace ((2.5 - 2.5) / (4.5 - 2.5)) with 0 by (field; lra).
    rewrite atan_0. replace (0 - 0) with 0 by lra.
    apply wrapAngle_fixed. pose proof PI_pos. lra. }
  assert (Hdist : decorDist initialPlayer treeAhead = 2).
  { unfold decorDist, treeAhead. simpl.
    replace ((4.5 - 2.5) * (4.5 - 2.5) + (2.5 - 2.5) * (2.5 - 2.5))
      with (2 * 2) by lra.
    apply sqrt_square. lra. }
  assert (Hdraw : exists r,
    decorSprite sampleCanvas openView initialPlayer treeAhead = Some r).
  { unfold decorSprite. cbv zeta. rewrite Hangle, Hdist.
    rewrite Rabs_R0, Rltb_false by (pose proof FOV_pos; lra).
    rewrite straight_ahead_column.
    change (lookupZ openView 240) with (Some 5).
    change ((0 <=? 240)%Z && (240 <? Z.of_nat (length openView))%Z)
      with true.
    cbv iota. rewrite Rltb_true by lra. eexists. reflexivity. }
  destruct Hdraw as [r Hr].
  assert (Hpos : 0 < decorDist initialPlayer treeAhead)
    by (rewrite Hdist; lra).
  destruct (decoration_sprite_straddles_horizon sampleCanvas openView
              initialPlayer treeAhead r eq_refl eq_refl eq_refl Hpos Hr)
    as (_ & _ & _ & _ & Hy & _).
  exists r. split; [exact Hr | exact Hy].
Defined.

(** ** Ammunition *)

Lemma neverMore_refl (w : Weapon) : neverMore w w.
Proof.
  unfold neverMore. destruct (totalAmmo w) as [n|]; [|reflexivity].
  exists n. split; [reflexivity | lia].
Qed.

Lemma neverMore_trans (a b c : Weapon) :
  neverMore a b -> neverMore b c -> neverMore a c.
Proof.
  unfold neverMore. destruct (totalAmmo a) as [n|].
  - intros (n1 & Hb & Hle1). rewrite Hb. intros (n2 & Hc & Hle2).
    exists n2. split; [exact Hc | lia].
  - intros Hb. rewrite Hb. intros Hc. exact Hc.
Qed.

Lemma neverMore_shot (w : Weapon) :
  neverMore w (mkWeapon (magazine w - 1) (totalAmmo w)).
Proof.
  unfold neverMore. cbn [totalAmmo magazine].
  destruct (totalAmmo w) as [n|]; [|reflexivity].
  exists n. split; [reflexivity | lia].
Qed.

Lemma neverMore_refill (k : WeaponKey) (w : Weapon) :
  neverMore w
    (mkWeapon (magazine w + ammoMin (ammoCapacity k - magazine w) (totalAmmo w))
       (ammoSub (totalAmmo w)
          (ammoMin (ammoCapacity k - magazine w) (totalAmmo w)))).
Proof.
  unfold neverMore. cbn [totalAmmo magazine].
  destruct (totalAmmo w) as [n|]; [|reflexivity].
  eexists. split; [reflexivity|]. simpl. lia.
Qed.

Lemma step_neverMore (g g' : Game) :
  step g g' -> forall k, neverMore (weapon g k) (weapon g' k).
Proof.
  intros Hstep.
  assert (Hsame : forall h,
    weaponShotgun h = weaponShotgun g -> weaponLaser h = weaponLaser g ->
    forall k, neverMore (weapon g k) (weapon h k)).
  { intros h Hs Hl k. destruct k; cbn [weapon]; rewrite ?Hs, ?Hl;
      apply neverMore_refl. }
  assert (Hone : forall h k w,
    weapon h k = w -> weapon h (otherWeapon k) = weapon g (otherWeapon k) ->
    neverMore (weapon g k) w ->
    forall k', neverMore (weapon g k') (weapon h k')).
  { intros h k w Hk Ho Hw k'.
    destruct k, k'; cbn [otherWeapon] in Ho; rewrite ?Hk, ?Ho;
      first [exact Hw | apply neverMore_refl]. }
  destruct (step_kinds g g' Hstep)
    as [-> | [[f [_ ->]] | [[k ->] | [-> | [-> | [(rnd & _ & Hstart) | [-> | Hframe]]]]]]].
  - apply Hsame; reflexivity.
  - apply Hsame; reflexivity.
  - apply Hsame; reflexivity.
  - destruct (reloadWeapon_frame g) as (_ & _ & _ & Hs & Hl & _).
    apply Hsame; assumption.
  - destruct (shootWeapon_cases g)
      as [-> | [(_ & _ & _ & ->) | (Ho & Hr & Hm)]].
    + apply Hsame; reflexivity.
    + destruct (reloadWeapon_frame g) as (_ & _ & _ & Hs & Hl & _).
      apply Hsame; assumption.
    + destruct (shootWeapon_fired_exact g Ho Hr Hm)
        as (g3 & Hw & Hother & _ & _ & _ & Hshoot).
      assert (H3 : forall k', neverMore (weapon g k') (weapon g3 k')).
      { apply (Hone g3 (selectedWeapon g) _ Hw Hother).
        apply neverMore_shot. }
      rewrite Hshoot. destruct ((_ <=? 0)%Z && _); [|exact H3].
      destruct (reloadWeapon_frame g3) as (_ & _ & _ & Hs & Hl & _).
      intros k'. specialize (H3 k').
      destruct k'; cbn [weapon] in *; rewrite ?Hs, ?Hl; exact H3.
  - destruct (startGame_effect rnd g)
      as (g1 & Hrun & _ & _ & _ & _ & _ & _ & _ & _ & _ & _ & Hs & Hl & _).
    rewrite Hrun in Hstart. inversion Hstart; subst g'.
    apply Hsame; assumption.
  - unfold reloadTimerFires.
    destruct (reloadTimer g) as [k|]; [|apply Hsame; reflexivity].
    apply (Hone _ k
             (mkWeapon
                (magazine (weapon g k)
                 + ammoMin (ammoCapacity k - magazine (weapon g k))
                     (totalAmmo (weapon g k)))
                (ammoSub (totalAmmo (weapon g k))
                   (ammoMin (ammoCapacity k - magazine (weapon g k))
                      (totalAmmo (weapon g k)))))).
    + destruct k; reflexivity.
    + destruct k; reflexivity.
    + apply neverMore_refill.
  - destruct Hframe as (fuel & cv & bamboo & sandData & rnd & dt & c & f & Hdt
                        & Hrun
                        & ->).
    destruct (frame_effect _ _ _ _ _ _ _ _ _ Hdt Hrun) as (_ & Hs & Hl & _).
    apply Hsame; assumption.
Qed.

(** No event creates ammunition: over any run of events a weapon with an
    unlimited reserve keeps it, and for a weapon with a finite reserve the
    rounds in the magazine and in the reserve together never increase (a
    reload only moves rounds from the reserve to the magazine). *)
Theorem ammunition_is_never_created (g g' : Game) :
  steps g g' -> forall k, neverMore (weapon g k) (weapon g' k).
Proof.
  intros Hrun. induction Hrun as [g | g g1 g2 _ IH Hlast]; intros k.
  - apply neverMore_refl.
  - exact (neverMore_trans _ _ _ (IH k) (step_neverMore _ _ Hlast k)).
Qed.

Lemma ammunition_witness :
  neverMore (weapon lowAmmoGame shotgun)
            (weapon (reloadTimerFires (reloadWeapon (shootWeapon lowAmmoGame)))
               shotgun).
Proof.
  assert (Hrun : steps lowAmmoGame
                   (reloadTimerFires (reloadWeapon (shootWeapon lowAmmoGame)))).
  { eapply steps_next; [eapply steps_next; [eapply steps_next;
                                              [apply steps_refl|]|]|].
    - apply step_click.
    - apply (step_keydown KeyR).
    - apply step_timer. }
  exact (ammunition_is_never_created _ _ Hrun shotgun).
Defined.

(** ** Angle normalisation keeps the direction *)

Lemma wrapUp_turns (n : nat) :
  forall a, exists k : Z, wrapUp n a = a + 2 * PI * IZR k.
Proof.
  induction n as [|m IH]; intros a; simpl.
  - exists 0%Z. lra.
  - destruct (Rlt_dec a (- PI)); [|exists 0%Z; lra].
    destruct (IH (a + 2 * PI)) as [k Hk]. exists (k + 1)%Z.
    rewrite Hk, plus_IZR. lra.
Qed.

Lemma wrapDown_turns (n : nat) :
  forall a, exists k : Z, wrapDown n a = a + 2 * PI * IZR k.
Proof.
  induction n as [|m IH]; intros a; simpl.
  - exists 0%Z. lra.
  - destruct (Rlt_dec PI a); [|exists 0%Z; lra].
    destruct (IH (a - 2 * PI)) as [k Hk]. exists (k - 1)%Z.
    rewrite Hk, minus_IZR. lra.
Qed.

Lemma full_turns_nat (a : R) (n : nat) :
  cos (a + 2 * PI * INR n) = cos a /\ sin (a + 2 * PI * INR n) = sin a.
Proof.
  replace (a + 2 * PI * INR n) with (a + 2 * INR n * PI) by lra.
  split; [apply cos_period | apply sin_period].
Qed.

Lemma full_turns (a : R) (k : Z) :
  cos (a + 2 * PI * IZR k) = cos a /\ sin (a + 2 * PI * IZR k) = sin a.
Proof.
  destruct (Z_lt_le_dec k 0) as [Hneg | Hpos].
  - set (n := Z.to_nat (- k)).
    assert (Hk : IZR k = - INR n).
    { unfold n. rewrite INR_IZR_INZ, Z2Nat.id by lia.
      rewrite opp_IZR. lra. }
    rewrite Hk.
    destruct (full_turns_nat (a + 2 * PI * - INR n) n) as [Hc Hs].
    replace (a + 2 * PI * - INR n + 2 * PI * INR n) with a in Hc, Hs by lra.
    split; symmetry; assumption.
  - replace (IZR k) with (INR (Z.to_nat k))
      by (rewrite INR_IZR_INZ, Z2Nat.id by lia; reflexivity).
    apply full_turns_nat.
Qed.

(** The two normalisation loops leave the angle within [-PI, PI] and
    change it by a whole number of turns only, so that the direction it
    denotes is the one before the loops. *)
Theorem normalisation_keeps_direction (a : R) :
  - PI <= wrapAngle a <= PI /\
  (exists k : Z, wrapAngle a = a + 2 * PI * IZR k) /\
  cos (wrapAngle a) = cos a /\ sin (wrapAngle a) = sin a.
Proof.
  assert (Hturns : exists k : Z, wrapAngle a = a + 2 * PI * IZR k).
  { unfold wrapAngle. cbv zeta.
    destruct (wrapUp_turns (wrapUpFuel a) a) as [k1 H1].
    destruct (wrapDown_turns (wrapDownFuel (wrapUp (wrapUpFuel a) a))
                (wrapUp (wrapUpFuel a) a)) as [k2 H2].
    exists (k1 + k2)%Z. rewrite H2, H1, plus_IZR. lra. }
  split; [apply wrapAngle_range|]. split; [exact Hturns|].
  destruct Hturns as [k ->]. apply full_turns.
Qed.

(** ** The win test of the frame loop *)

Lemma updateEnemies_length (dt : R) (p : Player) :
  forall (es : list Enemy) (v : Vitals),
    length (fst (stateOf (updateEnemies dt p es v))) = length es.
Proof.
  induction es as [|e rest IH]; intros v; [reflexivity|].
  cbn [updateEnemies].
  destruct (updateEnemy dt p e v) as [[e' v'] | [e' v']];
    [|reflexivity].
  specialize (IH v').
  destruct (updateEnemies dt p rest v') as [[rest' v''] | [rest' v'']];
    cbn [stateOf fst length] in IH |- *; rewrite IH; reflexivity.
Qed.

(** A frame of a running session that completes with the kill target
    reached ends the game with the win screen, whatever else happened in
    the frame, and spawns no enemy; below the target a frame ends the game
    only with the health used up. *)
Theorem frame_declares_win_at_target (fuel : nat) (cv : Canvas)
  (bambooComplete : bool) (sandData : option Texture) (rnd : nat -> R)
  (dt : R) (g g' : Game) (f : option Frame) :
  gameState g = playing -> gameOver g = false ->
  gameLoop fuel cv bambooComplete sandData rnd dt g = Some (Normal g', f) ->
  ((TARGET_KILLS <= kills g)%Z ->
   gameOver g' = true /\ overlay g' = OverlayWin /\
   length (enemies g') = length (enemies g)) /\
  ((kills g < TARGET_KILLS)%Z ->
   gameOver g' = true -> health g' <= 0).
Proof.
  intros Hplay Hover Hrun.
  destruct (gameLoop_cases _ _ _ _ _ _ _ _ _ Hrun)
    as [[_ [Hm | Ho]] | (_ & _ & [[Habs _] | (g1 & Hsim & Hc)])];
    try congruence.
  pose proof (simulate_reason dt g Hover) as Hreason.
  pose proof (spawnAndWin_effect rnd g1) as Hsp. cbv zeta in Hsp.
  rewrite <- Hc in Hsp. cbn [stateOf] in Hsp.
  rewrite Hsim in Hreason. cbn [stateOf] in Hreason.
  destruct (simulate_shape dt g)
    as (p' & es & v & m & b & fl & Hshape & _ & Hes & _).
  rewrite Hsim in Hshape. cbn [stateOf] in Hshape.
  assert (Hk1 : kills g1 = kills g) by (rewrite Hshape; reflexivity).
  assert (Hlen : length (enemies g1) = length (enemies g)).
  { rewrite Hshape. cbn [enemies].
    destruct Hes as [Hes | [-> _]]; [|reflexivity].
    pose proof (updateEnemies_length dt p' (enemies g) (vitalsOf g)) as Hu.
    rewrite <- Hes in Hu. exact Hu. }
  destruct Hsp as (Hk & _ & _ & _ & _ & _ & _ & _ & _ & Hh & _ & _ & _ & _
                   & Hen & Hend).
  split.
  - intros Htarget.
    assert (Hwin : gameOver g' = true /\ overlay g' = OverlayWin).
    { unfold spawnAndWin in Hc.
      destruct ((aliveCount (enemies g1) <? ACTIVE_ENEMY_COUNT)%nat
                && (kills g1 <? TARGET_KILLS)%Z) eqn:Hneed.
      - apply andb_true_iff in Hneed. destruct Hneed as [_ Hlt].
        apply Z.ltb_lt in Hlt. lia.
      - cbv zeta in Hc. cbn [kills setEnemies] in Hc.
        assert (Hle : (TARGET_KILLS <=? kills g1)%Z = true)
          by (apply Z.leb_le; lia).
        rewrite Hle in Hc. inversion Hc. split; reflexivity. }
    split; [apply Hwin | split; [apply Hwin|]].
    destruct Hen as [-> | (x & y & _ & _ & _ & Hlt)]; [exact Hlen | lia].
  - intros Hbelow Hover'.
    destruct Hend as [[Ho _] | (_ & _ & Hge)]; [|lia].
    rewrite Hh. apply Hreason. rewrite <- Ho. exact Hover'.
Qed.

Lemma simulate_targetReached (dt : R) :
  exists g1,
    simulate dt targetReachedGame = Normal g1 /\
    player g1 = idlePose /\ kills g1 = TARGET_KILLS.
Proof.
  unfold simulate. change (player targetReachedGame) with initialPlayer.
  rewrite updatePlayer_idle. cbv zeta.
  change (enemies (setPlayer idlePose targetReachedGame))
    with [newEnemy 4.5 2.5].
  cbn [updateEnemies].
  destruct (updateEnemy_duel dt
              (vitalsOf (setPlayer idlePose targetReachedGame)))
    as (e' & v' & He).
  rewrite He. eexists. repeat split; reflexivity.
Qed.

Lemma frame_declares_win_witness :
  exists g' f,
    gameLoop 31 sampleCanvas false None zeroRandom 0.016 targetReachedGame
    = Some (Normal g', f) /\
    gameOver g' = true /\ overlay g' = OverlayWin.
Proof.
  destruct (simulate_targetReached 0.016) as (g1 & Hsim & Hpose & Hkills).
  destruct idlePose_inside as [Hx Hy].
  destruct (castRays_returns 31 sampleCanvas idlePose Hx Hy (le_n 31))
    as (cols & Hcols & _).
  assert (Hwin : spawnAndWin zeroRandom g1
                 = Normal (setGameOver true OverlayWin
                             (setEnemies (enemies g1) g1))).
  { unfold spawnAndWin. rewrite Hkills.
    change (TARGET_KILLS <? TARGET_KILLS)%Z with false.
    rewrite andb_false_r. cbv zeta. cbn [kills setEnemies].
    rewrite Hkills. reflexivity. }
  assert (Hrun :
    gameLoop 31 sampleCanvas false None zeroRandom 0.016 targetReachedGame
    = Some (Normal (setGameOver true OverlayWin
                      (setEnemies (enemies g1) g1)),
            Some (mkFrame
                    (drawFloorPerspective sampleCanvas idlePose None [])
                    cols))).
  { unfold gameLoop. change (gameState targetReachedGame) with playing.
    change (gameOver targetReachedGame) with false. cbv iota.
    rewrite Hsim. unfold renderScene. rewrite Hpose, Hcols, Hwin.
    reflexivity. }
  destruct (frame_declares_win_at_target _ _ _ _ _ _ _ _ _
              (eq_refl : gameState targetReachedGame = playing)
              (eq_refl : gameOver targetReachedGame = false) Hrun)
    as [Hat _].
  destruct (Hat (Z.le_refl TARGET_KILLS)) as (Ho & Hov & _).
  eexists. eexists. split; [exact Hrun | split; [exact Ho | exact Hov]].
Defined.

(** ** Floor caster: sampling *)

Lemma jsMod1_nonneg (x : R) : 0 <= x -> 0 <= jsMod1 x < 1.
Proof.
  intros Hx. unfold jsMod1. destruct (Rle_dec 0 x) as [_ | Hn]; [|lra].
  pose proof (Zfloor_bound x). lra.
Qed.

Lemma jsMod1_range (x : R) : -1 < jsMod1 x < 1.
Proof.
  destruct (Rle_dec 0 x) as [Hx | Hx].
  - pose proof (jsMod1_nonneg x Hx). lra.
  - unfold jsMod1. destruct (Rle_dec 0 x) as [Hp | _]; [lra|].
    pose proof (Zfloor_bound (- x)). lra.
Qed.

Lemma texel_in_range (w : R) (size : Z) :
  (0 < size)%Z ->
  (0 <= Zfloor (jsMod1 (jsMod1 w + 1) * IZR size) < size)%Z.
Proof.
  intros Hsize.
  pose proof (jsMod1_range w) as Hw.
  assert (Ht : 0 <= jsMod1 (jsMod1 w + 1) < 1) by (apply jsMod1_nonneg; lra).
  assert (HS : 0 < IZR size) by (apply IZR_lt in Hsize; exact Hsize).
  split.
  - apply Zfloor_lub. simpl. nra.
  - apply lt_IZR.
    pose proof (Zfloor_bound (jsMod1 (jsMod1 w + 1) * IZR size)). nra.
Qed.

Lemma shadeChannel_range (c : Z) (shade : R) :
  (0 <= shadeChannel c shade <= 255)%Z.
Proof. unfold shadeChannel. lia. Qed.

(** The floor caster reads the sand texture inside its pixel data only,
    whatever world point it samples: two textures of the same positive
    dimensions that agree on the [4 * width * height] entries of their
    data give the same pixel.  The channels written are within 0..255. *)
Theorem floor_texture_read_in_bounds (t t' : Texture) (wx wy shade : R) :
  (0 < texWidth t)%Z -> (0 < texHeight t)%Z ->
  texWidth t' = texWidth t -> texHeight t' = texHeight t ->
  (forall i, (0 <= i < 4 * texWidth t * texHeight t)%Z ->
             texData t' i = texData t i) ->
  floorColour (Some t') wx wy shade = floorColour (Some t) wx wy shade /\
  exists r g b,
    floorColour (Some t) wx wy shade = Some (r, g, b) /\
    (0 <= r <= 255)%Z /\ (0 <= g <= 255)%Z /\ (0 <= b <= 255)%Z.
Proof.
  intros HW HH Hw Hh Hdata. unfold floorColour. rewrite Hw, Hh.
  pose proof (texel_in_range wx (texWidth t) HW) as Hx.
  pose proof (texel_in_range wy (texHeight t) HH) as Hy.
  set (tpx := Zfloor (jsMod1 (jsMod1 wx + 1) * IZR (texWidth t))) in *.
  set (tpy := Zfloor (jsMod1 (jsMod1 wy + 1) * IZR (texHeight t))) in *.
  assert (Hidx : (0 <= (tpy * texWidth t + tpx) * 4
                  /\ (tpy * texWidth t + tpx) * 4 + 3
                     < 4 * texWidth t * texHeight t)%Z) by nia.
  rewrite !Hdata by lia.
  split; [reflexivity|].
  eexists. eexists. eexists. split; [reflexivity|].
  repeat split; apply shadeChannel_range.
Qed.

Lemma floor_texture_witness :
  floorColour (Some sandTilePadded) 3.7 (-1.2) 0.5
  = floorColour (Some sandTile) 3.7 (-1.2) 0.5.
Proof.
  assert (Hdata : forall i,
    (0 <= i < 4 * texWidth sandTile * texHeight sandTile)%Z ->
    texData sandTilePadded i = texData sandTile i).
  { intros i Hi. simpl in Hi. simpl.
    assert (H0 : (0 <=? i)%Z = true) by (apply Z.leb_le; lia).
    assert (H1 : (i <? 16)%Z = true) by (apply Z.ltb_lt; lia).
    rewrite H0, H1. reflexivity. }
  exact (proj1 (floor_texture_read_in_bounds sandTile sandTilePadded
                  3.7 (-1.2) 0.5 eq_refl eq_refl eq_refl eq_refl Hdata)).
Defined.

(** ** Floor caster: geometry of a scanline *)

(** On a scanline whose offset from the middle of the view is not zero
    (every scanline of an even view height, and every scanline but row 0 of
    an odd one), pixel [n] samples the world point that lies the fraction
    [n / width] of the way from the point at the row distance on the left
    edge ray of the view to the point at the row distance on the right edge
    ray.  Its squared distance from the player is therefore the square of
    the row distance times
    cos^2(FOV/2) + (1 - 2n/width)^2 sin^2(FOV/2): the row distance at the
    left edge of the screen, and the row distance times cos(FOV/2) in the
    middle. *)
Theorem floor_scanline_geometry (cv : Canvas) (p : Player)
  (zBufSq : list R) (sandData : option Texture) (yRow : Z) (n : nat) :
  (0 < width cv)%Z -> (n < Z.to_nat (width cv))%nat ->
  rowOffset cv yRow <> 0 ->
  let rd := rowDistance cv yRow in
  let t := INR n / IZR (width cv) in
  let wx := fst (floorPoint cv p yRow n) in
  let wy := snd (floorPoint cv p yRow n) in
  nth_error (floorScanline cv p zBufSq sandData yRow) n
  = Some (if floorVisible cv p zBufSq (Z.of_nat n) wx wy
          then floorColour sandData wx wy (Rmin 1 (1 / (rd * 0.04)))
          else None) /\
  wx = px p + rd * ((1 - t) * cos (pangle p - FOV / 2)
                    + t * cos (pangle p + FOV / 2)) /\
  wy = py p + rd * ((1 - t) * sin (pangle p - FOV / 2)
                    + t * sin (pangle p + FOV / 2)) /\
  floorDistSq cv p yRow n
  = rd * rd * (cos (FOV / 2) * cos (FOV / 2)
               + (1 - 2 * t) * (1 - 2 * t)
                 * (sin (FOV / 2) * sin (FOV / 2))).
Proof.
  intros Hw Hn Hrow. cbv zeta.
  assert (HW : IZR (width cv) <> 0).
  { apply IZR_lt in Hw. lra. }
  assert (Hx : fst (floorPoint cv p yRow n)
               = px p + rowDistance cv yRow
                 * ((1 - INR n / IZR (width cv)) * cos (pangle p - FOV / 2)
                    + INR n / IZR (width cv) * cos (pangle p + FOV / 2))).
  { unfold floorPoint, scanStart, scanStep. cbn [fst snd].
    rewrite accumulate_closed. field. exact HW. }
  assert (Hy : snd (floorPoint cv p yRow n)
               = py p + rowDistance cv yRow
                 * ((1 - INR n / IZR (width cv)) * sin (pangle p - FOV / 2)
                    + INR n / IZR (width cv) * sin (pangle p + FOV / 2))).
  { unfold floorPoint, scanStart, scanStep. cbn [fst snd].
    rewrite accumulate_closed. field. exact HW. }
  split; [|split; [exact Hx | split; [exact Hy|]]].
  - rewrite (floorScanline_finite _ _ _ _ _ Hrow).
    rewrite (floorRow_nth cv p zBufSq sandData _ _ _ _ n 0%Z _ _ Hn).
    rewrite Z.add_0_l. reflexivity.
  - unfold floorDistSq. cbv zeta. rewrite Hx, Hy.
    rewrite cos_minus, cos_plus, sin_minus, sin_plus.
    assert (Hc : cos (pangle p) * cos (pangle p)
                 = 1 - sin (pangle p) * sin (pangle p)).
    { pose proof (sin2_cos2 (pangle p)) as H. unfold Rsqr in H. lra. }
    generalize dependent (cos (pangle p)). generalize (sin (pangle p)).
    generalize (cos (FOV / 2)). generalize (sin (FOV / 2)).
    generalize (rowDistance cv yRow). generalize (INR n / IZR (width cv)).
    intros t rd sh ch sa ca Hc. ring [Hc].
Qed.

Lemma floor_scanline_witness :
  floorDistSq sampleCanvas initialPlayer 0 320
  = rowDistance sampleCanvas 0 * rowDistance sampleCanvas 0
    * (cos (FOV / 2) * cos (FOV / 2)
       + (1 - 2 * (INR 320 / IZR (width sampleCanvas)))
         * (1 - 2 * (INR 320 / IZR (width sampleCanvas)))
         * (sin (FOV / 2) * sin (FOV / 2))).
Proof.
  assert (Hw : (0 < width sampleCanvas)%Z) by reflexivity.
  assert (Hn : (320 < Z.to_nat (width sampleCanvas))%nat)
    by (simpl; lia).
  exact (proj2 (proj2 (proj2
           (floor_scanline_geometry sampleCanvas initialPlayer [] None 0 320
              Hw Hn rowOffset_first_row)))).
Defined.
